(** * Secure-message pipeline: FNV-1 hash, Huffman codec, toy RSA

    A shallow embedding of [src/main.py] (classes [FNV1Hash],
    [HuffmanCompressor], [RSA] and [SistemaMensajesSeguros]) together
    with the properties the specification states about them and further
    properties of the code.

    Conventions of the embedding:
    - Python's unbounded [int] is [Z]; list and heap indices are [nat].
    - a Python [str] is a list of characters; bit strings and codes are
      [list ascii] over the characters "0" and "1"; the symbols of a text
      are kept abstract (any type with decidable equality).
    - a [dict] is an insertion-ordered association list.
    - exceptions are values of [exn]; every fallible operation returns an
      [outcome]. *)

From Stdlib Require Import ZArith Znumtheory Zpow_facts Lia Ascii String.
From Stdlib Require Import HexadecimalString.
From Stdlib Require Zmod.ZmodInv.
From Stdlib Require HexadecimalPos HexadecimalN.
From Equations Require Import Equations.
From stdpp Require Import base tactics option list numbers strings.

Local Open Scope Z_scope.

(** ** Python values and exceptions *)

Module Py.

Inductive exn : Type :=
| ValueError (msg : string)
| IndexError
| KeyError
| AttributeError
| ZeroDivisionError
| UnicodeEncodeError.

(** [OutOfFuel] is not a Python outcome: it marks a loop of the model that
    was cut off before the Python loop would have finished. *)
Inductive outcome (A : Type) : Type :=
| Ok (a : A)
| Raise (e : exn)
| OutOfFuel.

Arguments Ok {A} a.
Arguments Raise {A} e.
Arguments OutOfFuel {A}.

Definition bind {A B} (m : outcome A) (k : A -> outcome B) : outcome B :=
  match m with
  | Ok a => k a
  | Raise e => Raise e
  | OutOfFuel => OutOfFuel
  end.

(** A Python [str] literal, as a list of characters. *)
Definition str (s : string) : list ascii := list_ascii_of_string s.

End Py.

Import Py.

#[export] Instance outcome_ret : MRet outcome := @Ok.
#[export] Instance outcome_bind : MBind outcome := fun _ _ k m => Py.bind m k.

(** ** Dictionaries

    A Python [dict] keeps its keys in insertion order; assigning to a key
    that is present replaces the value in place, assigning to a new key
    appends an item. *)

Module Dict.

Section Dict.
Context {K V : Type} `{EqDecision K}.

Definition dict : Type := list (K * V).

(** [d.get(k)] / [k in d] / [d[k]] *)
Fixpoint get (k : K) (d : dict) : option V :=
  match d with
  | [] => None
  | (k', v) :: d' => if decide (k = k') then Some v else get k d'
  end.

(** [d[k] = v] *)
Fixpoint set (k : K) (v : V) (d : dict) : dict :=
  match d with
  | [] => [(k, v)]
  | (k', v') :: d' =>
      if decide (k = k') then (k', v) :: d' else (k', v') :: set k v d'
  end.

(** [d[k]], raising [KeyError] on a missing key *)
Definition getitem (k : K) (d : dict) : outcome V :=
  match get k d with
  | Some v => Ok v
  | None => Raise KeyError
  end.

Definition keys (d : dict) : list K := d.*1.

End Dict.

Arguments dict : clear implicits.

End Dict.

(** ** FNV-1 hash ([class FNV1Hash]) *)

Module FNV1Hash.

Record t : Type := mk {
  FNV_prime : Z;
  FNV_offset_basis : Z;
  mask : Z
}.

(** [__init__(self, bits=32)] *)
Definition init (bits : Z) : outcome t :=
  if decide (bits = 32) then
    Ok {| FNV_prime := 16777619;
          FNV_offset_basis := 2166136261;
          mask := 0xFFFFFFFF |}
  else if decide (bits = 64) then
    Ok {| FNV_prime := 1099511628211;
          FNV_offset_basis := 14695981039346656037;
          mask := 0xFFFFFFFFFFFFFFFF |}
  else Raise (ValueError "FNV-1 solo soporta 32 o 64 bits").

(** The argument of [hash]: a [bytes] object (integers in [0, 256)) or a
    [str] (Unicode code points). *)
Inductive data : Type :=
| Bytes (b : list Z)
| Str (s : list Z).

(** [str.encode('utf-8')] on one code point; lone surrogates cannot be
    encoded. *)
Definition utf8_char (c : Z) : outcome (list Z) :=
  if decide (c < 0x80) then Ok [c]
  else if decide (c < 0x800) then
    Ok [Z.lor 0xC0 (Z.shiftr c 6); Z.lor 0x80 (Z.land c 0x3F)]
  else if decide (c < 0x10000) then
    if decide (0xD800 <= c <= 0xDFFF) then Raise UnicodeEncodeError
    else Ok [Z.lor 0xE0 (Z.shiftr c 12);
             Z.lor 0x80 (Z.land (Z.shiftr c 6) 0x3F);
             Z.lor 0x80 (Z.land c 0x3F)]
  else
    Ok [Z.lor 0xF0 (Z.shiftr c 18);
        Z.lor 0x80 (Z.land (Z.shiftr c 12) 0x3F);
        Z.lor 0x80 (Z.land (Z.shiftr c 6) 0x3F);
        Z.lor 0x80 (Z.land c 0x3F)].

Fixpoint encode_utf8 (s : list Z) : outcome (list Z) :=
  match s with
  | [] => Ok []
  | c :: s' =>
      b ← utf8_char c;
      bs ← encode_utf8 s';
      Ok (b ++ bs)
  end.

(** The body of the [for byte in data] loop. *)
Definition step (self : t) (hash_value byte : Z) : Z :=
  let hash_value := Z.land (hash_value * FNV_prime self) (mask self) in
  Z.lxor hash_value byte.

Definition hash_bytes (self : t) (bytes : list Z) : Z :=
  fold_left (step self) bytes (FNV_offset_basis self).

Definition hash (self : t) (d : data) : outcome Z :=
  bytes ← match d with
          | Bytes b => Ok b
          | Str s => encode_utf8 s
          end;
  Ok (hash_bytes self bytes).

(** [format(n, 'x')]: lowercase hexadecimal, no prefix, a minus sign for
    negative numbers. *)
Definition format_x (n : Z) : list ascii :=
  list_ascii_of_string (NilZero.string_of_int (Z.to_hex_int n)).

Definition hash_hex (self : t) (d : data) : outcome (list ascii) :=
  h ← hash self d;
  Ok (format_x h).

(** The FNV-1 reference definition, in the words of the specification:
    start from the offset basis; for each byte, multiply by the prime
    modulo [2^bits], then xor with the byte. *)
Fixpoint fnv1_reference (bits prime h : Z) (bytes : list Z) : Z :=
  match bytes with
  | [] => h
  | b :: rest =>
      let h := (h * prime) mod 2 ^ bits in
      let h := Z.lxor h b in
      fnv1_reference bits prime h rest
  end.

End FNV1Hash.

(** ** Binary heap on a list (Python's [heapq])

    [heapq] is Python's standard library, not part of the repository; the
    functions below follow its reference implementation [Lib/heapq.py]
    statement by statement. The order is the [<] of the elements
    ([__lt__]). *)

Module Heapq.

Local Open Scope nat_scope.

Section Heapq.
Context {T : Type} (lt : T -> T -> bool).

(** [heap[i]] *)
Definition getitem (heap : list T) (i : nat) : outcome T :=
  match heap !! i with
  | Some x => Ok x
  | None => Raise IndexError
  end.

(** The [while pos > startpos] loop of [_siftdown]: parents larger than
    [newitem] move down; the result is the heap and the final [pos]. *)
Equations? siftdown_loop (newitem : T) (startpos : nat) (heap : list T)
    (pos : nat) : outcome (list T * nat) by wf pos Nat.lt :=
siftdown_loop newitem startpos heap pos with decide (startpos < pos) => {
  | right _ => Ok (heap, pos)
  | left Hpos with heap !! ((pos - 1) / 2) => {
    | None => Raise IndexError
    | Some parent with lt newitem parent => {
      | true =>
          siftdown_loop newitem startpos (<[pos := parent]> heap)
                        ((pos - 1) / 2)
      | false => Ok (heap, pos) } } }.
Proof.
  apply Nat.Div0.div_lt_upper_bound; lia.
Qed.

(** [_siftdown(heap, startpos, pos)] *)
Definition siftdown (heap : list T) (startpos pos : nat) : outcome (list T) :=
  newitem ← getitem heap pos;
  '(heap, pos) ← siftdown_loop newitem startpos heap pos;
  Ok (<[pos := newitem]> heap).

(** [heappush(heap, item)] *)
Definition heappush (heap : list T) (item : T) : outcome (list T) :=
  let heap := heap ++ [item] in
  siftdown heap 0 (length heap - 1).

(** The choice of the smaller child in [_siftup]. *)
Definition smaller_child (heap : list T) (endpos childpos : nat) : outcome nat :=
  let rightpos := childpos + 1 in
  if decide (rightpos < endpos) then
    c ← getitem heap childpos;
    r ← getitem heap rightpos;
    Ok (if negb (lt c r) then rightpos else childpos)
  else Ok childpos.

(** The [while childpos < endpos] loop of [_siftup]: the smaller child moves
    up until a leaf is reached. Every turn at least doubles [pos], so
    [endpos] turns are more than the loop can take. *)
Fixpoint siftup_loop (fuel : nat) (endpos : nat) (heap : list T) (pos : nat)
    : outcome (list T * nat) :=
  let childpos := 2 * pos + 1 in
  if decide (childpos < endpos) then
    match fuel with
    | O => OutOfFuel
    | S fuel =>
        childpos ← smaller_child heap endpos childpos;
        child ← getitem heap childpos;
        siftup_loop fuel endpos (<[pos := child]> heap) childpos
    end
  else Ok (heap, pos).

(** [_siftup(heap, pos)] *)
Definition siftup (heap : list T) (pos : nat) : outcome (list T) :=
  let endpos := length heap in
  let startpos := pos in
  newitem ← getitem heap pos;
  '(heap, pos) ← siftup_loop endpos endpos heap pos;
  let heap := <[pos := newitem]> heap in
  siftdown heap startpos pos.

(** [heappop(heap)]: the popped item and the remaining heap. *)
Definition heappop (heap : list T) : outcome (T * list T) :=
  match last heap with
  | None => Raise IndexError
  | Some lastelt =>
      let heap := take (length heap - 1) heap in
      match heap with
      | returnitem :: _ =>
          heap ← siftup (<[0 := lastelt]> heap) 0;
          Ok (returnitem, heap)
      | [] => Ok (lastelt, heap)
      end
  end.

End Heapq.

End Heapq.

(** ** Huffman codec ([class HuffmanCompressor]) *)

Module HuffmanCompressor.

(** *** Bit strings *)

(** [int(s, 2)] for a string of binary digits. The other literal forms
    that [int] accepts (sign, [0b] prefix, underscores, surrounding blanks)
    are not modelled: every string parsed by [comprimir] is a slice of
    generated codes and zero padding. *)
Fixpoint int_base2_loop (acc : Z) (s : list ascii) : outcome Z :=
  match s with
  | [] => Ok acc
  | c :: s' =>
      if decide (c = "0"%char) then int_base2_loop (2 * acc) s'
      else if decide (c = "1"%char) then int_base2_loop (2 * acc + 1) s'
      else Raise (ValueError "invalid literal for int() with base 2")
  end.

Definition int_base2 (s : list ascii) : outcome Z :=
  match s with
  | [] => Raise (ValueError "invalid literal for int() with base 2")
  | _ => int_base2_loop 0 s
  end.

(** Binary digits of a positive number, most significant first. *)
Fixpoint bin_digits (p : positive) : list ascii :=
  match p with
  | xH => ["1"%char]
  | xO p' => bin_digits p' ++ ["0"%char]
  | xI p' => bin_digits p' ++ ["1"%char]
  end.

(** [format(n, '08b')]: binary digits, zero-filled after the sign to a
    total width of 8. *)
Definition format_08b (n : Z) : list ascii :=
  match n with
  | Z0 => replicate 8 "0"%char
  | Zpos p =>
      let d := bin_digits p in replicate (8 - length d) "0"%char ++ d
  | Zneg p =>
      let d := bin_digits p in
      "-"%char :: replicate (7 - length d) "0"%char ++ d
  end.

(** [range(0, n, 8)] *)
Definition range8 (n : nat) : list nat :=
  (fun k => (8 * k)%nat) <$> seq 0 ((n + 7) / 8).

(** [s[i:i + 8]] *)
Definition slice8 {X} (s : list X) (i : nat) : list X := take 8 (drop i s).

(** [bytearray.append(n)] accepts only [0 <= n < 256]. *)
Definition as_byte (n : Z) : outcome Z :=
  if decide (0 <= n < 256) then Ok n
  else Raise (ValueError "byte must be in range(0, 256)").

Section Huffman.
Context {A : Type} `{EqDecision A}.

(** *** [class NodoHuffman] *)

#[warnings="-register-all"]
Inductive NodoHuffman : Type := Nodo {
  simbolo : option A;
  frecuencia : Z;
  izquierda : option NodoHuffman;
  derecha : option NodoHuffman
}.

(** [NodoHuffman.__init__(self, simbolo=None, frecuencia=0)] *)
Definition NodoHuffman_init (simbolo : option A) (frecuencia : Z) : NodoHuffman :=
  {| simbolo := simbolo; frecuencia := frecuencia;
     izquierda := None; derecha := None |}.

(** [NodoHuffman.__lt__] *)
Definition NodoHuffman_lt (self otro : NodoHuffman) : bool :=
  bool_decide (frecuencia self < frecuencia otro).

(** The compressor object: its two attributes. *)
Record t : Type := mk {
  codigos : Dict.dict A (list ascii);
  arbol_raiz : option NodoHuffman
}.

(** [HuffmanCompressor.__init__] *)
Definition init : t := {| codigos := []; arbol_raiz := None |}.

(** [collections.Counter(texto)]: each symbol with its number of
    occurrences, in order of first occurrence. *)
Definition Counter (texto : list A) : Dict.dict A Z :=
  fold_left (fun d c => Dict.set c (default 0 (Dict.get c d) + 1) d) texto [].

(** One turn of the [while len(heap) > 1] loop of [construir_arbol]. *)
Definition unir_menores (heap : list NodoHuffman) : outcome (list NodoHuffman) :=
  '(nodo1, heap) ← Heapq.heappop NodoHuffman_lt heap;
  '(nodo2, heap) ← Heapq.heappop NodoHuffman_lt heap;
  let nodo_padre :=
    {| simbolo := None;
       frecuencia := frecuencia nodo1 + frecuencia nodo2;
       izquierda := Some nodo1;
       derecha := Some nodo2 |} in
  Heapq.heappush NodoHuffman_lt heap nodo_padre.

(** The loop itself; every turn shortens the heap by one, so [length heap]
    turns are enough. *)
Fixpoint construir_loop (fuel : nat) (heap : list NodoHuffman)
    : outcome (list NodoHuffman) :=
  if decide (1 < length heap)%nat then
    match fuel with
    | O => OutOfFuel
    | S fuel => heap ← unir_menores heap; construir_loop fuel heap
    end
  else Ok heap.

(** The [for simbolo, freq in frecuencias.items()] loop. *)
Fixpoint crear_nodos (items : list (A * Z)) (heap : list NodoHuffman)
    : outcome (list NodoHuffman) :=
  match items with
  | [] => Ok heap
  | (simbolo, freq) :: items =>
      let nodo := NodoHuffman_init (Some simbolo) freq in
      heap ← Heapq.heappush NodoHuffman_lt heap nodo;
      crear_nodos items heap
  end.

(** [construir_arbol(self, texto)]: the returned root and the updated
    object. *)
Definition construir_arbol (self : t) (texto : list A)
    : outcome (option NodoHuffman * t) :=
  match texto with
  | [] => Ok (None, self)
  | _ =>
      let frecuencias := Counter texto in
      heap ← crear_nodos frecuencias [];
      heap ← construir_loop (length heap) heap;
      let raiz := head heap in
      Ok (raiz, {| codigos := codigos self; arbol_raiz := raiz |})
  end.

(** The recursion of [generar_codigos] from a node that is not [None],
    threading the dictionary [self.codigos]. *)
Fixpoint generar_codigos_desde (nodo : NodoHuffman) (codigo_actual : list ascii)
    (codigos : Dict.dict A (list ascii)) : Dict.dict A (list ascii) :=
  match nodo with
  | Nodo simbolo _ izquierda derecha =>
      match simbolo with
      | Some s => Dict.set s codigo_actual codigos
      | None =>
          let codigos :=
            match izquierda with
            | Some hijo =>
                generar_codigos_desde hijo (codigo_actual ++ str "0") codigos
            | None => codigos
            end in
          match derecha with
          | Some hijo =>
              generar_codigos_desde hijo (codigo_actual ++ str "1") codigos
          | None => codigos
          end
      end
  end.

(** [generar_codigos(self, nodo=None, codigo_actual="")] *)
Definition generar_codigos (self : t) (nodo : option NodoHuffman)
    (codigo_actual : list ascii)
    : outcome (Dict.dict A (list ascii) * t) :=
  match nodo with
  | None =>
      match arbol_raiz self with
      | None => Raise AttributeError
      | Some nodo =>
          let codigos := generar_codigos_desde nodo codigo_actual [] in
          Ok (codigos, {| codigos := codigos; arbol_raiz := arbol_raiz self |})
      end
  | Some nodo =>
      let codigos := generar_codigos_desde nodo codigo_actual (codigos self) in
      Ok (codigos, {| codigos := codigos; arbol_raiz := arbol_raiz self |})
  end.

(** The [for caracter in texto: bits += self.codigos[caracter]] loop. *)
Fixpoint codificar (codigos : Dict.dict A (list ascii)) (texto : list A)
    (bits : list ascii) : outcome (list ascii) :=
  match texto with
  | [] => Ok bits
  | caracter :: texto =>
      codigo ← Dict.getitem caracter codigos;
      codificar codigos texto (bits ++ codigo)
  end.

(** The [for i in range(0, len(bits), 8)] loop. *)
Fixpoint empaquetar (bits : list ascii) (indices : list nat)
    (bytes_comprimidos : list Z) : outcome (list Z) :=
  match indices with
  | [] => Ok bytes_comprimidos
  | i :: indices =>
      let byte := slice8 bits i in
      n ← int_base2 byte;
      n ← as_byte n;
      empaquetar bits indices (bytes_comprimidos ++ [n])
  end.

(** [comprimir(self, texto)]: the blob, the code table and the updated
    object. *)
Definition comprimir (self : t) (texto : list A)
    : outcome (list Z * Dict.dict A (list ascii) * t) :=
  match texto with
  | [] => Ok ([], [], self)
  | _ =>
      '(_, self) ← construir_arbol self texto;
      '(_, self) ← generar_codigos self None [];
      bits ← codificar (codigos self) texto [];
      let padding := (8 - (length bits mod 8))%nat in
      let padding := if decide (padding = 8%nat) then 0%nat else padding in
      let bits := bits ++ replicate padding "0"%char in
      bytes_comprimidos ← empaquetar bits (range8 (length bits)) [];
      let bytes_finales := [Z.of_nat padding] ++ bytes_comprimidos in
      Ok (bytes_finales, codigos self, self)
  end.

(** [{v: k for k, v in codigos_huffman.items()}] *)
Definition invertir (codigos_huffman : Dict.dict A (list ascii))
    : Dict.dict (list ascii) A :=
  fold_left (fun inv '(k, v) => Dict.set v k inv) codigos_huffman [].

(** The body of the [for bit in bits] loop, on the pair
    [(texto_reconstruido, codigo_actual)]. *)
Definition decodificar_bit (codigos_inversos : Dict.dict (list ascii) A)
    (estado : list A * list ascii) (bit : ascii) : list A * list ascii :=
  let '(texto_reconstruido, codigo_actual) := estado in
  let codigo_actual := codigo_actual ++ [bit] in
  match Dict.get codigo_actual codigos_inversos with
  | Some s => (texto_reconstruido ++ [s], [])
  | None => (texto_reconstruido, codigo_actual)
  end.

(** [descomprimir(self, datos_comprimidos, codigos_huffman)] *)
Definition descomprimir (datos_comprimidos : list Z)
    (codigos_huffman : Dict.dict A (list ascii)) : list A :=
  match datos_comprimidos, codigos_huffman with
  | [], _ | _, [] => []
  | padding :: datos_bits, _ =>
      let bits := concat (format_08b <$> datos_bits) in
      let bits :=
        if decide (0 < padding)%Z
        then take (length bits - Z.to_nat padding) bits
        else bits in
      let codigos_inversos := invertir codigos_huffman in
      fst (fold_left (decodificar_bit codigos_inversos) bits ([], []))
  end.

End Huffman.

Arguments NodoHuffman : clear implicits.
Arguments t : clear implicits.

End HuffmanCompressor.

(** ** Vocabulary for the properties of the codec *)

Module HuffmanSpec.

Import HuffmanCompressor.

(** A string of binary digits. *)
Definition binario (s : list ascii) : Prop :=
  Forall (fun c => c = "0"%char \/ c = "1"%char) s.

(** No string of the list is a prefix of a string at another position. *)
Definition prefix_free (codes : list (list ascii)) : Prop :=
  forall i j c1 c2,
    i ≠ j -> codes !! i = Some c1 -> codes !! j = Some c2 ->
    ¬ c1 `prefix_of` c2.

(** [padding = 8 - (len(bits) % 8)], with 8 replaced by 0. *)
Definition padding_de (len : nat) : nat :=
  let padding := (8 - (len mod 8))%nat in
  if decide (padding = 8%nat) then 0%nat else padding.

Section HuffmanSpec.
Context {A : Type} `{EqDecision A}.

(** The leaves below a node, each with the path that leads to it ("0" for
    a left descent, "1" for a right descent), in the order of the
    traversal of [generar_codigos]. *)
Fixpoint hojas (nodo : NodoHuffman A) : list (A * list ascii) :=
  match nodo with
  | Nodo simbolo _ izquierda derecha =>
      match simbolo with
      | Some s => [(s, [])]
      | None =>
          match izquierda with
          | Some hijo => prod_map id (cons "0"%char) <$> hojas hijo
          | None => []
          end ++
          match derecha with
          | Some hijo => prod_map id (cons "1"%char) <$> hojas hijo
          | None => []
          end
      end
  end.

(** The symbols at the leaves of the trees of a heap. *)
Definition simbolos_heap (heap : list (NodoHuffman A)) : list A :=
  heap ≫= (fun nodo => (hojas nodo).*1).

(** The code table is prefix-free: for two distinct symbols of the table,
    neither code is a prefix of the other. *)
Definition tabla_prefix_free (tabla : Dict.dict A (list ascii)) : Prop :=
  forall s1 s2 c1 c2,
    s1 ≠ s2 ->
    Dict.get s1 tabla = Some c1 -> Dict.get s2 tabla = Some c2 ->
    ¬ c1 `prefix_of` c2 /\ ¬ c2 `prefix_of` c1.

(** The text has at least two distinct symbols. *)
Definition dos_simbolos (texto : list A) : Prop :=
  exists a b, a ∈ texto /\ b ∈ texto /\ a ≠ b.

(** The text is not empty and all its symbols are [a]. *)
Definition un_simbolo (texto : list A) (a : A) : Prop :=
  texto ≠ [] /\ forall s, s ∈ texto -> s = a.

(** The concatenated codes of the symbols of a text; a symbol without a
    code contributes nothing. *)
Definition bits_de (tabla : Dict.dict A (list ascii)) (texto : list A)
    : list ascii :=
  concat ((fun s => default [] (Dict.get s tabla)) <$> texto).

End HuffmanSpec.

(** The two leaves and the root of the tree of "AAAB". *)
Definition hoja_A : NodoHuffman ascii := NodoHuffman_init (Some "A"%char) 3.
Definition hoja_B : NodoHuffman ascii := NodoHuffman_init (Some "B"%char) 1.
Definition raiz_AAAB : NodoHuffman ascii :=
  {| simbolo := None; frecuencia := 4;
     izquierda := Some hoja_B; derecha := Some hoja_A |}.

End HuffmanSpec.

(** ** Toy RSA ([class RSA]) *)

Module RSA.

(** The built-in three-argument [pow(base, exp, mod)] on integers: a zero
    modulus is an error; a negative exponent asks for the inverse of the
    base modulo [|mod|]; the result has the sign of the modulus. *)
Definition pow3 (base exp modulus : Z) : outcome Z :=
  if decide (modulus = 0) then
    Raise (ValueError "pow() 3rd argument cannot be 0")
  else if decide (0 <= exp) then Ok (base ^ exp mod modulus)
  else if decide (Z.gcd base modulus = 1) then
    Ok (Z.invmod base (Z.abs modulus) ^ (- exp) mod modulus)
  else Raise (ValueError "base is not invertible for the given modulus").

(** The object: its three attributes, [None] until keys are generated. *)
Record t : Type := mk {
  clave_publica : option (Z * Z);
  clave_privada : option (Z * Z);
  n : option Z
}.

(** [RSA.__init__] *)
Definition init : t :=
  {| clave_publica := None; clave_privada := None; n := None |}.

(** [calcular_mcd(self, a, b)]: the loop [while b != 0: a, b = b, a % b].
    [|b|] decreases at every turn. *)
Equations? calcular_mcd (a b : Z) : Z by wf (Z.abs_nat b) lt :=
calcular_mcd a b with decide (b = 0) => {
  | left _ => a
  | right Hb => calcular_mcd b (a mod b) }.
Proof.
  destruct (Z.lt_ge_cases 0 b).
  - pose proof (Z.mod_pos_bound a b). lia.
  - pose proof (Z.mod_neg_bound a b). lia.
Qed.

(** [son_coprimos(self, a, b)] *)
Definition son_coprimos (a b : Z) : bool :=
  bool_decide (calcular_mcd a b = 1).

(** [funcion_totiente_euler(self, p, q)] *)
Definition funcion_totiente_euler (p q : Z) : Z := (p - 1) * (q - 1).

(** The local function [extended_gcd(a, b)] of [modular_inverse]; [|a|]
    decreases at every call. *)
Equations? extended_gcd (a b : Z) : Z * Z * Z by wf (Z.abs_nat a) lt :=
extended_gcd a b with decide (a = 0) => {
  | left _ => (b, 0, 1)
  | right Ha =>
      let '(gcd, x1, y1) := extended_gcd (b mod a) a in
      let x := y1 - (b / a) * x1 in
      let y := x1 in
      (gcd, x, y) }.
Proof.
  destruct (Z.lt_ge_cases 0 a).
  - pose proof (Z.mod_pos_bound b a). lia.
  - pose proof (Z.mod_neg_bound b a). lia.
Qed.

(** [modular_inverse(self, e, phi)] *)
Definition modular_inverse (e phi : Z) : outcome Z :=
  let '(gcd, x, _) := extended_gcd e phi in
  if decide (gcd ≠ 1) then Raise (ValueError "No existe inverso modular")
  else if decide (phi = 0) then Raise ZeroDivisionError
  else Ok (x mod phi).

(** The loop [while not self.son_coprimos(e, phi_n): e += 2]. It runs for
    ever when no candidate is coprime with [phi_n]; [fuel] bounds the
    number of turns of the model. *)
Fixpoint buscar_e (fuel : nat) (e phi_n : Z) : outcome Z :=
  if son_coprimos e phi_n then Ok e
  else
    match fuel with
    | O => OutOfFuel
    | S fuel => buscar_e fuel (e + 2) phi_n
    end.

(** [generar_claves(self, p=61, q=53)]: the returned pair of keys and the
    updated object. *)
Definition generar_claves (fuel : nat) (self : t) (p q : Z)
    : outcome ((Z * Z) * (Z * Z) * t) :=
  let n := p * q in
  let phi_n := funcion_totiente_euler p q in
  e ← buscar_e fuel 17 phi_n;
  d ← modular_inverse e phi_n;
  let self := {| clave_publica := Some (e, n);
                 clave_privada := Some (d, n);
                 n := Some n |} in
  Ok ((e, n), (d, n), self).

(** The hash argument of [firmar_hash] and [verificar_firma]: an integer or
    a string. *)
Inductive hash_arg : Type :=
| HashInt (h : Z)
| HashStr (s : list ascii).

Section Firma.

(** The built-in [int(s, 16)], kept abstract: [None] for a string that is
    not a hexadecimal literal. *)
Variable int_base16 : list ascii -> option Z.

(** The [isinstance(hash_value, str)] conversion shared by both methods;
    on a string that is not a hexadecimal literal, [int] raises a
    [ValueError] (whose message also quotes the string). *)
Definition hash_num (hash_value : hash_arg) : outcome Z :=
  match hash_value with
  | HashStr s =>
      match int_base16 s with
      | Some h => Ok h
      | None => Raise (ValueError "invalid literal for int() with base 16")
      end
  | HashInt h => Ok h
  end.

(** [firmar_hash(self, hash_value)] *)
Definition firmar_hash (self : t) (hash_value : hash_arg) : outcome Z :=
  match clave_privada self with
  | None => Raise (ValueError "Clave privada no generada")
  | Some (d, n) =>
      hash_num ← hash_num hash_value;
      firma ← pow3 hash_num d n;
      Ok firma
  end.

(** [verificar_firma(self, hash_value, firma)] *)
Definition verificar_firma (self : t) (hash_value : hash_arg) (firma : Z)
    : outcome bool :=
  match clave_publica self with
  | None => Raise (ValueError "Clave publica no disponible")
  | Some (e, n) =>
      hash_num ← hash_num hash_value;
      hash_verificado ← pow3 firma e n;
      Ok (bool_decide (hash_num = hash_verificado))
  end.

End Firma.

(** [int(s, 16)] on a plain string of hexadecimal digits, the form that
    [hash_hex] produces; used to instantiate [int_base16] in examples. *)
Definition hex_digit (c : ascii) : option Z :=
  let k := Z.of_N (N_of_ascii c) in
  if decide (48 <= k <= 57) then Some (k - 48)
  else if decide (97 <= k <= 102) then Some (k - 87)
  else if decide (65 <= k <= 70) then Some (k - 55)
  else None.

Fixpoint int_hex_digits_loop (acc : Z) (s : list ascii) : option Z :=
  match s with
  | [] => Some acc
  | c :: s' =>
      match hex_digit c with
      | Some v => int_hex_digits_loop (16 * acc + v) s'
      | None => None
      end
  end.

Definition int_hex_digits (s : list ascii) : option Z :=
  match s with
  | [] => None
  | _ => int_hex_digits_loop 0 s
  end.

(** The object after [generar_claves()] with the default primes. *)
Definition claves_61_53 : t :=
  {| clave_publica := Some (17, 3233);
     clave_privada := Some (2753, 3233);
     n := Some 3233 |}.

(** The object after [generar_claves(0, 0)]. *)
Definition claves_0_0 : t :=
  {| clave_publica := Some (17, 0);
     clave_privada := Some (0, 0);
     n := Some 0 |}.

End RSA.

(** ** More vocabulary: shape of the tree, order of the heap *)

Module HuffmanShape.

Import HuffmanCompressor.

Section HuffmanShape.
Context {A : Type}.

(** The leaves below a node with their frequencies, left to right. *)
Fixpoint hojas_frecuencia (nodo : NodoHuffman A) : list (A * Z) :=
  match nodo with
  | Nodo simbolo f izquierda derecha =>
      match simbolo with
      | Some s => [(s, f)]
      | None =>
          match izquierda with
          | Some hijo => hojas_frecuencia hijo
          | None => []
          end ++
          match derecha with
          | Some hijo => hojas_frecuencia hijo
          | None => []
          end
      end
  end.

(** A node as [construir_arbol] builds them: a leaf carries a symbol and
    has no children; an internal node carries no symbol, has both
    children, its frequency is the sum of theirs, and its left child is
    not more frequent than its right child. *)
Fixpoint arbol_huffman (nodo : NodoHuffman A) : Prop :=
  match nodo with
  | Nodo (Some _) _ None None => True
  | Nodo None f (Some izq) (Some der) =>
      f = frecuencia izq + frecuencia der
      /\ frecuencia izq <= frecuencia der
      /\ arbol_huffman izq /\ arbol_huffman der
  | _ => False
  end.

(** The sum of a list of integers. *)
Definition suma (l : list Z) : Z := foldr Z.add 0 l.

(** The number of occurrences of a symbol in a text. *)
Definition apariciones `{EqDecision A} (s : A) (texto : list A) : Z :=
  Z.of_nat (length (filter (eq s) texto)).

End HuffmanShape.

End HuffmanShape.

Module HeapqOrder.

Section HeapqOrder.
Context {T : Type} (key : T -> Z).

(** The comparison of heap entries by a key, as [__lt__] of the nodes. *)
Definition lt_key (x y : T) : bool := bool_decide (key x < key y).

(** The element at [i], when there is one, is not larger than the element
    at [j], when there is one. *)
Definition le_at (heap : list T) (i j : nat) : Prop :=
  forall x y, heap !! i = Some x -> heap !! j = Some y -> key x <= key y.

(** The heap invariant of [heapq]: no element is smaller than its parent,
    the parent of position [i] being position [(i - 1) >> 1]. *)
Definition heap_ok (heap : list T) : Prop :=
  forall i, (0 < i)%nat -> le_at heap ((i - 1) / 2) i.

(** The invariant while [_siftdown] carries [newitem] up from [pos]: with
    [newitem] written at [pos], every position but [pos] respects its
    parent, and the children of [pos] respect the parent of [pos]. *)
Definition ok_except (heap : list T) (pos : nat) : Prop :=
  forall i, (0 < i)%nat -> i ≠ pos -> le_at heap ((i - 1) / 2) i.

Definition abuelo_ok (heap : list T) (pos : nat) : Prop :=
  (0 < pos)%nat ->
  forall c, (0 < c)%nat -> ((c - 1) / 2)%nat = pos ->
            le_at heap ((pos - 1) / 2) c.

(** The invariant while [_siftup] moves the hole down from the root: the
    order holds everywhere, except below the root as long as the hole is
    the root. *)
Definition ok_bajo (heap : list T) (pos : nat) : Prop :=
  forall i, (0 < i)%nat -> (pos = 0%nat -> ((i - 1) / 2)%nat ≠ 0%nat) ->
            le_at heap ((i - 1) / 2) i.

End HeapqOrder.

End HeapqOrder.


(** ** The menu-driven system ([class SistemaMensajesSeguros])

    The message is a [str], a list of code points. What the methods print
    is not part of the state and is not modelled, except the verdict of
    [mostrar_autenticidad]; printing is taken to succeed (a console that
    encodes as UTF-8, as the hash does). A method returns the object as it
    is when the method ends, together with [Ok tt] or the exception that
    left it. *)

Module SistemaMensajesSeguros.

(** The attributes of the object. The last three do not exist until a
    method assigns them: there [None] stands for the missing attribute. *)
Record t : Type := mk {
  fnv : FNV1Hash.t;
  huffman : HuffmanCompressor.t Z;
  rsa : RSA.t;
  mensaje_original : list Z;
  hash_mensaje : option (list ascii);
  mensaje_comprimido : option (list Z);
  codigos_huffman : option (Dict.dict Z (list ascii));
  firma_digital : option Z;
  clave_publica : option (Z * Z);
  mensaje_recibido : option (list Z);
  firma_recibida : option Z;
  clave_publica_recibida : option (Z * Z);
  codigos_huffman_recibidos : option (option (Dict.dict Z (list ascii)));
  verificacion_final : option bool;
  mensaje_verificado : option (list Z)
}.

(** The assignments [self.attribute = x]. *)
Definition set_huffman (x : HuffmanCompressor.t Z) (self : t) : t :=
  {| fnv := fnv self; huffman := x; rsa := rsa self; mensaje_original :=
     mensaje_original self; hash_mensaje := hash_mensaje self;
     mensaje_comprimido := mensaje_comprimido self; codigos_huffman :=
     codigos_huffman self; firma_digital := firma_digital self;
     clave_publica := clave_publica self; mensaje_recibido :=
     mensaje_recibido self; firma_recibida := firma_recibida self;
     clave_publica_recibida := clave_publica_recibida self;
     codigos_huffman_recibidos := codigos_huffman_recibidos self;
     verificacion_final := verificacion_final self; mensaje_verificado :=
     mensaje_verificado self |}.

Definition set_rsa (x : RSA.t) (self : t) : t :=
  {| fnv := fnv self; huffman := huffman self; rsa := x; mensaje_original :=
     mensaje_original self; hash_mensaje := hash_mensaje self;
     mensaje_comprimido := mensaje_comprimido self; codigos_huffman :=
     codigos_huffman self; firma_digital := firma_digital self;
     clave_publica := clave_publica self; mensaje_recibido :=
     mensaje_recibido self; firma_recibida := firma_recibida self;
     clave_publica_recibida := clave_publica_recibida self;
     codigos_huffman_recibidos := codigos_huffman_recibidos self;
     verificacion_final := verificacion_final self; mensaje_verificado :=
     mensaje_verificado self |}.

Definition set_mensaje_original (x : list Z) (self : t) : t :=
  {| fnv := fnv self; huffman := huffman self; rsa := rsa self;
     mensaje_original := x; hash_mensaje := hash_mensaje self;
     mensaje_comprimido := mensaje_comprimido self; codigos_huffman :=
     codigos_huffman self; firma_digital := firma_digital self;
     clave_publica := clave_publica self; mensaje_recibido :=
     mensaje_recibido self; firma_recibida := firma_recibida self;
     clave_publica_recibida := clave_publica_recibida self;
     codigos_huffman_recibidos := codigos_huffman_recibidos self;
     verificacion_final := verificacion_final self; mensaje_verificado :=
     mensaje_verificado self |}.

Definition set_hash_mensaje (x : option (list ascii)) (self : t) : t :=
  {| fnv := fnv self; huffman := huffman self; rsa := rsa self;
     mensaje_original := mensaje_original self; hash_mensaje := x;
     mensaje_comprimido := mensaje_comprimido self; codigos_huffman :=
     codigos_huffman self; firma_digital := firma_digital self;
     clave_publica := clave_publica self; mensaje_recibido :=
     mensaje_recibido self; firma_recibida := firma_recibida self;
     clave_publica_recibida := clave_publica_recibida self;
     codigos_huffman_recibidos := codigos_huffman_recibidos self;
     verificacion_final := verificacion_final self; mensaje_verificado :=
     mensaje_verificado self |}.

Definition set_mensaje_comprimido (x : option (list Z)) (self : t) : t :=
  {| fnv := fnv self; huffman := huffman self; rsa := rsa self;
     mensaje_original := mensaje_original self; hash_mensaje := hash_mensaje
     self; mensaje_comprimido := x; codigos_huffman := codigos_huffman self;
     firma_digital := firma_digital self; clave_publica := clave_publica
     self; mensaje_recibido := mensaje_recibido self; firma_recibida :=
     firma_recibida self; clave_publica_recibida := clave_publica_recibida
     self; codigos_huffman_recibidos := codigos_huffman_recibidos self;
     verificacion_final := verificacion_final self; mensaje_verificado :=
     mensaje_verificado self |}.

Definition set_codigos_huffman (x : option (Dict.dict Z (list ascii))) (self : t) : t :=
  {| fnv := fnv self; huffman := huffman self; rsa := rsa self;
     mensaje_original := mensaje_original self; hash_mensaje := hash_mensaje
     self; mensaje_comprimido := mensaje_comprimido self; codigos_huffman :=
     x; firma_digital := firma_digital self; clave_publica := clave_publica
     self; mensaje_recibido := mensaje_recibido self; firma_recibida :=
     firma_recibida self; clave_publica_recibida := clave_publica_recibida
     self; codigos_huffman_recibidos := codigos_huffman_recibidos self;
     verificacion_final := verificacion_final self; mensaje_verificado :=
     mensaje_verificado self |}.

Definition set_firma_digital (x : option Z) (self : t) : t :=
  {| fnv := fnv self; huffman := huffman self; rsa := rsa self;
     mensaje_original := mensaje_original self; hash_mensaje := hash_mensaje
     self; mensaje_comprimido := mensaje_comprimido self; codigos_huffman :=
     codigos_huffman self; firma_digital := x; clave_publica :=
     clave_publica self; mensaje_recibido := mensaje_recibido self;
     firma_recibida := firma_recibida self; clave_publica_recibida :=
     clave_publica_recibida self; codigos_huffman_recibidos :=
     codigos_huffman_recibidos self; verificacion_final :=
     verificacion_final self; mensaje_verificado := mensaje_verificado self
     |}.

Definition set_clave_publica (x : option (Z * Z)) (self : t) : t :=
  {| fnv := fnv self; huffman := huffman self; rsa := rsa self;
     mensaje_original := mensaje_original self; hash_mensaje := hash_mensaje
     self; mensaje_comprimido := mensaje_comprimido self; codigos_huffman :=
     codigos_huffman self; firma_digital := firma_digital self;
     clave_publica := x; mensaje_recibido := mensaje_recibido self;
     firma_recibida := firma_recibida self; clave_publica_recibida :=
     clave_publica_recibida self; codigos_huffman_recibidos :=
     codigos_huffman_recibidos self; verificacion_final :=
     verificacion_final self; mensaje_verificado := mensaje_verificado self
     |}.

Definition set_mensaje_recibido (x : option (list Z)) (self : t) : t :=
  {| fnv := fnv self; huffman := huffman self; rsa := rsa self;
     mensaje_original := mensaje_original self; hash_mensaje := hash_mensaje
     self; mensaje_comprimido := mensaje_comprimido self; codigos_huffman :=
     codigos_huffman self; firma_digital := firma_digital self;
     clave_publica := clave_publica self; mensaje_recibido := x;
     firma_recibida := firma_recibida self; clave_publica_recibida :=
     clave_publica_recibida self; codigos_huffman_recibidos :=
     codigos_huffman_recibidos self; verificacion_final :=
     verificacion_final self; mensaje_verificado := mensaje_verificado self
     |}.

Definition set_firma_recibida (x : option Z) (self : t) : t :=
  {| fnv := fnv self; huffman := huffman self; rsa := rsa self;
     mensaje_original := mensaje_original self; hash_mensaje := hash_mensaje
     self; mensaje_comprimido := mensaje_comprimido self; codigos_huffman :=
     codigos_huffman self; firma_digital := firma_digital self;
     clave_publica := clave_publica self; mensaje_recibido :=
     mensaje_recibido self; firma_recibida := x; clave_publica_recibida :=
     clave_publica_recibida self; codigos_huffman_recibidos :=
     codigos_huffman_recibidos self; verificacion_final :=
     verificacion_final self; mensaje_verificado := mensaje_verificado self
     |}.

Definition set_clave_publica_recibida (x : option (Z * Z)) (self : t) : t :=
  {| fnv := fnv self; huffman := huffman self; rsa := rsa self;
     mensaje_original := mensaje_original self; hash_mensaje := hash_mensaje
     self; mensaje_comprimido := mensaje_comprimido self; codigos_huffman :=
     codigos_huffman self; firma_digital := firma_digital self;
     clave_publica := clave_publica self; mensaje_recibido :=
     mensaje_recibido self; firma_recibida := firma_recibida self;
     clave_publica_recibida := x; codigos_huffman_recibidos :=
     codigos_huffman_recibidos self; verificacion_final :=
     verificacion_final self; mensaje_verificado := mensaje_verificado self
     |}.

Definition set_codigos_huffman_recibidos (x : option (option (Dict.dict Z (list ascii)))) (self : t) : t :=
  {| fnv := fnv self; huffman := huffman self; rsa := rsa self;
     mensaje_original := mensaje_original self; hash_mensaje := hash_mensaje
     self; mensaje_comprimido := mensaje_comprimido self; codigos_huffman :=
     codigos_huffman self; firma_digital := firma_digital self;
     clave_publica := clave_publica self; mensaje_recibido :=
     mensaje_recibido self; firma_recibida := firma_recibida self;
     clave_publica_recibida := clave_publica_recibida self;
     codigos_huffman_recibidos := x; verificacion_final :=
     verificacion_final self; mensaje_verificado := mensaje_verificado self
     |}.

Definition set_verificacion_final (x : option bool) (self : t) : t :=
  {| fnv := fnv self; huffman := huffman self; rsa := rsa self;
     mensaje_original := mensaje_original self; hash_mensaje := hash_mensaje
     self; mensaje_comprimido := mensaje_comprimido self; codigos_huffman :=
     codigos_huffman self; firma_digital := firma_digital self;
     clave_publica := clave_publica self; mensaje_recibido :=
     mensaje_recibido self; firma_recibida := firma_recibida self;
     clave_publica_recibida := clave_publica_recibida self;
     codigos_huffman_recibidos := codigos_huffman_recibidos self;
     verificacion_final := x; mensaje_verificado := mensaje_verificado self
     |}.

Definition set_mensaje_verificado (x : option (list Z)) (self : t) : t :=
  {| fnv := fnv self; huffman := huffman self; rsa := rsa self;
     mensaje_original := mensaje_original self; hash_mensaje := hash_mensaje
     self; mensaje_comprimido := mensaje_comprimido self; codigos_huffman :=
     codigos_huffman self; firma_digital := firma_digital self;
     clave_publica := clave_publica self; mensaje_recibido :=
     mensaje_recibido self; firma_recibida := firma_recibida self;
     clave_publica_recibida := clave_publica_recibida self;
     codigos_huffman_recibidos := codigos_huffman_recibidos self;
     verificacion_final := verificacion_final self; mensaje_verificado := x
     |}.

(** [SistemaMensajesSeguros.__init__] *)
Definition init : outcome t :=
  fnv ← FNV1Hash.init 32;
  Ok {| fnv := fnv;
        huffman := HuffmanCompressor.init;
        rsa := RSA.init;
        mensaje_original := [];
        hash_mensaje := None;
        mensaje_comprimido := None;
        codigos_huffman := None;
        firma_digital := None;
        clave_publica := None;
        mensaje_recibido := None;
        firma_recibida := None;
        clave_publica_recibida := None;
        codigos_huffman_recibidos := None;
        verificacion_final := None;
        mensaje_verificado := None |}.

(** [not x] for an attribute that is [None] or a sequence. *)
Definition vacio {X} (x : option (list X)) : bool :=
  match x with
  | None | Some [] => true
  | Some (_ :: _) => false
  end.

(** [not x] for an attribute that is [None] or an integer. *)
Definition nulo (x : option Z) : bool :=
  match x with
  | None => true
  | Some k => bool_decide (k = 0)
  end.

(** [not x] for an attribute that is [None] or a pair. *)
Definition ausente {X} (x : option X) : bool :=
  match x with
  | None => true
  | Some _ => false
  end.

(** A call that may raise inside a method: on an exception the method ends
    with the object as it is at that point. *)
Definition llamar {X} (self : t) (r : outcome X)
    (k : X -> t * outcome unit) : t * outcome unit :=
  match r with
  | Ok x => k x
  | Raise e => (self, Raise e)
  | OutOfFuel => (self, OutOfFuel)
  end.

(** [ingresar_mensaje(self)], on the line that [input] returns. *)
Definition ingresar_mensaje (self : t) (entrada : list Z) : t * outcome unit :=
  (set_mensaje_original entrada self, Ok tt).

(** [calcular_hash(self)] *)
Definition calcular_hash (self : t) : t * outcome unit :=
  match mensaje_original self with
  | [] => (self, Ok tt)
  | _ =>
      llamar self
        (FNV1Hash.hash_hex (fnv self) (FNV1Hash.Str (mensaje_original self)))
        (fun h => (set_hash_mensaje (Some h) self, Ok tt))
  end.

(** [comprimir_mensaje(self)]; [comprimir] works on the [huffman]
    attribute. *)
Definition comprimir_mensaje (self : t) : t * outcome unit :=
  match mensaje_original self with
  | [] => (self, Ok tt)
  | _ =>
      llamar self
        (HuffmanCompressor.comprimir (huffman self) (mensaje_original self))
        (fun '(blob, tabla, huffman') =>
           let self := set_huffman huffman' self in
           let self := set_mensaje_comprimido (Some blob) self in
           let self := set_codigos_huffman (Some tabla) self in
           (self, Ok tt))
  end.

Section Firma.

(** The built-in [int(s, 16)] of [RSA.firmar_hash], and the bound on the
    search of [RSA.generar_claves]. *)
Variable int_base16 : list ascii -> option Z.
Variable fuel : nat.

(** [firmar_hash(self)]: new keys from the default primes at every call,
    then the signature of the hexadecimal hash. *)
Definition firmar_hash (self : t) : t * outcome unit :=
  if vacio (hash_mensaje self) then (self, Ok tt)
  else
    llamar self (RSA.generar_claves fuel (rsa self) 61 53)
      (fun '(clave_publica', clave_privada', rsa') =>
         let self := set_rsa rsa' self in
         let self := set_clave_publica (Some clave_publica') self in
         llamar self
           (RSA.firmar_hash int_base16 (rsa self)
              (RSA.HashStr (default [] (hash_mensaje self))))
           (fun firma => (set_firma_digital (Some firma) self, Ok tt))).

(** [simular_envio(self)] *)
Definition simular_envio (self : t) : t * outcome unit :=
  if vacio (mensaje_comprimido self) || nulo (firma_digital self)
     || ausente (clave_publica self)
  then (self, Ok tt)
  else
    let self := set_mensaje_recibido (mensaje_comprimido self) self in
    let self := set_firma_recibida (firma_digital self) self in
    let self := set_clave_publica_recibida (clave_publica self) self in
    let self :=
      set_codigos_huffman_recibidos (Some (codigos_huffman self)) self in
    (self, Ok tt).

(** [descomprimir_verificar(self)]; a table that is [None] is as good as
    an empty one for [descomprimir]. *)
Definition descomprimir_verificar (self : t) : t * outcome unit :=
  if vacio (mensaje_recibido self) || nulo (firma_recibida self)
     || ausente (clave_publica_recibida self)
  then (self, Ok tt)
  else
    match codigos_huffman_recibidos self with
    | None => (self, Raise AttributeError)
    | Some codigos =>
        let mensaje_descomprimido :=
          HuffmanCompressor.descomprimir
            (default [] (mensaje_recibido self)) (default [] codigos) in
        llamar self
          (FNV1Hash.hash_hex (fnv self) (FNV1Hash.Str mensaje_descomprimido))
          (fun hash_recibido =>
             let self :=
               set_rsa {| RSA.clave_publica := clave_publica_recibida self;
                          RSA.clave_privada := RSA.clave_privada (rsa self);
                          RSA.n := RSA.n (rsa self) |} self in
             llamar self
               (RSA.verificar_firma int_base16 (rsa self)
                  (RSA.HashStr hash_recibido)
                  (default 0 (firma_recibida self)))
               (fun firma_valida =>
                  let self := set_verificacion_final (Some firma_valida) self in
                  let self :=
                    set_mensaje_verificado (Some mensaje_descomprimido) self in
                  (self, Ok tt)))
    end.

(** What [mostrar_autenticidad(self)] prints. *)
Inductive aviso : Type :=
| PrimeroVerifique
| Autentico (mensaje : option (list Z))
| Alterado.

Definition mostrar_autenticidad (self : t) : aviso :=
  match verificacion_final self with
  | None => PrimeroVerifique
  | Some true => Autentico (mensaje_verificado self)
  | Some false => Alterado
  end.

(** How [ejecutar] ends: by option 8, or by the [EOFError] of [input] at
    the end of the input. *)
Inductive fin : Type :=
| Salida
| FinDeEntrada.

(** [ejecutar(self)] on the lines that [input] returns one after the
    other (the options "1" to "8" are the code points 49 to 56). Every
    exception of a step is caught and printed; the [EOFError] of [input]
    in [ingresar_mensaje] is caught as well, and the next [input] of the
    loop, which is outside the [try], raises it again. Option 7 and an
    unknown option only print. *)
Fixpoint ejecutar (entradas : list (list Z)) (self : t) : t * fin :=
  match entradas with
  | [] => (self, FinDeEntrada)
  | opcion :: entradas =>
      if decide (opcion = [49]) then
        match entradas with
        | [] => (self, FinDeEntrada)
        | entrada :: entradas =>
            ejecutar entradas (ingresar_mensaje self entrada).1
        end
      else if decide (opcion = [50]) then
        ejecutar entradas (calcular_hash self).1
      else if decide (opcion = [51]) then
        ejecutar entradas (comprimir_mensaje self).1
      else if decide (opcion = [52]) then
        ejecutar entradas (firmar_hash self).1
      else if decide (opcion = [53]) then
        ejecutar entradas (simular_envio self).1
      else if decide (opcion = [54]) then
        ejecutar entradas (descomprimir_verificar self).1
      else if decide (opcion = [55]) then
        ejecutar entradas self
      else if decide (opcion = [56]) then (self, Salida)
      else ejecutar entradas self
  end.

End Firma.

(** The object after [__init__]. *)
Definition inicial : t :=
  {| fnv := {| FNV1Hash.FNV_prime := 16777619;
               FNV1Hash.FNV_offset_basis := 2166136261;
               FNV1Hash.mask := 0xFFFFFFFF |};
     huffman := HuffmanCompressor.init;
     rsa := RSA.init;
     mensaje_original := [];
     hash_mensaje := None;
     mensaje_comprimido := None;
     codigos_huffman := None;
     firma_digital := None;
     clave_publica := None;
     mensaje_recibido := None;
     firma_recibida := None;
     clave_publica_recibida := None;
     codigos_huffman_recibidos := None;
     verificacion_final := None;
     mensaje_verificado := None |}.

End SistemaMensajesSeguros.
(** ** Properties of the outcome monad *)

Lemma bind_Ok {X Y} (a : X) (k : X -> outcome Y) : Ok a ≫= k = k a.
Proof. reflexivity. Qed.

(** ** Properties of the FNV-1 hash *)

Module FNV1HashProps.

Import FNV1Hash.

Lemma init_mask bits self : init bits = Ok self -> mask self = Z.ones bits.
Proof.
  unfold init. repeat case_decide; intros E; inversion E; subst; reflexivity.
Qed.

Lemma init_bits_nonneg bits self : init bits = Ok self -> 0 <= bits.
Proof.
  unfold init. repeat case_decide; intros E; inversion E; lia.
Qed.

Lemma fold_step_reference bits self bytes h :
  init bits = Ok self ->
  fold_left (step self) bytes h = fnv1_reference bits (FNV_prime self) h bytes.
Proof.
  intros Hinit. revert h.
  induction bytes as [|b rest IH]; intros h; simpl; [reflexivity|].
  rewrite IH. unfold step.
  rewrite (init_mask _ _ Hinit), Z.land_ones by eauto using init_bits_nonneg.
  reflexivity.
Qed.

(** [C5] With the parameters of a supported width, [hash] is the FNV-1
    reference function: it starts from the offset basis and, byte after
    byte, multiplies by the prime modulo [2^bits] and then xors the byte
    (appending a byte [b] to the input turns the hash [h] into
    [((h * prime) mod 2^bits) xor b]); the empty input, as bytes or as a
    string, hashes to the offset basis, and the 32-bit [hash_hex("")] is
    "811c9dc5". A string is hashed through its UTF-8 bytes. *)
Theorem hash_is_fnv1_reference bits self :
  init bits = Ok self ->
  (forall bytes,
     hash self (Bytes bytes)
     = Ok (fnv1_reference bits (FNV_prime self) (FNV_offset_basis self) bytes))
  /\ (forall bytes b,
        hash self (Bytes (bytes ++ [b]))
        = Ok (Z.lxor ((hash_bytes self bytes * FNV_prime self) mod 2 ^ bits) b))
  /\ (forall s bytes,
        encode_utf8 s = Ok bytes -> hash self (Str s) = hash self (Bytes bytes))
  /\ hash self (Bytes []) = Ok (FNV_offset_basis self)
  /\ hash self (Str []) = Ok (FNV_offset_basis self)
  /\ (bits = 32 -> hash_hex self (Str []) = Ok (str "811c9dc5")).
Proof.
  intros Hinit. repeat split.
  - intros bytes. unfold hash, hash_bytes. simpl.
    f_equal. apply fold_step_reference, Hinit.
  - intros bytes b. unfold hash, hash_bytes. simpl.
    rewrite fold_left_app. simpl. unfold step at 1.
    rewrite (init_mask _ _ Hinit), Z.land_ones by eauto using init_bits_nonneg.
    reflexivity.
  - intros s bytes Hs. unfold hash. by rewrite Hs.
  - intros ->. unfold init in Hinit. simpl in Hinit.
    inversion Hinit; subst. reflexivity.
Qed.

Lemma hash_is_fnv1_reference_witness :
  init 32 = Ok {| FNV_prime := 16777619; FNV_offset_basis := 2166136261;
                  mask := 0xFFFFFFFF |}
  /\ hash_hex {| FNV_prime := 16777619; FNV_offset_basis := 2166136261;
                 mask := 0xFFFFFFFF |} (Str []) = Ok (str "811c9dc5").
Proof.
  split; [reflexivity|].
  apply (hash_is_fnv1_reference 32); reflexivity.
Defined.

End FNV1HashProps.

(** ** Properties of the heap operations

    The heap operations never fail on indices and only rearrange the
    elements: whatever the order [lt], a push adds the item and a pop
    removes the returned one. *)

Module HeapqProps.

Import Heapq.

Local Open Scope nat_scope.

Section HeapqProps.
Context {T : Type} (lt : T -> T -> bool).

Lemma getitem_lookup (heap : list T) i x :
  heap !! i = Some x -> getitem heap i = Ok x.
Proof. unfold getitem. by intros ->. Qed.

(** Moving the hole: writing [x] (the element at [j]) at [i] and keeping
    the pending item for [j] is a swap. *)
Lemma hole_swap (heap : list T) i j x newitem :
  i < length heap -> heap !! j = Some x -> i ≠ j ->
  <[j := newitem]> (<[i := x]> heap) ≡ₚ <[i := newitem]> heap.
Proof.
  intros Hi Hj Hne.
  rewrite <- (list_insert_insert_eq heap i x newitem).
  apply Permutation_insert_swap.
  - by apply list_lookup_insert_eq.
  - by rewrite list_lookup_insert_ne.
Qed.

Lemma siftdown_loop_spec newitem startpos (heap : list T) pos :
  pos < length heap ->
  exists heap' pos',
    siftdown_loop lt newitem startpos heap pos = Ok (heap', pos')
    /\ pos' < length heap'
    /\ length heap' = length heap
    /\ <[pos' := newitem]> heap' ≡ₚ <[pos := newitem]> heap.
Proof.
  funelim (siftdown_loop lt newitem startpos heap pos); intros Hlen.
  - eauto 10.
  - (* the parent index is below [pos], hence in range *)
    apply lookup_ge_None in Heq.
    assert ((pos - 1) / 2 < pos) by (apply Nat.Div0.div_lt_upper_bound; lia).
    lia.
  - (* the parent is larger: it moves down *)
    assert (Hp : (pos - 1) / 2 < pos) by (apply Nat.Div0.div_lt_upper_bound; lia).
    destruct H as (heap' & pos' & Hrun & Hpos' & Hlen' & Hperm).
    { rewrite length_insert. lia. }
    exists heap', pos'. rewrite length_insert in Hlen'.
    repeat split; [done..|].
    rewrite Hperm. apply hole_swap; [done|done|lia].
  - eauto 10.
Qed.

Lemma siftdown_spec (heap : list T) startpos pos :
  pos < length heap ->
  exists heap', siftdown lt heap startpos pos = Ok heap' /\ heap' ≡ₚ heap.
Proof.
  intros Hlen. unfold siftdown.
  destruct (lookup_lt_is_Some_2 heap pos Hlen) as [newitem Hnew].
  rewrite (getitem_lookup _ _ _ Hnew). simpl.
  destruct (siftdown_loop_spec newitem startpos heap pos Hlen)
    as (heap' & pos' & -> & _ & _ & Hperm).
  simpl. eexists; split; [done|].
  by rewrite Hperm, list_insert_id.
Qed.

(** [heappush] always succeeds and adds exactly the pushed item. *)
Lemma heappush_spec (heap : list T) item :
  exists heap', heappush lt heap item = Ok heap' /\ heap' ≡ₚ item :: heap.
Proof.
  unfold heappush.
  destruct (siftdown_spec (heap ++ [item]) 0 (length (heap ++ [item]) - 1))
    as (heap' & -> & Hperm).
  { rewrite length_app. simpl. lia. }
  exists heap'. split; [done|].
  by rewrite Hperm, Permutation_app_comm.
Qed.

Lemma smaller_child_spec (heap : list T) endpos childpos :
  endpos = length heap -> childpos < endpos ->
  exists c, smaller_child lt heap endpos childpos = Ok c
            /\ childpos <= c < endpos.
Proof.
  intros -> Hc. unfold smaller_child.
  case_decide as Hr; [|eexists; split; [done|lia]].
  destruct (lookup_lt_is_Some_2 heap childpos Hc) as [c Hcl].
  destruct (lookup_lt_is_Some_2 heap (childpos + 1) Hr) as [r Hrl].
  rewrite (getitem_lookup _ _ _ Hcl), (getitem_lookup _ _ _ Hrl). simpl.
  eexists; split; [done|]. destruct (negb _); lia.
Qed.

Lemma siftup_loop_spec newitem fuel (heap : list T) pos :
  pos < length heap -> length heap - pos <= fuel ->
  exists heap' pos',
    siftup_loop lt fuel (length heap) heap pos = Ok (heap', pos')
    /\ pos' < length heap'
    /\ length heap' = length heap
    /\ <[pos' := newitem]> heap' ≡ₚ <[pos := newitem]> heap.
Proof.
  revert heap pos. induction fuel as [|fuel IH]; intros heap pos Hpos Hfuel.
  { lia. }
  simpl. case_decide as Hchild; [|eauto 10].
  destruct (smaller_child_spec heap (length heap) (pos + (pos + 0) + 1))
    as (c & -> & Hc); [done|lia|]. simpl.
  destruct (lookup_lt_is_Some_2 heap c) as [child Hcl]; [lia|].
  rewrite (getitem_lookup _ _ _ Hcl). simpl.
  destruct (IH (<[pos := child]> heap) c) as (heap' & pos' & Hrun & ? & Hlen' & Hperm).
  { rewrite length_insert. lia. }
  { rewrite length_insert. lia. }
  rewrite length_insert in Hrun, Hlen'.
  exists heap', pos'. repeat split; [done..|].
  rewrite Hperm. apply hole_swap; [done|done|lia].
Qed.

Lemma siftup_spec (heap : list T) pos :
  pos < length heap ->
  exists heap', siftup lt heap pos = Ok heap' /\ heap' ≡ₚ heap.
Proof.
  intros Hlen. unfold siftup.
  destruct (lookup_lt_is_Some_2 heap pos Hlen) as [newitem Hnew].
  rewrite (getitem_lookup _ _ _ Hnew). simpl.
  destruct (siftup_loop_spec newitem (length heap) heap pos)
    as (heap' & pos' & -> & Hpos' & Hlen' & Hperm); [done|lia|].
  simpl.
  destruct (siftdown_spec (<[pos' := newitem]> heap') pos pos')
    as (heap'' & -> & Hperm'').
  { by rewrite length_insert. }
  exists heap''. split; [done|].
  by rewrite Hperm'', Hperm, list_insert_id.
Qed.

(** [heappop] fails exactly on the empty heap; otherwise it removes the
    returned item. *)
Lemma heappop_spec (heap : list T) :
  heap ≠ [] ->
  exists item heap',
    heappop lt heap = Ok (item, heap') /\ item :: heap' ≡ₚ heap.
Proof.
  intros Hne. unfold heappop.
  destruct (last heap) as [lastelt|] eqn:Hlast.
  2:{ apply last_None in Hlast. done. }
  apply last_Some in Hlast as [rest ->].
  rewrite length_app. simpl.
  replace (length rest + 1 - 1) with (length rest) by lia.
  rewrite take_app_length.
  destruct rest as [|returnitem rest].
  { eexists _, _. split; done. }
  destruct (siftup_spec (<[0 := lastelt]> (returnitem :: rest)) 0)
    as (heap' & -> & Hperm).
  { simpl. lia. }
  simpl. eexists _, _. split; [done|].
  rewrite Hperm. simpl.
  f_equiv. apply Permutation_cons_append.
Qed.

End HeapqProps.

End HeapqProps.

(** ** Properties of dictionaries *)

Module DictProps.

Import Dict.

Section DictProps.
Context {K V : Type} `{EqDecision K}.
Implicit Types (d : dict K V) (k : K) (v : V).

Lemma get_None d k : get k d = None <-> k ∉ keys d.
Proof.
  unfold keys. induction d as [|[k' v'] d IH]; simpl.
  - split; [intros _; apply not_elem_of_nil|done].
  - rewrite not_elem_of_cons. case_decide as Hk; simpl.
    + split; [done|]. intros [Hne _]. done.
    + rewrite IH. split; [by split|by intros [_ ?]].
Qed.

Lemma get_Some_elem_of d k v : get k d = Some v -> (k, v) ∈ d.
Proof.
  induction d as [|[k' v'] d IH]; simpl; [done|].
  case_decide; intros; simplify_eq; [left|right; auto].
Qed.

Lemma elem_of_get d k v : NoDup (keys d) -> (k, v) ∈ d -> get k d = Some v.
Proof.
  unfold keys. induction d as [|[k' v'] d IH]; simpl.
  - intros _ Hin. by apply elem_of_nil in Hin.
  - rewrite NoDup_cons, elem_of_cons. intros [Hk' Hnd] [Heq|Hin].
    + simplify_eq. by rewrite decide_True.
    + case_decide; [|by auto]. subst. exfalso. apply Hk'.
      apply list_elem_of_fmap. by exists (k', v).
Qed.

(** Assigning to a new key appends an item. *)
Lemma set_fresh d k v : k ∉ keys d -> set k v d = d ++ [(k, v)].
Proof.
  unfold keys. induction d as [|[k' v'] d IH]; simpl; [done|].
  rewrite not_elem_of_cons. intros [Hne Hnin].
  rewrite decide_False by done. by rewrite IH.
Qed.

(** Assigning to a present key keeps the keys and their order. *)
Lemma keys_set_present d k v : k ∈ keys d -> keys (set k v d) = keys d.
Proof.
  unfold keys. induction d as [|[k' v'] d IH]; simpl.
  - intros Hin. by apply elem_of_nil in Hin.
  - rewrite elem_of_cons. case_decide; [done|].
    intros [?|Hin]; [done|]. simpl. f_equal. by apply IH.
Qed.

Lemma keys_set d k v :
  keys (set k v d) = if decide (k ∈ keys d) then keys d else keys d ++ [k].
Proof.
  case_decide.
  - by apply keys_set_present.
  - rewrite set_fresh by done. unfold keys. by rewrite fmap_app.
Qed.

Lemma NoDup_keys_set d k v : NoDup (keys d) -> NoDup (keys (set k v d)).
Proof.
  intros Hnd. rewrite keys_set. case_decide; [done|].
  apply NoDup_app. split_and!; [done| |apply NoDup_singleton].
  intros x Hx ->%list_elem_of_singleton. done.
Qed.

Lemma elem_of_keys_set d k k' v :
  k' ∈ keys (set k v d) <-> k' = k \/ k' ∈ keys d.
Proof.
  rewrite keys_set. case_decide.
  - split; [by right|]. by intros [->|?].
  - rewrite elem_of_app, list_elem_of_singleton. tauto.
Qed.

Lemma get_set_eq d k v : get k (set k v d) = Some v.
Proof.
  induction d as [|[k' v'] d IH]; simpl.
  - by rewrite decide_True.
  - case_decide; simpl; [subst; by rewrite decide_True|].
    by rewrite decide_False.
Qed.

End DictProps.

End DictProps.

(** ** Properties of the Huffman codec *)

Module HuffmanProps.

Import HuffmanCompressor HuffmanSpec.

(** *** Bytes and bit strings *)

Lemma binario_app s1 s2 : binario (s1 ++ s2) <-> binario s1 /\ binario s2.
Proof. apply Forall_app. Qed.

Lemma binario_replicate n : binario (replicate n "0"%char).
Proof. apply Forall_replicate. by left. Qed.

(** A group of 8 binary digits parses to a byte whose [format(_, '08b')] is
    the group again and whose bit [7 - j] is the digit at position [j]
    (most significant bit first). *)
Lemma byte_of_bits s :
  length s = 8%nat -> binario s ->
  exists n,
    int_base2 s = Ok n /\ as_byte n = Ok n /\ format_08b n = s
    /\ forall j, (j < 8)%nat ->
         Z.testbit n (7 - Z.of_nat j) = bool_decide (s !! j = Some "1"%char).
Proof.
  unfold binario. intros Hlen Hbin.
  do 8 (destruct s as [|? s]; [done|]). destruct s; [|done].
  repeat match goal with
         | H : Forall _ (_ :: _) |- _ => apply Forall_cons in H as [[-> | ->] H]
         end;
    (eexists; split_and!; [vm_compute; reflexivity..|]);
    intros j Hj; do 8 (destruct j as [|j]; [vm_compute; reflexivity|]); lia.
Qed.


Lemma bin_digits_ne p : bin_digits p ≠ [].
Proof. destruct p; simpl; [intros [_ ?]%app_eq_nil..|]; done. Qed.

Lemma format_08b_ne n : format_08b n ≠ [].
Proof.
  destruct n as [|p|p]; simpl; [done| |done].
  intros [_ ?]%app_eq_nil. by apply (bin_digits_ne p).
Qed.

(** *** Splitting a padded bit string into groups of 8 *)

Lemma range8_mul m : range8 (8 * m) = (fun k => (8 * k)%nat) <$> seq 0 m.
Proof.
  unfold range8. do 2 f_equal.
  replace (8 * m + 7)%nat with (7 + m * 8)%nat by lia.
  rewrite Nat.div_add by done. reflexivity.
Qed.

Lemma slices_concat {X} m (s : list X) :
  length s = (8 * m)%nat ->
  concat (slice8 s <$> ((fun k => (8 * k)%nat) <$> seq 0 m)) = s.
Proof.
  revert s. induction m as [|m IH]; intros s Hlen.
  { by destruct s. }
  rewrite <- (take_drop 8 s) at 2.
  rewrite <- (IH (drop 8 s)) by (rewrite length_drop; lia).
  simpl. f_equal. rewrite <- !list_fmap_compose, <- fmap_S_seq, <- list_fmap_compose.
  f_equal. apply list_fmap_ext. intros _ k _. simpl. unfold slice8.
  rewrite drop_drop. do 2 f_equal. lia.
Qed.

Lemma slice8_length {X} m (s : list X) k :
  length s = (8 * m)%nat -> (k < m)%nat -> length (slice8 s (8 * k)) = 8%nat.
Proof.
  intros Hlen Hk. unfold slice8. rewrite length_take, length_drop. lia.
Qed.

Lemma slice8_binario s i : binario s -> binario (slice8 s i).
Proof.
  intros Hs. unfold slice8, binario.
  apply Forall_take, Forall_drop, Hs.
Qed.

(** Packing groups of 8 binary digits never fails, and formatting the
    packed bytes gives the groups back. *)
Lemma empaquetar_spec bits indices acc :
  binario bits ->
  (forall i, i ∈ indices -> length (slice8 bits i) = 8%nat) ->
  exists bytes,
    empaquetar bits indices acc = Ok (acc ++ bytes)
    /\ format_08b <$> bytes = slice8 bits <$> indices
    /\ int_base2 <$> (slice8 bits <$> indices) = Ok <$> bytes
    /\ Forall (fun n => 0 <= n < 256) bytes.
Proof.
  intros Hbin. revert acc.
  induction indices as [|i indices IH]; intros acc Hlen; simpl.
  { exists []. by rewrite app_nil_r. }
  destruct (byte_of_bits (slice8 bits i)) as (n & Hint & Hbyte & Hfmt & _).
  { apply Hlen. left. }
  { by apply slice8_binario. }
  rewrite Hint. simpl. rewrite Hbyte. simpl.
  destruct (IH (acc ++ [n])) as (bytes & -> & Hfmts & Hints & Hrange).
  { intros j Hj. apply Hlen. by right. }
  exists (n :: bytes). rewrite <- app_assoc. simpl.
  split_and!; [done|f_equal; [done|exact Hfmts]|f_equal; exact Hints|].
  constructor; [|done]. unfold as_byte in Hbyte. by case_decide.
Qed.


Section HuffmanProps.
Context {A : Type} `{EqDecision A}.
Implicit Types (nodo : NodoHuffman A) (texto : list A) (self : t A).
Implicit Types (tabla : Dict.dict A (list ascii)) (heap : list (NodoHuffman A)).

(** *** Trees *)

Lemma fst_prod_map_id {B C} (g : B -> C) (l : list (A * B)) :
  (prod_map id g <$> l).*1 = l.*1.
Proof. induction l as [|[??] l IH]; simpl; by f_equal. Qed.

Lemma snd_prod_map_id {B C} (g : B -> C) (l : list (A * B)) :
  (prod_map id g <$> l).*2 = g <$> l.*2.
Proof. induction l as [|[??] l IH]; simpl; by f_equal. Qed.

Lemma prod_map_id_compose {B C D} (g : C -> D) (h : B -> C) (l : list (A * B)) :
  prod_map id g <$> (prod_map id h <$> l) = prod_map id (g ∘ h) <$> l.
Proof. induction l as [|[??] l IH]; simpl; by f_equal. Qed.

(** Induction on a node, with the hypothesis for each child that is
    present. *)
Lemma NodoHuffman_induction (P : NodoHuffman A -> Prop) :
  (forall s f izq der,
      (forall hijo, izq = Some hijo -> P hijo) ->
      (forall hijo, der = Some hijo -> P hijo) ->
      P (Nodo s f izq der)) ->
  forall nodo, P nodo.
Proof.
  intros Hstep. fix IH 1. intros [s f izq der]. apply Hstep.
  - destruct izq as [hijo|]; intros ? [= <-]. apply IH.
  - destruct der as [hijo|]; intros ? [= <-]. apply IH.
Qed.

Lemma hojas_binario nodo : Forall (fun sc => binario sc.2) (hojas nodo).
Proof.
  induction nodo as [s f izq der IHi IHd] using NodoHuffman_induction.
  simpl. destruct s as [s|].
  { repeat constructor. }
  apply Forall_app. split.
  - destruct izq as [hijo|]; [|constructor].
    apply Forall_fmap. eapply Forall_impl; [by apply IHi|].
    intros [? c] Hc. simpl in *. constructor; [by left|done].
  - destruct der as [hijo|]; [|constructor].
    apply Forall_fmap. eapply Forall_impl; [by apply IHd|].
    intros [? c] Hc. simpl in *. constructor; [by right|done].
Qed.

Lemma prefix_free_cons_fmap b (codes : list (list ascii)) :
  prefix_free codes -> prefix_free (cons b <$> codes).
Proof.
  intros Hpf i j c1 c2 Hne Hi Hj Hpre.
  apply list_lookup_fmap_Some in Hi as (c1' & -> & Hi).
  apply list_lookup_fmap_Some in Hj as (c2' & -> & Hj).
  apply (Hpf i j c1' c2' Hne Hi Hj).
  destruct Hpre as [k Hk]. exists k. by simplify_eq/=.
Qed.

Lemma prefix_free_app (codes0 codes1 : list (list ascii)) :
  prefix_free codes0 -> prefix_free codes1 ->
  (forall c0 c1, c0 ∈ codes0 -> c1 ∈ codes1 ->
                 ¬ c0 `prefix_of` c1 /\ ¬ c1 `prefix_of` c0) ->
  prefix_free (codes0 ++ codes1).
Proof.
  intros Hpf0 Hpf1 Hcross i j c1 c2 Hne Hi Hj.
  apply lookup_app_Some in Hi as [Hi|[Hi1 Hi]];
    apply lookup_app_Some in Hj as [Hj|[Hj1 Hj]].
  - by apply (Hpf0 i j).
  - refine (proj1 (Hcross c1 c2 _ _)); by eapply list_elem_of_lookup_2.
  - refine (proj2 (Hcross c2 c1 _ _)); by eapply list_elem_of_lookup_2.
  - apply (Hpf1 (i - length codes0)%nat (j - length codes0)%nat); [lia|done..].
Qed.

(** The paths to the leaves of any tree are prefix-free. *)
Lemma hojas_prefix_free nodo : prefix_free (hojas nodo).*2.
Proof.
  induction nodo as [s f izq der IHi IHd] using NodoHuffman_induction.
  simpl. destruct s as [s|].
  { intros [|i] [|j] c1 c2 Hne Hi Hj; simplify_eq/=. }
  rewrite fmap_app. apply prefix_free_app.
  - destruct izq as [hijo|]; [|by intros [|?] ? ? ? ? ?].
    rewrite snd_prod_map_id. apply prefix_free_cons_fmap. by apply IHi.
  - destruct der as [hijo|]; [|by intros [|?] ? ? ? ? ?].
    rewrite snd_prod_map_id. apply prefix_free_cons_fmap. by apply IHd.
  - intros c0 c1 H0 H1.
    destruct izq as [hi|]; [|by apply elem_of_nil in H0].
    destruct der as [hd|]; [|by apply elem_of_nil in H1].
    rewrite snd_prod_map_id in H0, H1.
    apply list_elem_of_fmap in H0 as (? & -> & _).
    apply list_elem_of_fmap in H1 as (? & -> & _).
    simpl. split; intros [k Hk]; simplify_eq/=.
Qed.

(** From a node whose symbols are distinct and new to the dictionary,
    [generar_codigos] appends the leaves with their paths. *)
Lemma generar_codigos_desde_hojas nodo :
  forall codigo_actual tabla,
    NoDup (hojas nodo).*1 ->
    (forall s, s ∈ (hojas nodo).*1 -> s ∉ Dict.keys tabla) ->
    generar_codigos_desde nodo codigo_actual tabla
    = tabla ++ (prod_map id (app codigo_actual) <$> hojas nodo).
Proof.
  induction nodo as [s f izq der IHi IHd] using NodoHuffman_induction.
  intros pre tabla Hnd Hnew. simpl in *. destruct s as [s|].
  { simpl. rewrite app_nil_r. apply DictProps.set_fresh, Hnew. left. }
  rewrite fmap_app in Hnd. apply NoDup_app in Hnd as (Hndi & Hdisj & Hndd).
  rewrite fmap_app, app_assoc.
  assert (Hizq :
    match izq with
    | Some hijo => generar_codigos_desde hijo (pre ++ ["0"%char]) tabla
    | None => tabla
    end = tabla ++ (prod_map id (app pre) <$>
            match izq with
            | Some hijo => prod_map id (cons "0"%char) <$> hojas hijo
            | None => []
            end)).
  { destruct izq as [hijo|]; [|by rewrite app_nil_r].
    rewrite fst_prod_map_id in Hndi.
    rewrite (IHi hijo eq_refl).
    - f_equal. rewrite prod_map_id_compose. apply list_fmap_ext.
      intros _ [? ?] _. simpl. by rewrite <- app_assoc.
    - done.
    - intros s Hs. apply Hnew. rewrite fmap_app, elem_of_app. left.
      by rewrite fst_prod_map_id. }
  rewrite Hizq. clear Hizq.
  destruct der as [hijo|]; [|by rewrite app_nil_r].
  rewrite fst_prod_map_id in Hndd.
  rewrite (IHd hijo eq_refl).
  - f_equal. rewrite prod_map_id_compose. apply list_fmap_ext.
    intros _ [? ?] _. simpl. by rewrite <- app_assoc.
  - done.
  - intros s Hs. unfold Dict.keys. rewrite fmap_app, not_elem_of_app. split.
    + apply Hnew. rewrite fmap_app, elem_of_app. right.
      by rewrite fst_prod_map_id.
    + rewrite fst_prod_map_id. intros Hs'. apply (Hdisj s Hs').
      by rewrite fst_prod_map_id.
Qed.

(** *** Frequencies *)

Lemma Counter_fold_keys texto (d : Dict.dict A Z) :
  NoDup (Dict.keys d) ->
  let d' := fold_left
              (fun d c => Dict.set c (default 0 (Dict.get c d) + 1) d) texto d in
  NoDup (Dict.keys d')
  /\ forall s, s ∈ Dict.keys d' <-> s ∈ Dict.keys d \/ s ∈ texto.
Proof.
  revert d. induction texto as [|c texto IH]; intros d Hnd; simpl.
  { split; [done|]. intros s. rewrite elem_of_nil. tauto. }
  destruct (IH (Dict.set c (default 0 (Dict.get c d) + 1) d)) as [Hnd' Hkeys].
  { by apply DictProps.NoDup_keys_set. }
  split; [done|]. intros s. rewrite Hkeys, DictProps.elem_of_keys_set, elem_of_cons.
  tauto.
Qed.

(** The keys of [Counter(texto)] are the symbols of the text, each once. *)
Lemma Counter_keys texto :
  NoDup (Dict.keys (Counter texto))
  /\ forall s, s ∈ Dict.keys (Counter texto) <-> s ∈ texto.
Proof.
  destruct (Counter_fold_keys texto []) as [Hnd Hkeys]; [constructor|].
  split; [done|]. intros s. rewrite Hkeys. unfold Dict.keys. simpl.
  rewrite elem_of_nil. tauto.
Qed.

Lemma Counter_replicate_fold n (a : A) k :
  fold_left (fun d c => Dict.set c (default 0 (Dict.get c d) + 1) d)
            (replicate n a) [(a, k)]
  = [(a, k + Z.of_nat n)].
Proof.
  revert k. induction n as [|n IH]; intros k; simpl.
  { by rewrite Z.add_0_r. }
  rewrite !decide_True by done. simpl. rewrite IH. do 2 f_equal. lia.
Qed.

(** A text made of one symbol repeated has a single frequency. *)
Lemma Counter_replicate n (a : A) :
  Counter (replicate (S n) a) = [(a, Z.of_nat (S n))].
Proof.
  unfold Counter. simpl replicate. simpl fold_left.
  rewrite Counter_replicate_fold. do 2 f_equal. lia.
Qed.

(** *** Building the tree *)

Lemma crear_nodos_spec (items : list (A * Z)) heap :
  exists heap',
    crear_nodos items heap = Ok heap'
    /\ heap' ≡ₚ ((fun '(s, f) => NodoHuffman_init (Some s) f) <$> items) ++ heap.
Proof.
  revert heap. induction items as [|[s f] items IH]; intros heap; simpl.
  { by exists heap. }
  destruct (HeapqProps.heappush_spec NodoHuffman_lt heap
              (NodoHuffman_init (Some s) f)) as (heap1 & -> & Hperm1).
  simpl. destruct (IH heap1) as (heap' & -> & Hperm').
  exists heap'. split; [done|].
  rewrite Hperm', Hperm1. by rewrite <- Permutation_middle.
Qed.

Lemma simbolos_heap_hojas_iniciales (items : list (A * Z)) :
  simbolos_heap ((fun '(s, f) => NodoHuffman_init (Some s) f) <$> items)
  = Dict.keys items.
Proof.
  unfold simbolos_heap, Dict.keys.
  induction items as [|[s f] items IH]; simpl; [done|]. by f_equal.
Qed.

Lemma unir_menores_spec heap :
  (1 < length heap)%nat ->
  exists heap',
    unir_menores heap = Ok heap'
    /\ S (length heap') = length heap
    /\ simbolos_heap heap' ≡ₚ simbolos_heap heap.
Proof.
  intros Hlen. unfold unir_menores.
  destruct (HeapqProps.heappop_spec NodoHuffman_lt heap)
    as (nodo1 & heap1 & -> & Hperm1).
  { intros ->. simpl in Hlen. lia. }
  simpl.
  destruct (HeapqProps.heappop_spec NodoHuffman_lt heap1)
    as (nodo2 & heap2 & -> & Hperm2).
  { intros ->. apply Permutation_length in Hperm1. simpl in *. lia. }
  simpl.
  destruct (HeapqProps.heappush_spec NodoHuffman_lt heap2
    {| simbolo := None; frecuencia := frecuencia nodo1 + frecuencia nodo2;
       izquierda := Some nodo1; derecha := Some nodo2 |})
    as (heap' & -> & Hperm').
  exists heap'. split; [done|]. split.
  - apply Permutation_length in Hperm1, Hperm2, Hperm'. simpl in *. lia.
  - unfold simbolos_heap. rewrite Hperm', <- Hperm1, <- Hperm2. simpl.
    rewrite fmap_app, !fst_prod_map_id. by rewrite <- app_assoc.
Qed.

Lemma construir_loop_spec fuel heap :
  heap ≠ [] -> (length heap <= S fuel)%nat ->
  exists raiz,
    construir_loop fuel heap = Ok [raiz]
    /\ (hojas raiz).*1 ≡ₚ simbolos_heap heap.
Proof.
  revert heap. induction fuel as [|fuel IH]; intros heap Hne Hlen.
  - destruct heap as [|raiz [|??]]; [done| |simpl in Hlen; lia].
    exists raiz. split; [done|]. unfold simbolos_heap. simpl.
    by rewrite app_nil_r.
  - simpl. case_decide as Hgt.
    + destruct (unir_menores_spec heap Hgt) as (heap' & -> & Hlen' & Hperm).
      simpl. destruct (IH heap') as (raiz & -> & Hraiz).
      { intros ->. simpl in *. lia. }
      { lia. }
      exists raiz. split; [done|]. by rewrite Hraiz.
    + destruct heap as [|raiz [|??]]; [done| |simpl in Hgt; lia].
      exists raiz. split; [done|]. unfold simbolos_heap. simpl.
      by rewrite app_nil_r.
Qed.

(** On a non-empty text [construir_arbol] returns a tree whose leaves carry
    the symbols of the text, each once. *)
Lemma construir_arbol_spec self texto :
  texto ≠ [] ->
  exists raiz,
    construir_arbol self texto
    = Ok (Some raiz, {| codigos := codigos self; arbol_raiz := Some raiz |})
    /\ (hojas raiz).*1 ≡ₚ Dict.keys (Counter texto).
Proof.
  intros Hne. unfold construir_arbol.
  destruct texto as [|c texto]; [done|].
  destruct (crear_nodos_spec (Counter (c :: texto)) []) as (heap & -> & Hperm).
  simpl. rewrite app_nil_r in Hperm.
  destruct (construir_loop_spec (length heap) heap) as (raiz & -> & Hraiz).
  { intros ->. apply Permutation_nil_l in Hperm.
    symmetry in Hperm. apply fmap_nil_inv in Hperm.
    destruct (Counter_keys (c :: texto)) as [_ Hk].
    specialize (Hk c). rewrite Hperm in Hk.
    unfold Dict.keys in Hk. simpl in Hk. rewrite elem_of_nil in Hk.
    apply Hk. left. }
  { lia. }
  exists raiz. split; [done|].
  rewrite Hraiz, <- simbolos_heap_hojas_iniciales.
  unfold simbolos_heap. by rewrite Hperm.
Qed.

(** *** The code table *)

Lemma prod_map_id_app_nil (l : list (A * list ascii)) :
  prod_map id (app []) <$> l = l.
Proof. induction l as [|[??] l IH]; simpl; by f_equal. Qed.

(** On a non-empty text, building the tree and generating the codes gives
    the table of the leaves of the tree with their paths; its keys are the
    symbols of the text, each once. *)
Lemma tabla_spec self texto :
  texto ≠ [] ->
  exists raiz,
    let self1 := {| codigos := codigos self; arbol_raiz := Some raiz |} in
    let self2 := {| codigos := hojas raiz; arbol_raiz := Some raiz |} in
    construir_arbol self texto = Ok (Some raiz, self1)
    /\ generar_codigos self1 None [] = Ok (hojas raiz, self2)
    /\ NoDup (Dict.keys (hojas raiz))
    /\ (forall s, s ∈ Dict.keys (hojas raiz) <-> s ∈ texto).
Proof.
  intros Hne. destruct (construir_arbol_spec self texto Hne) as (raiz & Hc & Hk).
  destruct (Counter_keys texto) as [Hnd Hin].
  exists raiz. simpl. unfold Dict.keys in *.
  assert (Hnd' : NoDup (hojas raiz).*1) by by rewrite Hk.
  split_and!; [done| |done|].
  - unfold generar_codigos. simpl.
    rewrite generar_codigos_desde_hojas; [|done|].
    + by rewrite prod_map_id_app_nil.
    + intros s _. apply not_elem_of_nil.
  - intros s. by rewrite Hk.
Qed.

Lemma codificar_spec tabla texto bits :
  (forall s, s ∈ texto -> s ∈ Dict.keys tabla) ->
  codificar tabla texto bits = Ok (bits ++ bits_de tabla texto).
Proof.
  revert bits. induction texto as [|c texto IH]; intros bits Hin; simpl.
  { unfold bits_de. simpl. by rewrite app_nil_r. }
  unfold Dict.getitem.
  destruct (Dict.get c tabla) as [codigo|] eqn:Hget.
  - simpl. rewrite IH by (intros; apply Hin; by right).
    unfold bits_de. simpl. by rewrite Hget, app_assoc.
  - apply DictProps.get_None in Hget. destruct Hget. apply Hin. left.
Qed.

Lemma bits_de_binario tabla texto :
  Forall (fun sc => binario sc.2) tabla -> binario (bits_de tabla texto).
Proof.
  intros Htabla. unfold bits_de, binario.
  apply Forall_concat, Forall_fmap, Forall_forall. intros s _. simpl.
  destruct (Dict.get s tabla) as [c|] eqn:Hget; [|constructor].
  apply DictProps.get_Some_elem_of in Hget.
  by apply (proj1 (Forall_forall _ _) Htabla (s, c)).
Qed.

(** *** Padding *)

Lemma padding_de_spec len :
  (padding_de len <= 7)%nat
  /\ ((len + padding_de len) mod 8 = 0)%nat
  /\ (padding_de len = 0%nat <-> (len mod 8 = 0)%nat).
Proof.
  unfold padding_de.
  pose proof (Nat.mod_upper_bound len 8 ltac:(done)) as Hlt.
  pose proof (Nat.div_mod_eq len 8) as Hdm.
  case_decide as Hp.
  - split_and!; [lia| |lia].
    replace (len mod 8)%nat with 0%nat in Hdm by lia.
    rewrite Nat.add_0_r. rewrite Hdm, Nat.add_0_r, Nat.mul_comm.
    apply Nat.Div0.mod_mul.
  - split_and!; [lia| |lia].
    replace (len + (8 - len mod 8))%nat with ((len `div` 8 + 1) * 8)%nat by lia.
    apply Nat.Div0.mod_mul.
Qed.

(** *** Compression *)

(** What [comprimir] returns on a non-empty text, step by step. *)
Lemma comprimir_spec self texto :
  texto ≠ [] ->
  exists raiz payload,
    let tabla := hojas raiz in
    let bits := bits_de tabla texto in
    let padding := padding_de (length bits) in
    let bits_rellenos := bits ++ replicate padding "0"%char in
    comprimir self texto
    = Ok (Z.of_nat padding :: payload, tabla,
          {| codigos := tabla; arbol_raiz := Some raiz |})
    /\ construir_arbol self texto
       = Ok (Some raiz, {| codigos := codigos self; arbol_raiz := Some raiz |})
    /\ NoDup (Dict.keys tabla)
    /\ (forall s, s ∈ Dict.keys tabla <-> s ∈ texto)
    /\ format_08b <$> payload
       = slice8 bits_rellenos <$> range8 (length bits_rellenos)
    /\ int_base2 <$> (slice8 bits_rellenos <$> range8 (length bits_rellenos))
       = Ok <$> payload
    /\ concat (format_08b <$> payload) = bits_rellenos.
Proof.
  intros Hne.
  destruct (tabla_spec self texto Hne) as (raiz & Hc & Hg & Hnd & Hin).
  exists raiz. cbv zeta.
  set (tabla := hojas raiz) in *.
  set (bits := bits_de tabla texto).
  set (bits_rellenos := bits ++ replicate (padding_de (length bits)) "0"%char).
  destruct (padding_de_spec (length bits)) as (Hle & Hmod & _).
  assert (Hlen : exists m, length bits_rellenos = (8 * m)%nat).
  { exists ((length bits + padding_de (length bits)) / 8)%nat.
    unfold bits_rellenos. rewrite length_app, length_replicate.
    pose proof (Nat.div_mod_eq (length bits + padding_de (length bits)) 8). lia. }
  destruct Hlen as [m Hm].
  assert (Hbin : binario bits_rellenos).
  { apply binario_app. split; [|apply binario_replicate].
    apply bits_de_binario, hojas_binario. }
  destruct (empaquetar_spec bits_rellenos (range8 (length bits_rellenos)) [])
    as (payload & Hpack & Hfmt & Hint & _); [done| |].
  { intros i Hi. rewrite Hm, range8_mul in Hi.
    apply list_elem_of_fmap in Hi as (k & -> & Hk).
    apply elem_of_seq in Hk. apply (slice8_length m); [done|lia]. }
  exists payload. split_and!; [|done..|].
  - unfold comprimir. destruct texto as [|c texto]; [done|].
    rewrite Hc, bind_Ok. cbv beta iota. rewrite Hg, bind_Ok. cbv beta iota.
    cbn [codigos]. rewrite codificar_spec by (intros s Hs; by apply Hin).
    rewrite bind_Ok. cbv beta zeta. rewrite app_nil_l. fold tabla bits.
    change (if decide ((8 - length bits `mod` 8)%nat = 8%nat)
            then 0%nat else (8 - length bits `mod` 8)%nat)
      with (padding_de (length bits)).
    fold bits_rellenos. by rewrite Hpack.
  - rewrite Hfmt, Hm, range8_mul. by apply slices_concat.
Qed.

Lemma lookup_slice8 {X} (s : list X) i j :
  (j < 8)%nat -> slice8 s i !! j = s !! (i + j)%nat.
Proof.
  intros Hj. unfold slice8. by rewrite lookup_take_lt, lookup_drop.
Qed.

(** [C6] On every non-empty text [comprimir] returns a blob whose first
    byte is the padding count, between 0 and 7 (0 exactly when the code
    bits already fill whole bytes, the computed 8 being replaced by 0);
    the bit length of the rest is a multiple of 8; and the rest is the
    concatenation of the codes of the symbols followed by that many zero
    bits, eight bits per byte with the first bit in the most significant
    position. *)
Theorem comprimir_padding_invariant self texto :
  texto ≠ [] ->
  exists padding payload tabla self',
    comprimir self texto = Ok (padding :: payload, tabla, self')
    /\ (forall s, s ∈ texto -> is_Some (Dict.get s tabla))
    /\ 0 <= padding <= 7
    /\ (padding = 0 <-> (length (bits_de tabla texto) mod 8 = 0)%nat)
    /\ ((length (bits_de tabla texto) + Z.to_nat padding) mod 8 = 0)%nat
    /\ (8 * length payload
        = length (bits_de tabla texto) + Z.to_nat padding)%nat
    /\ concat (format_08b <$> payload)
       = bits_de tabla texto ++ replicate (Z.to_nat padding) "0"%char
    /\ (forall k byte j,
          payload !! k = Some byte -> (j < 8)%nat ->
          0 <= byte < 256
          /\ Z.testbit byte (7 - Z.of_nat j)
             = bool_decide
                 ((bits_de tabla texto ++ replicate (Z.to_nat padding) "0"%char)
                    !! (8 * k + j)%nat = Some "1"%char)).
Proof.
  intros Hne.
  destruct (comprimir_spec self texto Hne)
    as (raiz & payload & Hcomp & _ & Hnd & Hin & Hfmt & Hint & Hcat).
  set (tabla := hojas raiz) in *.
  set (bits := bits_de tabla texto) in *.
  destruct (padding_de_spec (length bits)) as (Hle & Hmod & Hzero).
  set (bits_rellenos := bits ++ replicate (padding_de (length bits)) "0"%char) in *.
  assert (Hlen : length bits_rellenos = (length bits + padding_de (length bits))%nat).
  { unfold bits_rellenos. by rewrite length_app, length_replicate. }
  assert (Hm : length bits_rellenos
               = (8 * ((length bits + padding_de (length bits)) / 8))%nat).
  { rewrite Hlen.
    pose proof (Nat.div_mod_eq (length bits + padding_de (length bits)) 8). lia. }
  assert (Hpayload : length payload
                     = ((length bits + padding_de (length bits)) / 8)%nat).
  { rewrite <- (length_fmap format_08b), Hfmt, Hm, range8_mul.
    by rewrite !length_fmap, length_seq. }
  exists (Z.of_nat (padding_de (length bits))), payload, tabla.
  eexists. rewrite Nat2Z.id.
  split; [exact Hcomp|]. split.
  { intros s Hs. apply Hin in Hs.
    destruct (Dict.get s tabla) eqn:Hget; [done|].
    by apply DictProps.get_None in Hget. }
  split; [lia|]. split.
  { split; [intros Hz; apply Hzero; lia|intros Hz%Hzero; lia]. } split; [exact Hmod|].
  split; [by rewrite Hpayload, <- Hm, Hlen|]. split; [exact Hcat|].
  { intros k byte j Hk Hj.
    assert (Hkm : (k < (length bits + padding_de (length bits)) / 8)%nat).
    { rewrite <- Hpayload. by eapply lookup_lt_Some. }
    assert (Hbin : binario bits_rellenos).
    { apply binario_app. split; [|apply binario_replicate].
      apply bits_de_binario, hojas_binario. }
    destruct (byte_of_bits (slice8 bits_rellenos (8 * k)))
      as (n & Hn & Hbyte & _ & Hbits).
    { by eapply slice8_length. }
    { by apply slice8_binario. }
    assert (n = byte) as ->.
    { apply (f_equal (fun l => l !! k)) in Hint.
      rewrite Hm, range8_mul, !list_lookup_fmap, Hk in Hint.
      rewrite lookup_seq_lt in Hint by done. cbn -[Nat.mul slice8] in Hint.
      rewrite Hn in Hint. by simplify_eq. }
    split.
    + unfold as_byte in Hbyte. by case_decide.
    + rewrite (Hbits j Hj). by rewrite lookup_slice8. }
Qed.

(** *** Prefix-freedom of the generated table *)

Lemma prefix_free_NoDup (codes : list (list ascii)) :
  prefix_free codes -> NoDup codes.
Proof.
  intros Hpf. apply NoDup_alt. intros i j c Hi Hj.
  destruct (decide (i = j)) as [|Hne]; [done|].
  by destruct (Hpf i j c c Hne Hi Hj).
Qed.

Lemma hojas_tabla_prefix_free nodo :
  NoDup (Dict.keys (hojas nodo)) -> tabla_prefix_free (hojas nodo).
Proof.
  intros Hnd s1 s2 c1 c2 Hne H1 H2.
  apply DictProps.get_Some_elem_of, list_elem_of_lookup in H1 as [i Hi].
  apply DictProps.get_Some_elem_of, list_elem_of_lookup in H2 as [j Hj].
  assert (Hij : i ≠ j) by (intros ->; by simplify_eq).
  assert (Hci : (hojas nodo).*2 !! i = Some c1) by by rewrite list_lookup_fmap, Hi.
  assert (Hcj : (hojas nodo).*2 !! j = Some c2) by by rewrite list_lookup_fmap, Hj.
  split.
  - exact (hojas_prefix_free nodo i j c1 c2 Hij Hci Hcj).
  - exact (hojas_prefix_free nodo j i c2 c1 (not_eq_sym Hij) Hcj Hci).
Qed.

(** [C7] For a text with at least two distinct symbols, [construir_arbol]
    followed by [generar_codigos] gives a table that has a code for
    exactly the symbols of the text and that is prefix-free: for two
    distinct symbols, neither code is a prefix of the other. *)
Theorem generar_codigos_prefix_free self texto :
  dos_simbolos texto ->
  exists raiz self1 tabla self2,
    construir_arbol self texto = Ok (Some raiz, self1)
    /\ generar_codigos self1 None [] = Ok (tabla, self2)
    /\ (forall s, s ∈ texto <-> is_Some (Dict.get s tabla))
    /\ tabla_prefix_free tabla.
Proof.
  intros (a & b & Ha & Hb & Hab).
  assert (Hne : texto ≠ []) by (intros ->; by apply elem_of_nil in Ha).
  destruct (tabla_spec self texto Hne) as (raiz & Hc & Hg & Hnd & Hin).
  eexists raiz, _, (hojas raiz), _. split_and!; [done|done| |].
  - intros s. rewrite <- Hin. split.
    + intros Hs. destruct (Dict.get s (hojas raiz)) eqn:Hget; [done|].
      by apply DictProps.get_None in Hget.
    + intros [c Hget]. apply DictProps.get_Some_elem_of in Hget.
      apply list_elem_of_fmap. by exists (s, c).
  - by apply hojas_tabla_prefix_free.
Qed.

(** *** Decompression *)

Lemma invertir_fold tabla (inv : Dict.dict (list ascii) A) :
  NoDup (Dict.keys inv ++ tabla.*2) ->
  fold_left (fun inv '(k, v) => Dict.set v k inv) tabla inv
  = inv ++ (prod_swap <$> tabla).
Proof.
  revert inv. induction tabla as [|[s c] tabla IH]; intros inv Hnd; simpl.
  { by rewrite app_nil_r. }
  simpl in Hnd. apply NoDup_app in Hnd as (Hinv & Hdisj & Htabla).
  apply NoDup_cons in Htabla as [Hc Htabla].
  rewrite DictProps.set_fresh.
  2:{ intros Hin. apply (Hdisj c Hin). left. }
  rewrite IH.
  - by rewrite <- app_assoc.
  - unfold Dict.keys. rewrite fmap_app. simpl. rewrite <- app_assoc. simpl.
    apply NoDup_app. split_and!; [done| |by constructor].
    intros x Hx Hx'. apply (Hdisj x Hx). done.
Qed.

(** With pairwise distinct codes, the inverse dictionary maps each code
    back to its symbol. *)
Lemma invertir_get tabla c :
  NoDup tabla.*2 ->
  Dict.get c (invertir tabla) = None /\ c ∉ tabla.*2
  \/ exists s, Dict.get c (invertir tabla) = Some s /\ (s, c) ∈ tabla.
Proof.
  intros Hnd. unfold invertir. rewrite invertir_fold by done. simpl.
  destruct (Dict.get c (prod_swap <$> tabla)) as [s|] eqn:Hget.
  - right. exists s. split; [done|].
    apply DictProps.get_Some_elem_of, list_elem_of_fmap in Hget
      as ([s' c'] & [= -> ->] & Hin). done.
  - left. split; [done|]. apply DictProps.get_None in Hget.
    unfold Dict.keys in Hget. by rewrite <- list_fmap_compose in Hget.
Qed.

Lemma invertir_get_Some tabla s c :
  NoDup tabla.*2 -> (s, c) ∈ tabla -> Dict.get c (invertir tabla) = Some s.
Proof.
  intros Hnd Hin. unfold invertir. rewrite invertir_fold by done. simpl.
  apply DictProps.elem_of_get.
  - unfold Dict.keys. by rewrite <- list_fmap_compose.
  - apply list_elem_of_fmap. by exists (s, c).
Qed.

(** Reading the bits of one code, from the state in which [pre] has been
    accumulated, emits the symbol of that code and nothing else. *)
Lemma decodificar_codigo tabla s c :
  prefix_free tabla.*2 -> (s, c) ∈ tabla ->
  forall suf pre out,
    c = pre ++ suf -> suf ≠ [] ->
    fold_left (decodificar_bit (invertir tabla)) suf (out, pre)
    = (out ++ [s], []).
Proof.
  intros Hpf Hin.
  pose proof (prefix_free_NoDup _ Hpf) as Hnd.
  induction suf as [|b suf IH]; intros pre out Hc Hne; [done|].
  simpl. destruct suf as [|b' suf].
  - subst c. by rewrite (invertir_get_Some _ s) by done.
  - destruct (invertir_get tabla (pre ++ [b]) Hnd) as [[-> _]|(s' & _ & Hin')].
    + apply IH; [|done]. by rewrite <- app_assoc.
    + exfalso.
      apply list_elem_of_lookup in Hin as [i Hi].
      apply list_elem_of_lookup in Hin' as [j Hj].
      assert (i ≠ j).
      { intros ->. rewrite Hi in Hj. simplify_eq. }
      apply (Hpf j i (pre ++ [b]) c); [done| | |].
      * by rewrite list_lookup_fmap, Hj.
      * by rewrite list_lookup_fmap, Hi.
      * exists (b' :: suf). by rewrite Hc, <- app_assoc.
Qed.

(** Decoding the concatenated codes of a text gives the text back. *)
Lemma decodificar_texto tabla texto :
  prefix_free tabla.*2 -> NoDup (Dict.keys tabla) ->
  [] ∉ tabla.*2 ->
  (forall s, s ∈ texto -> s ∈ Dict.keys tabla) ->
  forall out,
    fold_left (decodificar_bit (invertir tabla)) (bits_de tabla texto) (out, [])
    = (out ++ texto, []).
Proof.
  intros Hpf Hnd Hnil. induction texto as [|s texto IH]; intros Hin out.
  { simpl. by rewrite app_nil_r. }
  unfold bits_de. simpl. rewrite fold_left_app.
  destruct (Dict.get s tabla) as [c|] eqn:Hget.
  2:{ apply DictProps.get_None in Hget. destruct Hget. apply Hin. left. }
  apply DictProps.get_Some_elem_of in Hget. simpl.
  rewrite (decodificar_codigo tabla s c Hpf Hget c [] out); [|done|].
  - fold (bits_de tabla texto). rewrite IH by (intros; apply Hin; by right).
    by rewrite <- app_assoc.
  - intros ->. apply Hnil. apply list_elem_of_fmap. by exists (s, []).
Qed.

Lemma descomprimir_cons padding payload tabla :
  tabla ≠ [] ->
  descomprimir (padding :: payload) tabla
  = let bits := concat (format_08b <$> payload) in
    let bits := if decide (0 < padding)
                then take (length bits - Z.to_nat padding) bits else bits in
    (fold_left (decodificar_bit (invertir tabla)) bits ([], [])).1.
Proof. by destruct tabla. Qed.

(** With at least two entries, a prefix-free table has no empty code. *)
Lemma prefix_free_no_vacio (codes : list (list ascii)) :
  prefix_free codes -> (1 < length codes)%nat -> [] ∉ codes.
Proof.
  intros Hpf Hlen [i Hi]%list_elem_of_lookup.
  set (j := if decide (i = 0%nat) then 1%nat else 0%nat).
  assert (Hij : i ≠ j) by (unfold j; case_decide; lia).
  destruct (lookup_lt_is_Some_2 codes j) as [c Hc].
  { unfold j; case_decide; lia. }
  apply (Hpf i j [] c Hij Hi Hc). apply prefix_nil.
Qed.

(** Compression followed by decompression gives back a text that has at
    least two distinct symbols. *)
Lemma comprimir_descomprimir_dos_simbolos self texto :
  dos_simbolos texto ->
  exists blob tabla self',
    comprimir self texto = Ok (blob, tabla, self')
    /\ descomprimir blob tabla = texto.
Proof.
  intros (a & b & Ha & Hb & Hab).
  assert (Hne : texto ≠ []) by (intros ->; by apply elem_of_nil in Ha).
  destruct (comprimir_spec self texto Hne)
    as (raiz & payload & Hcomp & _ & Hnd & Hin & _ & _ & Hcat).
  eexists _, _, _. split; [exact Hcomp|].
  set (tabla := hojas raiz) in *.
  set (bits := bits_de tabla texto) in *.
  assert (Hlen : (1 < length tabla)%nat).
  { apply Hin in Ha, Hb. unfold Dict.keys in Ha, Hb.
    apply list_elem_of_fmap in Ha as ([? ca] & -> & Ha).
    apply list_elem_of_fmap in Hb as ([? cb] & -> & Hb).
    destruct tabla as [|x [|y tabla']]; simpl; [| |lia].
    - by apply elem_of_nil in Ha.
    - apply list_elem_of_singleton in Ha, Hb. by simplify_eq. }
  rewrite descomprimir_cons by (intros Heq; rewrite Heq in Hlen; simpl in Hlen; lia).
  cbv zeta. rewrite Hcat.
  assert (Hbits :
    (if decide (0 < Z.of_nat (padding_de (length bits)))
     then take (length (bits ++ replicate (padding_de (length bits)) "0"%char)
                - Z.to_nat (Z.of_nat (padding_de (length bits))))
               (bits ++ replicate (padding_de (length bits)) "0"%char)
     else bits ++ replicate (padding_de (length bits)) "0"%char) = bits).
  { case_decide as Hp.
    - rewrite length_app, length_replicate, Nat2Z.id.
      replace (length bits + padding_de (length bits) - padding_de (length bits))%nat
        with (length bits) by lia.
      by rewrite take_app_length.
    - replace (padding_de (length bits)) with 0%nat by lia.
      simpl. by rewrite app_nil_r. }
  rewrite Hbits. unfold bits.
  rewrite decodificar_texto; [done| |done| |].
  - apply hojas_prefix_free.
  - apply prefix_free_no_vacio; [apply hojas_prefix_free|].
    by rewrite length_fmap.
  - intros s Hs. by apply Hin.
Qed.

(** *** Texts with a single symbol *)

Lemma un_simbolo_replicate texto a :
  un_simbolo texto a -> exists n, texto = replicate (S n) a.
Proof.
  intros [Hne Hall]. exists (pred (length texto)).
  replace (S (pred (length texto))) with (length texto)
    by (destruct texto; [done|simpl; lia]).
  symmetry. apply replicate_as_Forall. split; [done|].
  apply Forall_forall. intros s Hs. symmetry. by apply Hall.
Qed.

Lemma un_simbolo_o_dos texto :
  texto ≠ [] -> dos_simbolos texto \/ exists a, un_simbolo texto a.
Proof.
  intros Hne. destruct texto as [|a texto]; [done|].
  destruct (decide (Forall (eq a) texto)) as [Hall|Hnot].
  - right. exists a. split; [done|]. intros s [->|Hs]%elem_of_cons; [done|].
    symmetry. by apply (proj1 (Forall_forall _ _) Hall).
  - left. apply not_Forall_Exists in Hnot; [|apply _].
    apply Exists_exists in Hnot as (b & Hb & Hab).
    exists a, b. split_and!; [left|by right|done].
Qed.

Lemma un_simbolo_no_dos texto a : un_simbolo texto a -> ¬ dos_simbolos texto.
Proof.
  intros [_ Hall] (x & y & Hx & Hy & Hxy).
  apply Hall in Hx, Hy. congruence.
Qed.

(** The tree of a single-symbol text is one leaf. *)
Lemma construir_arbol_un_simbolo self texto a :
  un_simbolo texto a ->
  let raiz := NodoHuffman_init (Some a) (Z.of_nat (length texto)) in
  construir_arbol self texto
  = Ok (Some raiz, {| codigos := codigos self; arbol_raiz := Some raiz |}).
Proof.
  intros Hun. destruct (un_simbolo_replicate _ _ Hun) as [n ->].
  rewrite length_replicate. cbv zeta.
  unfold construir_arbol. change (replicate (S n) a) with (a :: replicate n a).
  cbv iota. change (a :: replicate n a) with (replicate (S n) a).
  rewrite Counter_replicate.
  destruct (crear_nodos_spec [(a, Z.of_nat (S n))] []) as (heap & -> & Hperm).
  simpl in Hperm. apply Permutation_singleton_r in Hperm as ->.
  reflexivity.
Qed.

(** What the codec does on a single-symbol text: the only code is the empty
    string, no bit is emitted, the blob is the single header byte 0, and
    decompression returns the empty text. *)
Lemma comprimir_un_simbolo self texto a :
  un_simbolo texto a ->
  let raiz := NodoHuffman_init (Some a) (Z.of_nat (length texto)) in
  let self1 := {| codigos := codigos self; arbol_raiz := Some raiz |} in
  let self2 := {| codigos := [(a, [])]; arbol_raiz := Some raiz |} in
  construir_arbol self texto = Ok (Some raiz, self1)
  /\ generar_codigos self1 None [] = Ok ([(a, [])], self2)
  /\ bits_de [(a, [])] texto = []
  /\ comprimir self texto = Ok ([0], [(a, [])], self2)
  /\ descomprimir [0] [(a, [])] = [].
Proof.
  intros Hun. pose proof (construir_arbol_un_simbolo self texto a Hun) as Hc.
  cbv zeta in *. set (raiz := NodoHuffman_init _ _) in *.
  destruct (comprimir_spec self texto (proj1 Hun))
    as (raiz' & payload & Hcomp & Hc' & _ & _ & _ & _ & Hcat).
  rewrite Hc in Hc'. injection Hc' as <-.
  change (hojas raiz) with [(a, @nil ascii)] in *.
  assert (Hbits : bits_de [(a, [])] texto = []).
  { destruct Hun as [_ Hall]. unfold bits_de. clear -Hall.
    induction texto as [|s texto IH]; [done|]. simpl.
    rewrite (Hall s) by left. rewrite decide_True by done. simpl.
    apply IH. intros. apply Hall. by right. }
  rewrite Hbits in *. simpl in Hcat, Hcomp.
  assert (payload = []) as ->.
  { destruct payload as [|n payload]; [done|]. simpl in Hcat.
    apply app_eq_nil in Hcat as [Hn _]. by apply format_08b_ne in Hn. }
  split_and!; done.
Qed.

(** [C1] On a non-empty text, decompressing the output of [comprimir]
    gives the text back when the text has at least two distinct symbols;
    when all its symbols are equal, it gives the empty text, not the
    text. *)
Theorem comprimir_descomprimir_roundtrip self texto :
  texto ≠ [] ->
  exists blob tabla self',
    comprimir self texto = Ok (blob, tabla, self')
    /\ (dos_simbolos texto -> descomprimir blob tabla = texto)
    /\ (¬ dos_simbolos texto ->
        descomprimir blob tabla = [] /\ descomprimir blob tabla ≠ texto).
Proof.
  intros Hne. destruct (un_simbolo_o_dos texto Hne) as [Hdos|[a Hun]].
  - destruct (comprimir_descomprimir_dos_simbolos self texto Hdos)
      as (blob & tabla & self' & Hcomp & Hrt).
    exists blob, tabla, self'. split_and!; [done|done|]. by intros [].
  - destruct (comprimir_un_simbolo self texto a Hun) as (_ & _ & _ & Hcomp & Hd).
    eexists _, _, _. split; [exact Hcomp|]. rewrite Hd. split.
    + intros Hdos. by destruct (un_simbolo_no_dos _ _ Hun).
    + intros _. split; [done|]. by apply not_eq_sym.
Qed.

(** [C3] For a non-empty text whose symbols are all [a], the root of the
    tree is a leaf, and [generar_codigos] gives [a] the empty code, not
    the code "0": compression emits no bit at all. *)
Theorem generar_codigos_un_simbolo self texto a :
  un_simbolo texto a ->
  exists raiz self1 tabla self2,
    construir_arbol self texto = Ok (Some raiz, self1)
    /\ simbolo raiz = Some a
    /\ izquierda raiz = None /\ derecha raiz = None
    /\ generar_codigos self1 None [] = Ok (tabla, self2)
    /\ Dict.get a tabla = Some []
    /\ Dict.get a tabla ≠ Some (str "0")
    /\ length (bits_de tabla texto) = 0%nat.
Proof.
  intros Hun.
  destruct (comprimir_un_simbolo self texto a Hun) as (Hc & Hg & Hbits & _).
  eexists _, _, _, _. split; [exact Hc|].
  split_and!; [done|done|done|exact Hg| | |by rewrite Hbits].
  - simpl. by rewrite decide_True.
  - simpl. by rewrite decide_True.
Qed.

(** [C10] For a non-empty text whose symbols are all [a], [comprimir]
    returns the one-byte blob [0] and the table that maps [a] to the empty
    string, and [descomprimir] on that blob and table returns the empty
    string. *)
Theorem comprimir_un_simbolo_blob self texto a :
  un_simbolo texto a ->
  exists self',
    comprimir self texto = Ok ([0], [(a, [])], self')
    /\ descomprimir [0] [(a, @nil ascii)] = [].
Proof.
  intros Hun.
  destruct (comprimir_un_simbolo self texto a Hun) as (_ & _ & _ & Hcomp & Hd).
  eexists. split; [exact Hcomp|exact Hd].
Qed.

End HuffmanProps.

(** *** Instances on concrete texts *)

Lemma comprimir_padding_invariant_witness :
  str "AAAB" ≠ []
  /\ exists padding payload tabla self',
      comprimir init (str "AAAB") = Ok (padding :: payload, tabla, self')
      /\ 0 <= padding <= 7.
Proof.
  split; [done|].
  destruct (comprimir_padding_invariant (A:=ascii) init (str "AAAB") ltac:(done))
    as (padding & payload & tabla & self' & Hc & _ & Hp & _).
  by exists padding, payload, tabla, self'.
Defined.


Lemma un_simbolo_AAA : un_simbolo (str "AAA") "A"%char.
Proof.
  split; [done|]. intros s Hs. simpl in Hs.
  repeat (apply elem_of_cons in Hs as [->|Hs]; [done|]).
  by apply elem_of_nil in Hs.
Defined.

Lemma dos_simbolos_AAAB : dos_simbolos (str "AAAB").
Proof.
  exists "A"%char, "B"%char. split; [|split; [|done]].
  - apply list_elem_of_here.
  - do 3 apply list_elem_of_further. apply list_elem_of_here.
Defined.

Lemma comprimir_descomprimir_roundtrip_witness :
  str "AAA" ≠ []
  /\ exists blob tabla self',
      comprimir init (str "AAA") = Ok (blob, tabla, self')
      /\ (dos_simbolos (str "AAA") -> descomprimir blob tabla = str "AAA")
      /\ (¬ dos_simbolos (str "AAA") ->
          descomprimir blob tabla = []
          /\ descomprimir blob tabla ≠ str "AAA").
Proof.
  split; [done|].
  apply (comprimir_descomprimir_roundtrip (A:=ascii) init (str "AAA")). done.
Defined.

Lemma generar_codigos_un_simbolo_witness :
  un_simbolo (str "AAA") "A"%char
  /\ exists raiz self1 tabla self2,
      construir_arbol init (str "AAA") = Ok (Some raiz, self1)
      /\ simbolo raiz = Some "A"%char
      /\ izquierda raiz = None /\ derecha raiz = None
      /\ generar_codigos self1 None [] = Ok (tabla, self2)
      /\ Dict.get "A"%char tabla = Some []
      /\ Dict.get "A"%char tabla ≠ Some (str "0")
      /\ length (bits_de tabla (str "AAA")) = 0%nat.
Proof.
  split; [exact un_simbolo_AAA|].
  exact (generar_codigos_un_simbolo init (str "AAA") "A"%char un_simbolo_AAA).
Defined.

Lemma comprimir_un_simbolo_blob_witness :
  un_simbolo (str "AAA") "A"%char
  /\ exists self',
      comprimir init (str "AAA") = Ok ([0], [("A"%char, [])], self')
      /\ descomprimir [0] [("A"%char, @nil ascii)] = [].
Proof.
  split; [exact un_simbolo_AAA|].
  exact (comprimir_un_simbolo_blob init (str "AAA") "A"%char un_simbolo_AAA).
Defined.

Lemma generar_codigos_prefix_free_witness :
  dos_simbolos (str "AAAB")
  /\ exists raiz self1 tabla self2,
      construir_arbol init (str "AAAB") = Ok (Some raiz, self1)
      /\ generar_codigos self1 None [] = Ok (tabla, self2)
      /\ (forall s, s ∈ str "AAAB" <-> is_Some (Dict.get s tabla))
      /\ tabla_prefix_free tabla.
Proof.
  split; [exact dos_simbolos_AAAB|].
  exact (generar_codigos_prefix_free init (str "AAAB") dos_simbolos_AAAB).
Defined.

Lemma construir_arbol_AAAB :
  construir_arbol init (str "AAAB")
  = Ok (Some raiz_AAAB, {| codigos := []; arbol_raiz := Some raiz_AAAB |}).
Proof. vm_compute. reflexivity. Qed.

Lemma generar_codigos_AAAB :
  generar_codigos {| codigos := []; arbol_raiz := Some raiz_AAAB |} None []
  = Ok ([("B"%char, str "0"); ("A"%char, str "1")],
        {| codigos := [("B"%char, str "0"); ("A"%char, str "1")];
           arbol_raiz := Some raiz_AAAB |}).
Proof. vm_compute. reflexivity. Qed.

(** [C8] For "AAAB" the frequencies are A:3, B:1; the tree is one internal
    node whose left child is the leaf B (popped first, being the least
    frequent) and whose right child is the leaf A; the codes are B = "0"
    and A = "1"; the blob is the header byte 4 (four zero bits of padding)
    followed by the byte 0b11100000; and decompressing it returns
    "AAAB". *)
Theorem AAAB_scenario :
  Counter (str "AAAB") = [("A"%char, 3); ("B"%char, 1)]
  /\ construir_arbol init (str "AAAB")
     = Ok (Some raiz_AAAB, {| codigos := []; arbol_raiz := Some raiz_AAAB |})
  /\ generar_codigos {| codigos := []; arbol_raiz := Some raiz_AAAB |} None []
     = Ok ([("B"%char, str "0"); ("A"%char, str "1")],
           {| codigos := [("B"%char, str "0"); ("A"%char, str "1")];
              arbol_raiz := Some raiz_AAAB |})
  /\ comprimir init (str "AAAB")
     = Ok ([4; 224], [("B"%char, str "0"); ("A"%char, str "1")],
           {| codigos := [("B"%char, str "0"); ("A"%char, str "1")];
              arbol_raiz := Some raiz_AAAB |})
  /\ descomprimir [4; 224] [("B"%char, str "0"); ("A"%char, str "1")]
     = str "AAAB".
Proof. split_and!; vm_compute; reflexivity. Qed.

(** The codes of "AAAB" are not A = "0", B = "1". *)
Lemma AAAB_codes_counterexample :
  ¬ (exists raiz self1 tabla self2,
        construir_arbol init (str "AAAB") = Ok (Some raiz, self1)
        /\ generar_codigos self1 None [] = Ok (tabla, self2)
        /\ Dict.get "A"%char tabla = Some (str "0")
        /\ Dict.get "B"%char tabla = Some (str "1")).
Proof.
  intros (raiz & self1 & tabla & self2 & Hc & Hg & HA & HB).
  rewrite construir_arbol_AAAB in Hc. injection Hc as <- <-.
  rewrite generar_codigos_AAAB in Hg. injection Hg as <- <-.
  vm_compute in HA. discriminate HA.
Qed.

End HuffmanProps.

(** ** Properties of the toy RSA *)

Module RSAProps.

Import RSA.

(** *** Euclid's algorithm and the modular inverse *)

Lemma calcular_mcd_gcd a b : 0 <= a -> 0 <= b -> calcular_mcd a b = Z.gcd a b.
Proof.
  funelim (calcular_mcd a b); intros Ha Hb'.
  - subst. rewrite Z.gcd_0_r. lia.
  - rewrite H; [|lia|by apply Z.mod_pos_bound; lia].
    rewrite (Z.gcd_comm b (a mod b)), Z.gcd_mod by lia. apply Z.gcd_comm.
Qed.

Lemma son_coprimos_spec a b :
  0 <= a -> 0 <= b -> son_coprimos a b = true <-> Z.gcd a b = 1.
Proof.
  intros Ha Hb. unfold son_coprimos.
  rewrite bool_decide_eq_true. by rewrite calcular_mcd_gcd.
Qed.

(** [extended_gcd] returns Bezout coefficients of its result. *)
Lemma extended_gcd_bezout a b g x y :
  extended_gcd a b = (g, x, y) -> a * x + b * y = g.
Proof.
  revert g x y. funelim (extended_gcd a b); intros g x y Hres.
  - simplify_eq. lia.
  - destruct (extended_gcd (b mod a) a) as [[g1 x1] y1] eqn:Hrec.
    simplify_eq. specialize (H _ _ _ eq_refl).
    pose proof (Z.div_mod b a Ha). nia.
Qed.

Lemma extended_gcd_gcd a b g x y :
  0 <= a -> 0 <= b -> extended_gcd a b = (g, x, y) -> g = Z.gcd a b.
Proof.
  revert g x y. funelim (extended_gcd a b); intros g x y Ha' Hb Hres.
  - simplify_eq. rewrite Z.gcd_0_l. lia.
  - destruct (extended_gcd (b mod a) a) as [[g1 x1] y1] eqn:Hrec.
    simplify_eq.
    rewrite (H _ _ _ ltac:(apply Z.mod_pos_bound; lia) Ha' eq_refl).
    apply Z.gcd_mod. lia.
Qed.

(** For a nonnegative [e] coprime with a positive [phi], [modular_inverse]
    returns the inverse of [e] modulo [phi], reduced to [0, phi). *)
Lemma modular_inverse_spec e phi :
  0 <= e -> 0 < phi -> Z.gcd e phi = 1 ->
  exists d,
    modular_inverse e phi = Ok d /\ 0 <= d < phi /\ (e * d) mod phi = 1 mod phi.
Proof.
  intros He Hphi Hgcd. unfold modular_inverse.
  destruct (extended_gcd e phi) as [[g x] y] eqn:Hext.
  pose proof (extended_gcd_gcd e phi g x y He (Z.lt_le_incl _ _ Hphi) Hext) as Hg.
  pose proof (extended_gcd_bezout _ _ _ _ _ Hext) as Hbez.
  rewrite Hgcd in Hg. subst g.
  rewrite decide_False by (intros Hne; by apply Hne).
  rewrite decide_False by lia.
  eexists. split; [done|]. split; [apply Z.mod_pos_bound; lia|].
  rewrite Z.mul_mod_idemp_r by lia.
  replace (e * x) with (1 + (- y) * phi) by lia.
  by rewrite Z.mod_add by lia.
Qed.

(** *** The search for the public exponent *)

Lemma buscar_e_spec fuel e phi e' :
  buscar_e fuel e phi = Ok e' ->
  son_coprimos e' phi = true /\ exists k, 0 <= k /\ e' = e + 2 * k.
Proof.
  revert e. induction fuel as [|fuel IH]; intros e; simpl;
    destruct (son_coprimos e phi) eqn:Hco; intros Hres; simplify_eq.
  - split; [done|]. exists 0. lia.
  - split; [done|]. exists 0. lia.
  - destruct (IH _ Hres) as (Hco' & k & Hk & ->).
    split; [done|]. exists (k + 1). lia.
Qed.

(** The search ends as soon as a candidate within reach of the fuel is
    coprime with [phi]. *)
Lemma buscar_e_total fuel e phi k :
  (k <= fuel)%nat -> son_coprimos (e + 2 * Z.of_nat k) phi = true ->
  exists e', buscar_e fuel e phi = Ok e'.
Proof.
  revert e k. induction fuel as [|fuel IH]; intros e k Hk Hco; simpl;
    destruct (son_coprimos e phi) eqn:Hco'; eauto.
  - replace k with 0%nat in Hco by lia.
    rewrite Z.mul_0_r, Z.add_0_r in Hco. congruence.
  - destruct k as [|k].
    { rewrite Z.mul_0_r, Z.add_0_r in Hco. congruence. }
    apply (IH (e + 2) k); [lia|].
    by replace (e + 2 + 2 * Z.of_nat k) with (e + 2 * Z.of_nat (S k)) by lia.
Qed.

(** *** Arithmetic of two distinct primes *)

Lemma primo_impar p : Z.prime p -> 3 <= p -> (2 | p - 1).
Proof.
  intros [_ Hp] H3.
  assert (Hnd : ¬ (2 | p)) by (apply Hp; lia).
  exists (p / 2). pose proof (Z.div_mod p 2 ltac:(lia)) as Hdm.
  pose proof (Z.mod_pos_bound p 2 ltac:(lia)) as Hb.
  destruct (decide (p mod 2 = 0)) as [H0|H1]; [|lia].
  destruct Hnd. exists (p / 2). lia.
Qed.

Lemma totiente_primos p q :
  Z.prime p -> Z.prime q -> p ≠ q ->
  2 <= funcion_totiente_euler p q /\ (2 | funcion_totiente_euler p q).
Proof.
  intros Hp Hq Hne. unfold funcion_totiente_euler.
  pose proof (Z.prime_ge_2 _ Hp). pose proof (Z.prime_ge_2 _ Hq).
  split; [nia|].
  destruct (decide (3 <= p)).
  - apply Z.divide_mul_l. by apply primo_impar.
  - apply Z.divide_mul_r. apply primo_impar; [done|lia].
Qed.

Lemma primos_distintos_coprimos p q :
  Z.prime p -> Z.prime q -> p ≠ q -> Z.gcd p q = 1.
Proof.
  intros Hp Hq Hne. apply Z.coprime_prime_l; [done|].
  intros Hdiv. by apply Z.divide_prime_prime in Hdiv.
Qed.

(** Fermat's little theorem, iterated: exponents congruent to 1 modulo
    [p - 1] act as the identity modulo [p]. *)
Lemma fermat_iterado p a m :
  Z.prime p -> 0 <= m -> a ^ (1 + m * (p - 1)) mod p = a mod p.
Proof.
  intros Hp Hm. pose proof (Z.prime_ge_2 _ Hp).
  revert m Hm. apply natlike_ind.
  - by rewrite Z.mul_0_l, Z.add_0_r, Z.pow_1_r.
  - intros m Hm IH.
    replace (1 + Z.succ m * (p - 1)) with ((1 + m * (p - 1)) + (p - 1)) by lia.
    rewrite Z.pow_add_r by nia.
    rewrite Z.mul_mod, IH, <- Z.mul_mod by lia.
    replace (a * a ^ (p - 1)) with (a ^ p).
    + by apply ZmodInv.Z.fermat.
    + replace p with (1 + (p - 1)) at 1 by lia.
      rewrite Z.pow_add_r by lia. by rewrite Z.pow_1_r.
Qed.

(** The RSA identity for a modulus that is the product of two distinct
    primes. *)
Lemma rsa_identidad p q e d h :
  Z.prime p -> Z.prime q -> p ≠ q -> 0 <= e -> 0 <= d ->
  (e * d) mod ((p - 1) * (q - 1)) = 1 ->
  h ^ (d * e) mod (p * q) = h mod (p * q).
Proof.
  intros Hp Hq Hne He Hd Hed.
  pose proof (Z.prime_ge_2 _ Hp). pose proof (Z.prime_ge_2 _ Hq).
  set (phi := (p - 1) * (q - 1)) in *.
  assert (Hphi : 0 < phi) by (unfold phi; nia).
  pose proof (Z.div_mod (e * d) phi ltac:(lia)) as Hdm. rewrite Hed in Hdm.
  assert (Hk : 0 <= e * d / phi) by (apply Z.div_pos; nia).
  set (k := e * d / phi) in *.
  assert (Hexp : d * e = 1 + k * phi) by lia.
  rewrite Hexp. apply Z.cong_iff_0.
  assert (Hdivp : (p | h ^ (1 + k * phi) - h)).
  { apply Z.mod_divide; [lia|]. apply Z.cong_iff_0.
    replace (k * phi) with (k * (q - 1) * (p - 1)) by (unfold phi; lia).
    apply fermat_iterado; [done|nia]. }
  assert (Hdivq : (q | h ^ (1 + k * phi) - h)).
  { apply Z.mod_divide; [lia|]. apply Z.cong_iff_0.
    replace (k * phi) with (k * (p - 1) * (q - 1)) by (unfold phi; lia).
    apply fermat_iterado; [done|nia]. }
  apply Z.mod_divide; [nia|].
  destruct Hdivp as [t Ht]. rewrite Ht in Hdivq |- *.
  rewrite Z.mul_comm in Hdivq. apply (Z.gauss q p t) in Hdivq.
  - destruct Hdivq as [u ->]. exists u. lia.
  - by apply primos_distintos_coprimos.
Qed.

(** *** Key generation *)

(** The keys that [generar_claves] returns for two distinct primes. *)
Lemma generar_claves_spec fuel self p q pub priv st :
  Z.prime p -> Z.prime q -> p ≠ q ->
  generar_claves fuel self p q = Ok (pub, priv, st) ->
  exists e d,
    pub = (e, p * q) /\ priv = (d, p * q)
    /\ st = {| clave_publica := Some (e, p * q);
               clave_privada := Some (d, p * q);
               n := Some (p * q) |}
    /\ 17 <= e /\ 0 <= d
    /\ (e * d) mod ((p - 1) * (q - 1)) = 1.
Proof.
  intros Hp Hq Hne. unfold generar_claves.
  destruct (totiente_primos p q Hp Hq Hne) as [Hphi _].
  fold (funcion_totiente_euler p q).
  set (phi := funcion_totiente_euler p q) in *.
  destruct (buscar_e fuel 17 phi) as [e| |] eqn:He; [|done..].
  destruct (buscar_e_spec _ _ _ _ He) as (Hco & k & Hk & ->).
  apply son_coprimos_spec in Hco; [|lia..].
  destruct (modular_inverse_spec (17 + 2 * k) phi) as (d & Hd & Hrange & Hinv);
    [lia..|done|].
  simpl. rewrite Hd. simpl. intros [= <- <- <-].
  exists (17 + 2 * k), d. split_and!; [done..|lia|lia|].
  by rewrite Hinv, Z.mod_1_l by lia.
Qed.

(** For two distinct primes the search for [e] ends: [8 * phi + 1] is an
    odd candidate coprime with [phi], reached after [4 * phi - 8] turns. *)
Lemma generar_claves_total fuel self p q :
  Z.prime p -> Z.prime q -> p ≠ q ->
  (Z.to_nat (4 * funcion_totiente_euler p q) <= fuel)%nat ->
  exists pub priv st, generar_claves fuel self p q = Ok (pub, priv, st).
Proof.
  intros Hp Hq Hne Hfuel. unfold generar_claves.
  destruct (totiente_primos p q Hp Hq Hne) as [Hphi _].
  set (phi := funcion_totiente_euler p q) in *.
  destruct (buscar_e_total fuel 17 phi (Z.to_nat (4 * phi - 8))) as [e He].
  { lia. }
  { apply son_coprimos_spec; [lia..|].
    replace (17 + 2 * Z.of_nat (Z.to_nat (4 * phi - 8))) with (1 + 8 * phi) by lia.
    rewrite Z.gcd_comm, Z.gcd_add_mult_diag_r. apply Z.gcd_1_r. }
  rewrite He. simpl.
  destruct (buscar_e_spec _ _ _ _ He) as (Hco & k & Hk & ->).
  apply son_coprimos_spec in Hco; [|lia..].
  destruct (modular_inverse_spec (17 + 2 * k) phi) as (d & -> & _);
    [lia..|done|].
  simpl. eauto.
Qed.

(** *** Signing and verifying *)

Lemma pow3_nonneg base exp modulus :
  modulus ≠ 0 -> 0 <= exp -> pow3 base exp modulus = Ok (base ^ exp mod modulus).
Proof.
  intros Hm He. unfold pow3. by rewrite decide_False, decide_True by done.
Qed.

Section FirmaProps.
Variable int_base16 : list ascii -> option Z.

Local Abbreviation hash_num := (hash_num int_base16).
Local Abbreviation firmar_hash := (firmar_hash int_base16).
Local Abbreviation verificar_firma := (verificar_firma int_base16).

(** With the keys of two distinct primes, verifying [hash_value] against
    the signature of [hash_value'] compares the first hash with the second
    one reduced modulo [n]. *)
Lemma verificar_firmar fuel self p q pub priv st hash_value hash_value' h h' :
  Z.prime p -> Z.prime q -> p ≠ q ->
  generar_claves fuel self p q = Ok (pub, priv, st) ->
  hash_num hash_value = Ok h -> hash_num hash_value' = Ok h' ->
  exists firma,
    firmar_hash st hash_value' = Ok firma
    /\ 0 <= firma < p * q
    /\ verificar_firma st hash_value firma
       = Ok (bool_decide (h = h' mod (p * q))).
Proof.
  intros Hp Hq Hne Hgen Hh Hh'.
  destruct (generar_claves_spec _ _ _ _ _ _ _ Hp Hq Hne Hgen)
    as (e & d & -> & -> & -> & He & Hd & Hed).
  pose proof (Z.prime_ge_2 _ Hp). pose proof (Z.prime_ge_2 _ Hq).
  assert (Hn : 0 < p * q) by nia.
  unfold RSA.firmar_hash, RSA.verificar_firma. simpl.
  rewrite Hh, Hh'. simpl.
  rewrite !pow3_nonneg by lia. simpl.
  eexists. split; [done|]. split; [apply Z.mod_pos_bound; lia|].
  rewrite pow3_nonneg by lia. simpl.
  rewrite Z.mod_pow_l, <- Z.pow_mul_r by lia.
  by rewrite (rsa_identidad p q e d h') by (done || lia).
Qed.

(** [C2] For two distinct primes [p] and [q], [generar_claves] returns a
    keypair (as soon as the model is given [4 * phi] turns for the search
    of [e]), and for every hash value [h] with [0 <= h < n], given as an
    integer or as a hexadecimal string, verifying [h] against its own
    signature returns [True]. *)
Theorem firmar_verificar_correcto fuel self p q :
  Z.prime p -> Z.prime q -> p ≠ q ->
  ((Z.to_nat (4 * funcion_totiente_euler p q) <= fuel)%nat ->
   exists pub priv st, generar_claves fuel self p q = Ok (pub, priv, st))
  /\ forall pub priv st,
       generar_claves fuel self p q = Ok (pub, priv, st) ->
       forall hash_value h,
         hash_num hash_value = Ok h -> 0 <= h < p * q ->
         exists firma,
           firmar_hash st hash_value = Ok firma
           /\ verificar_firma st hash_value firma = Ok true.
Proof.
  intros Hp Hq Hne. split.
  - by apply generar_claves_total.
  - intros pub priv st Hgen hash_value h Hh Hrange.
    destruct (verificar_firmar fuel self p q pub priv st hash_value hash_value
                h h Hp Hq Hne Hgen Hh Hh) as (firma & Hf & _ & Hv).
    exists firma. split; [done|]. rewrite Hv. f_equal.
    apply bool_decide_eq_true. by rewrite Z.mod_small.
Qed.

(** [C4] With the keys of two distinct primes, verifying a hash [h]
    against the signature of a hash [h'] returns [False] whenever [h] is
    not [h'] reduced modulo [n]; this covers all distinct [h] and [h'] in
    [0, n). *)
Theorem verificar_firma_otro_hash fuel self p q pub priv st
    hash_value hash_value' h h' :
  Z.prime p -> Z.prime q -> p ≠ q ->
  generar_claves fuel self p q = Ok (pub, priv, st) ->
  hash_num hash_value = Ok h -> hash_num hash_value' = Ok h' ->
  h ≠ h' mod (p * q) \/ (0 <= h < p * q /\ 0 <= h' < p * q /\ h ≠ h') ->
  exists firma,
    firmar_hash st hash_value' = Ok firma
    /\ verificar_firma st hash_value firma = Ok false.
Proof.
  intros Hp Hq Hne Hgen Hh Hh' Hdist.
  destruct (verificar_firmar fuel self p q pub priv st hash_value hash_value'
              h h' Hp Hq Hne Hgen Hh Hh') as (firma & Hf & _ & Hv).
  exists firma. split; [done|]. rewrite Hv. f_equal.
  apply bool_decide_eq_false.
  destruct Hdist as [Hmod|(Hr & Hr' & Hd)]; [done|].
  by rewrite Z.mod_small.
Qed.

(** [C9] [firmar_hash] raises the "no private key" error exactly when the
    private key is not set, and [verificar_firma] raises the "no public
    key" error exactly when the public key is not set; with a key whose
    modulus is not zero and whose exponent is not negative, and a hash
    argument that is an integer or a valid hexadecimal string, neither
    operation fails. *)
Theorem errores_de_clave st hash_value :
  (firmar_hash st hash_value = Raise (ValueError "Clave privada no generada")
   <-> clave_privada st = None)
  /\ (forall firma,
        verificar_firma st hash_value firma
        = Raise (ValueError "Clave publica no disponible")
        <-> clave_publica st = None)
  /\ (forall h d n,
        hash_num hash_value = Ok h ->
        clave_privada st = Some (d, n) -> n ≠ 0 -> 0 <= d ->
        exists firma, firmar_hash st hash_value = Ok firma)
  /\ (forall h e n firma,
        hash_num hash_value = Ok h ->
        clave_publica st = Some (e, n) -> n ≠ 0 -> 0 <= e ->
        exists b, verificar_firma st hash_value firma = Ok b).
Proof.
  unfold RSA.firmar_hash, RSA.verificar_firma.
  split; [|split; [|split]].
  - destruct (clave_privada st) as [[d n]|]; [|done].
    split; [|done]. intros Herr. exfalso.
    unfold RSA.hash_num, pow3 in Herr.
    destruct hash_value as [h|s]; [|destruct (int_base16 s)]; simpl in Herr;
      repeat case_decide; simpl in Herr; discriminate Herr.
  - intros firma. destruct (clave_publica st) as [[e n]|]; [|done].
    split; [|done]. intros Herr. exfalso.
    unfold RSA.hash_num, pow3 in Herr.
    destruct hash_value as [h|s]; [|destruct (int_base16 s)]; simpl in Herr;
      repeat case_decide; simpl in Herr; discriminate Herr.
  - intros h d n Hh -> Hn Hd. rewrite Hh. simpl.
    rewrite pow3_nonneg by done. simpl. eauto.
  - intros h e n firma Hh -> Hn He. rewrite Hh. simpl.
    rewrite pow3_nonneg by done. simpl. eauto.
Qed.

End FirmaProps.

(** *** The default keys *)

(** Trial division. *)
Lemma primo_por_ensayo p :
  1 < p -> Forall (fun n => p mod n ≠ 0) (seqZ 2 (p - 2)) -> Z.prime p.
Proof.
  intros Hp Hall. split; [done|]. intros n Hn Hdiv.
  apply (proj1 (Forall_forall _ _) Hall n).
  - apply elem_of_seqZ. lia.
  - by apply Z.mod0_divide.
Qed.

Lemma primo_61 : Z.prime 61.
Proof.
  apply primo_por_ensayo; [done|].
  apply (bool_decide_unpack _). by vm_compute.
Defined.

Lemma primo_53 : Z.prime 53.
Proof.
  apply primo_por_ensayo; [done|].
  apply (bool_decide_unpack _). by vm_compute.
Defined.

Lemma generar_claves_61_53 :
  generar_claves 0 init 61 53 = Ok ((17, 3233), (2753, 3233), claves_61_53).
Proof. by vm_compute. Qed.

Lemma firmar_verificar_correcto_witness :
  Z.prime 61 /\ Z.prime 53 /\ 61 ≠ 53
  /\ generar_claves 0 init 61 53 = Ok ((17, 3233), (2753, 3233), claves_61_53)
  /\ hash_num int_hex_digits (HashInt 65) = Ok 65 /\ 0 <= 65 < 61 * 53
  /\ exists firma,
       firmar_hash int_hex_digits claves_61_53 (HashInt 65) = Ok firma
       /\ verificar_firma int_hex_digits claves_61_53 (HashInt 65) firma
          = Ok true.
Proof.
  split; [exact primo_61|]. split; [exact primo_53|]. split; [done|].
  split; [exact generar_claves_61_53|]. split; [done|]. split; [done|].
  refine (proj2 (firmar_verificar_correcto int_hex_digits 0 init 61 53
                   primo_61 primo_53 _) _ _ _ generar_claves_61_53
                (HashInt 65) 65 _ _); done.
Defined.

Lemma verificar_firma_otro_hash_witness :
  Z.prime 61 /\ Z.prime 53 /\ 61 ≠ 53
  /\ generar_claves 0 init 61 53 = Ok ((17, 3233), (2753, 3233), claves_61_53)
  /\ 65 ≠ 66 mod (61 * 53)
  /\ exists firma,
       firmar_hash int_hex_digits claves_61_53 (HashInt 66) = Ok firma
       /\ verificar_firma int_hex_digits claves_61_53 (HashInt 65) firma
          = Ok false.
Proof.
  split; [exact primo_61|]. split; [exact primo_53|]. split; [done|].
  split; [exact generar_claves_61_53|]. split; [done|].
  refine (verificar_firma_otro_hash int_hex_digits 0 init 61 53 _ _ _
            (HashInt 65) (HashInt 66) 65 66 primo_61 primo_53 _
            generar_claves_61_53 _ _ _); [done..|]. by left.
Defined.

(** Modular powers by repeated squaring, for the numbers of the examples. *)
Lemma pow3_small base exp modulus r :
  modulus ≠ 0 -> 0 <= exp -> Zpow_mod base exp modulus = r ->
  pow3 base exp modulus = Ok r.
Proof.
  intros Hm He <-. rewrite pow3_nonneg by done.
  by rewrite Zpow_mod_correct.
Qed.

(** With the default keys, the signature of [65 + n] verifies against the
    hash [65]. *)
Lemma verificar_firma_counterexample :
  generar_claves 0 init 61 53 = Ok ((17, 3233), (2753, 3233), claves_61_53)
  /\ 0 <= 65 /\ 0 <= 3298 /\ 65 ≠ 3298
  /\ firmar_hash int_hex_digits claves_61_53 (HashInt 3298) = Ok 588
  /\ verificar_firma int_hex_digits claves_61_53 (HashInt 65) 588 = Ok true.
Proof.
  split; [exact generar_claves_61_53|]. split; [done|]. split; [done|].
  split; [done|]. unfold firmar_hash, verificar_firma, claves_61_53.
  cbn [clave_privada clave_publica hash_num]. rewrite !bind_Ok.
  rewrite (pow3_small 3298 2753 3233 588) by (done || by vm_compute).
  rewrite (pow3_small 588 17 3233 65) by (done || by vm_compute).
  done.
Qed.

(** Keys with a zero modulus are set, and both operations fail on them. *)
Lemma errores_de_clave_counterexample :
  generar_claves 0 init 0 0 = Ok ((17, 0), (0, 0), claves_0_0)
  /\ clave_privada claves_0_0 ≠ None /\ clave_publica claves_0_0 ≠ None
  /\ firmar_hash int_hex_digits claves_0_0 (HashInt 5)
     = Raise (ValueError "pow() 3rd argument cannot be 0")
  /\ verificar_firma int_hex_digits claves_0_0 (HashInt 5) 1
     = Raise (ValueError "pow() 3rd argument cannot be 0").
Proof. split_and!; by vm_compute. Qed.

Lemma errores_de_clave_witness :
  hash_num int_hex_digits (HashStr (str "41")) = Ok 65
  /\ clave_privada claves_61_53 = Some (2753, 3233)
  /\ 3233 ≠ 0 /\ 0 <= 2753
  /\ exists firma,
       firmar_hash int_hex_digits claves_61_53 (HashStr (str "41")) = Ok firma.
Proof.
  split; [done|]. split; [done|]. split; [done|]. split; [done|].
  refine (proj1 (proj2 (proj2 (errores_de_clave int_hex_digits claves_61_53
                                  (HashStr (str "41"))))) 65 2753 3233 _ _ _ _);
    done.
Defined.

End RSAProps.

(** ** More on the FNV-1 hash: range, strings, hexadecimal form *)

Module FNV1HashMore.

Import FNV1Hash FNV1HashProps.

Lemma lxor_bound a b k :
  0 <= k -> 0 <= a < 2 ^ k -> 0 <= b < 2 ^ k -> 0 <= Z.lxor a b < 2 ^ k.
Proof.
  intros Hk Ha Hb. split; [apply Z.lxor_nonneg; lia|].
  destruct (decide (Z.lxor a b = 0)) as [->|Hnz]; [lia|].
  assert (0 <= Z.lxor a b) by (apply Z.lxor_nonneg; lia).
  apply Z.log2_lt_pow2; [lia|].
  pose proof (Z.log2_lxor a b ltac:(lia) ltac:(lia)) as Hlog.
  assert (Hlog2 : forall x, 0 <= x < 2 ^ k -> x ≠ 0 -> Z.log2 x < k).
  { intros x Hx Hx0. apply Z.log2_lt_pow2; lia. }
  destruct (decide (a = 0)) as [->|Ha0]; destruct (decide (b = 0)) as [->|Hb0].
  - done.
  - rewrite Z.lxor_0_l. by apply Hlog2.
  - rewrite Z.lxor_0_r. by apply Hlog2.
  - pose proof (Hlog2 a Ha Ha0). pose proof (Hlog2 b Hb Hb0). lia.
Qed.

Lemma lor_bound a b k :
  0 <= k -> 0 <= a < 2 ^ k -> 0 <= b < 2 ^ k -> 0 <= Z.lor a b < 2 ^ k.
Proof.
  intros Hk Ha Hb. split; [apply Z.lor_nonneg; lia|].
  destruct (decide (Z.lor a b = 0)) as [->|Hnz]; [lia|].
  assert (0 <= Z.lor a b) by (apply Z.lor_nonneg; lia).
  apply Z.log2_lt_pow2; [lia|].
  pose proof (Z.log2_lor a b ltac:(lia) ltac:(lia)) as Hlog.
  assert (Hlog2 : forall x, 0 <= x < 2 ^ k -> x ≠ 0 -> Z.log2 x < k).
  { intros x Hx Hx0. apply Z.log2_lt_pow2; lia. }
  destruct (decide (a = 0)) as [->|Ha0]; destruct (decide (b = 0)) as [->|Hb0].
  - done.
  - rewrite Z.lor_0_l. by apply Hlog2.
  - rewrite Z.lor_0_r. by apply Hlog2.
  - pose proof (Hlog2 a Ha Ha0). pose proof (Hlog2 b Hb Hb0). lia.
Qed.

Lemma init_bits bits self : init bits = Ok self -> 8 <= bits.
Proof.
  unfold init. repeat case_decide; intros E; inversion E; lia.
Qed.

Lemma init_offset bits self :
  init bits = Ok self -> 0 <= FNV_offset_basis self < 2 ^ bits.
Proof.
  unfold init. repeat case_decide; intros E; inversion E; subst; simpl; lia.
Qed.

Lemma step_en_rango bits self h b :
  init bits = Ok self -> 0 <= b < 256 -> 0 <= step self h b < 2 ^ bits.
Proof.
  intros Hinit Hb. unfold step. pose proof (init_bits _ _ Hinit).
  rewrite (init_mask _ _ Hinit), Z.land_ones by lia.
  apply lxor_bound; [lia|apply Z.mod_pos_bound; lia|].
  split; [lia|]. apply Z.lt_le_trans with (2 ^ 8); [lia|].
  apply Z.pow_le_mono_r; lia.
Qed.

Lemma hash_bytes_en_rango bits self bytes :
  init bits = Ok self -> Forall (fun b => 0 <= b < 256) bytes ->
  0 <= hash_bytes self bytes < 2 ^ bits.
Proof.
  intros Hinit Hbytes. unfold hash_bytes.
  pose proof (init_offset _ _ Hinit) as Hoff. revert Hoff.
  generalize (FNV_offset_basis self).
  induction Hbytes as [|b bytes Hb _ IH]; intros h Hh; simpl; [done|].
  apply IH. by apply (step_en_rango bits).
Qed.

(** The UTF-8 bytes of a code point are bytes. *)
Lemma utf8_char_bytes c bs :
  0 <= c < 0x110000 -> utf8_char c = Ok bs ->
  Forall (fun b => 0 <= b < 256) bs.
Proof.
  intros Hc. unfold utf8_char.
  assert (Hcont : forall x, 0 <= x -> 0 <= Z.lor 128 (Z.land x 63) < 256).
  { intros x Hx. apply (lor_bound _ _ 8); [lia|lia|].
    change 63 with (Z.ones 6). rewrite Z.land_ones by lia.
    pose proof (Z.mod_pos_bound x (2 ^ 6) ltac:(lia)). lia. }
  assert (Hshift : forall k, 0 <= k -> 0 <= Z.shiftr c k).
  { intros k Hk. apply Z.shiftr_nonneg. lia. }
  assert (Hlead : forall m k lim,
            0 <= k -> 0 <= m < 256 -> c < lim * 2 ^ k -> 0 < lim <= 256 ->
            0 <= Z.lor m (Z.shiftr c k) < 256).
  { intros m k lim Hk Hm Hlim Hl. apply (lor_bound _ _ 8); [lia|lia|].
    rewrite Z.shiftr_div_pow2 by lia. split; [apply Z.div_pos; lia|].
    apply Z.lt_le_trans with lim; [|lia].
    apply Z.div_lt_upper_bound; lia. }
  repeat case_decide; intros [= <-];
    repeat (apply Forall_cons; split); try apply Forall_nil;
    first [ lia
          | apply Hcont; by auto with zarith
          | apply (Hlead 192 6 32); lia
          | apply (Hlead 224 12 16); lia
          | apply (Hlead 240 18 8); lia ].
Qed.

Lemma encode_utf8_bytes s :
  Forall (fun c => 0 <= c < 0x110000 /\ ¬ 0xD800 <= c <= 0xDFFF) s ->
  exists bytes,
    encode_utf8 s = Ok bytes /\ Forall (fun b => 0 <= b < 256) bytes.
Proof.
  induction 1 as [|c s [Hc Hsur] _ (bytes & IH & Hbytes)]; simpl.
  { exists []. split; [done|constructor]. }
  assert (Hchar : exists bs, utf8_char c = Ok bs).
  { unfold utf8_char. repeat case_decide; eauto. by destruct Hsur. }
  destruct Hchar as [bs Hbs]. rewrite Hbs, IH. simpl.
  eexists. split; [done|]. apply Forall_app. split; [|done].
  by apply (utf8_char_bytes c).
Qed.

(** [X1] [hash] never fails on bytes, nor on a string without lone surrogates,
    and its result fits the width: [0 <= h < 2^bits]. *)
Theorem hash_en_rango bits self d :
  init bits = Ok self ->
  match d with
  | Bytes b => Forall (fun x => 0 <= x < 256) b
  | Str s => Forall (fun c => 0 <= c < 0x110000 /\ ¬ 0xD800 <= c <= 0xDFFF) s
  end ->
  exists h, hash self d = Ok h /\ 0 <= h < 2 ^ bits.
Proof.
  intros Hinit Hd. unfold hash. destruct d as [b|s].
  - simpl. eexists. split; [done|]. by apply hash_bytes_en_rango.
  - destruct (encode_utf8_bytes s Hd) as (bytes & -> & Hbytes). simpl.
    eexists. split; [done|]. by apply hash_bytes_en_rango.
Qed.

Lemma encode_utf8_surrogate s :
  Exists (fun c => 0xD800 <= c <= 0xDFFF) s ->
  encode_utf8 s = Raise UnicodeEncodeError.
Proof.
  intros Hs.
  assert (Hchar : forall c, utf8_char c ≠ OutOfFuel
                  /\ forall e, utf8_char c = Raise e -> e = UnicodeEncodeError).
  { intros c. unfold utf8_char. repeat case_decide; split; try done;
      by intros e [= <-]. }
  induction Hs as [c s Hc|c s _ IH]; simpl.
  - unfold utf8_char. rewrite !decide_False by lia.
    rewrite decide_True by lia. rewrite decide_True by lia. done.
  - destruct (Hchar c) as [Hc1 Hc2].
    destruct (utf8_char c) as [bs|e|]; simpl; [|by rewrite (Hc2 e)|done].
    by rewrite IH.
Qed.

(** [X2] A string that contains a lone surrogate cannot be hashed: [hash] and
    [hash_hex] raise [UnicodeEncodeError]. *)
Theorem hash_surrogate self s :
  Exists (fun c => 0xD800 <= c <= 0xDFFF) s ->
  hash self (Str s) = Raise UnicodeEncodeError
  /\ hash_hex self (Str s) = Raise UnicodeEncodeError.
Proof.
  intros Hs. unfold hash_hex, hash. by rewrite (encode_utf8_surrogate s Hs).
Qed.

(** [X3] On an ASCII string, [hash] is the hash of the character codes taken as
    bytes. *)
Theorem hash_ascii self s :
  Forall (fun c => 0 <= c < 0x80) s ->
  hash self (Str s) = hash self (Bytes s).
Proof.
  intros Hs. unfold hash.
  assert (Henc : encode_utf8 s = Ok s); [|by rewrite Henc].
  induction Hs as [|c s Hc _ IH]; simpl; [done|].
  unfold utf8_char. rewrite decide_True by lia. simpl. by rewrite IH.
Qed.

(** The 32-bit object, as [FNV1Hash()] builds it. *)
Lemma init_32 :
  init 32 = Ok {| FNV_prime := 16777619; FNV_offset_basis := 2166136261;
                  mask := 0xFFFFFFFF |}.
Proof. reflexivity. Qed.

Lemma hash_en_rango_witness :
  init 32 = Ok {| FNV_prime := 16777619; FNV_offset_basis := 2166136261;
                  mask := 0xFFFFFFFF |}
  /\ Forall (fun c => 0 <= c < 0x110000 /\ ¬ 0xD800 <= c <= 0xDFFF)
            [241; 8364]
  /\ exists h,
       hash {| FNV_prime := 16777619; FNV_offset_basis := 2166136261;
               mask := 0xFFFFFFFF |} (Str [241; 8364]) = Ok h
       /\ 0 <= h < 2 ^ 32.
Proof.
  assert (Hs : Forall (fun c => 0 <= c < 0x110000 /\ ¬ 0xD800 <= c <= 0xDFFF)
                      [241; 8364]).
  { repeat constructor; lia. }
  split; [exact init_32|]. split; [exact Hs|].
  exact (hash_en_rango 32 _ (Str [241; 8364]) init_32 Hs).
Defined.

Lemma hash_surrogate_witness :
  Exists (fun c => 0xD800 <= c <= 0xDFFF) [97; 0xD800]
  /\ hash {| FNV_prime := 16777619; FNV_offset_basis := 2166136261;
             mask := 0xFFFFFFFF |} (Str [97; 0xD800])
     = Raise UnicodeEncodeError
  /\ hash_hex {| FNV_prime := 16777619; FNV_offset_basis := 2166136261;
                 mask := 0xFFFFFFFF |} (Str [97; 0xD800])
     = Raise UnicodeEncodeError.
Proof.
  assert (Hs : Exists (fun c => 0xD800 <= c <= 0xDFFF) [97; 0xD800]).
  { apply Exists_cons_tl, Exists_cons_hd. lia. }
  split; [exact Hs|]. exact (hash_surrogate _ [97; 0xD800] Hs).
Defined.

Lemma hash_ascii_witness :
  Forall (fun c => 0 <= c < 0x80) [72; 105]
  /\ hash {| FNV_prime := 16777619; FNV_offset_basis := 2166136261;
             mask := 0xFFFFFFFF |} (Str [72; 105])
     = hash {| FNV_prime := 16777619; FNV_offset_basis := 2166136261;
               mask := 0xFFFFFFFF |} (Bytes [72; 105]).
Proof.
  assert (Hs : Forall (fun c => 0 <= c < 0x80) [72; 105]).
  { repeat constructor; lia. }
  split; [exact Hs|]. exact (hash_ascii _ [72; 105] Hs).
Defined.

End FNV1HashMore.

(** ** The heap keeps its order *)

Module HeapqOrderProps.

Import Heapq HeapqProps HeapqOrder.

Local Open Scope nat_scope.

Ltac padre i :=
  pose proof (Nat.div_mod_eq (i - 1) 2);
  pose proof (Nat.mod_upper_bound (i - 1) 2 ltac:(lia)).

Ltac lookups :=
  repeat first
    [ rewrite list_lookup_insert_eq in * by (rewrite ?length_insert; lia)
    | rewrite list_lookup_insert_ne in * by lia ].

Section HeapqOrderProps.
Context {T : Type} (key : T -> Z).

Implicit Types (heap : list T).

(** The root of a heap is a least element. *)
Lemma heap_ok_root heap x :
  heap_ok key heap -> heap !! 0 = Some x ->
  forall y, y ∈ heap -> (key x <= key y)%Z.
Proof.
  intros Hok Hx y [i Hi]%list_elem_of_lookup. revert y Hi.
  induction i as [i IH] using lt_wf_ind. intros y Hi.
  destruct (decide (i = 0)) as [->|Hne]; [by simplify_eq|].
  padre i.
  destruct (lookup_lt_is_Some_2 heap ((i - 1) / 2)) as [z Hz].
  { apply lookup_lt_Some in Hi. lia. }
  pose proof (IH ((i - 1) / 2) ltac:(lia) z Hz).
  pose proof (Hok i ltac:(lia) z y Hz Hi). lia.
Qed.

Lemma heap_ok_take heap k : heap_ok key heap -> heap_ok key (take k heap).
Proof.
  intros Hok i Hi x y Hx Hy.
  apply lookup_take_Some in Hx as [Hx _]. apply lookup_take_Some in Hy as [Hy _].
  by apply (Hok i Hi).
Qed.

Lemma siftdown_loop_heap newitem heap pos :
  pos < length heap ->
  ok_except key (<[pos := newitem]> heap) pos ->
  abuelo_ok key (<[pos := newitem]> heap) pos ->
  exists heap' pos',
    siftdown_loop (lt_key key) newitem 0 heap pos = Ok (heap', pos')
    /\ heap_ok key (<[pos' := newitem]> heap').
Proof.
  funelim (siftdown_loop (lt_key key) newitem 0 heap pos);
    intros Hlen Hex Hab.
  - (* the root is reached *)
    eexists _, _. split; [done|]. intros i Hi. apply Hex; lia.
  - (* the parent index is in range *)
    apply lookup_ge_None in Heq. padre pos. lia.
  - (* the parent is larger and moves down *)
    clear Heq1 Heqcall. rename Heq0 into Hparent.
    unfold lt_key in Heq. apply bool_decide_eq_true in Heq.
    padre pos. set (ppos := (pos - 1) / 2) in *.
    assert (Hplen : ppos < length heap) by lia.
    assert (HV : forall j, <[pos := newitem]> heap !! j
                = if decide (j = pos) then Some newitem else heap !! j).
    { intros j. rewrite list_lookup_insert.
      repeat case_decide; try done; lia. }
    assert (HV1 : forall j,
              <[ppos := newitem]> (<[pos := parent]> heap) !! j
              = if decide (j = ppos) then Some newitem
                else if decide (j = pos) then Some parent else heap !! j).
    { intros j. rewrite !list_lookup_insert, !length_insert.
      repeat case_decide; try done; lia. }
    destruct H as (heap' & pos' & Hrun & Hok).
    + rewrite length_insert. lia.
    + intros i Hi Hne x y Hx Hy. padre i. rewrite HV1 in Hx, Hy.
      rewrite decide_False in Hy by done.
      pose proof (Hex i Hi) as Hex_i. pose proof (Hab ltac:(lia) i Hi) as Hab_i.
      unfold le_at in Hex_i, Hab_i. fold ppos in Hab_i.
      setoid_rewrite HV in Hex_i. setoid_rewrite HV in Hab_i.
      rewrite decide_False in Hab_i by lia.
      destruct (decide (i = pos)) as [->|Hip].
      { rewrite decide_True in Hx by done. simplify_eq. lia. }
      destruct (decide ((i - 1) / 2 = ppos)) as [Hq|Hq].
      { injection Hx as <-. rewrite Hq, decide_False in Hex_i by lia.
        pose proof (Hex_i Hip _ _ Hparent Hy). lia. }
      destruct (decide ((i - 1) / 2 = pos)) as [Hq'|Hq'].
      { injection Hx as <-. apply (Hab_i Hq' _ _ Hparent Hy). }
      by apply (Hex_i Hip).
    + intros Hpp c Hc Hcp x y Hx Hy. padre c. padre ppos.
      rewrite HV1 in Hx, Hy.
      rewrite !decide_False in Hx by lia. rewrite decide_False in Hy by lia.
      pose proof (Hex ppos Hpp ltac:(lia)) as Hex_p.
      pose proof (Hex c Hc) as Hex_c. unfold le_at in Hex_p, Hex_c.
      setoid_rewrite HV in Hex_p. setoid_rewrite HV in Hex_c.
      rewrite !decide_False in Hex_p by lia.
      pose proof (Hex_p _ _ Hx Hparent) as Hgp.
      destruct (decide (c = pos)) as [->|Hcpos]; [by simplify_eq|].
      rewrite Hcp in Hex_c. rewrite !decide_False in Hex_c by lia.
      pose proof (Hex_c Hcpos _ _ Hparent Hy). lia.
    + exists heap', pos'. by split.
  - (* the parent is not larger: the item stays *)
    clear Heq1 Heqcall. rename Heq0 into Hparent.
    unfold lt_key in Heq. apply bool_decide_eq_false in Heq.
    eexists _, _. split; [done|]. intros i Hi x y Hx Hy.
    destruct (decide (i = pos)) as [->|Hip]; [|by apply (Hex i Hi Hip)].
    padre pos. rewrite list_lookup_insert_eq in Hy by lia.
    rewrite list_lookup_insert_ne in Hx by lia. simplify_eq. lia.
Qed.

Lemma siftdown_heap heap pos newitem :
  heap !! pos = Some newitem ->
  ok_except key heap pos -> abuelo_ok key heap pos ->
  exists heap',
    siftdown (lt_key key) heap 0 pos = Ok heap' /\ heap_ok key heap' /\ heap' ≡ₚ heap.
Proof.
  intros Hnew Hex Hab.
  pose proof (lookup_lt_Some _ _ _ Hnew) as Hlen.
  destruct (siftdown_spec (lt_key key) heap 0 pos Hlen) as (heap1 & Hrun & Hperm).
  exists heap1. split; [done|]. split; [|done].
  unfold siftdown in Hrun. rewrite (getitem_lookup _ _ _ Hnew) in Hrun.
  simpl in Hrun.
  destruct (siftdown_loop_heap newitem heap pos Hlen) as (h & p & Hloop & Hok).
  { by rewrite list_insert_id. }
  { by rewrite list_insert_id. }
  rewrite Hloop in Hrun. simpl in Hrun. by simplify_eq.
Qed.

(** [heappush] keeps the heap order. *)
Lemma heappush_heap heap item :
  heap_ok key heap ->
  exists heap',
    heappush (lt_key key) heap item = Ok heap'
    /\ heap_ok key heap' /\ heap' ≡ₚ item :: heap.
Proof.
  intros Hok. unfold heappush.
  replace (length (heap ++ [item]) - 1) with (length heap)
    by (rewrite length_app; simpl; lia).
  destruct (siftdown_heap (heap ++ [item]) (length heap) item)
    as (heap' & Hrun & Hok' & Hperm).
  - by rewrite lookup_app_r, Nat.sub_diag by lia.
  - intros i Hi Hne x y Hx Hy. padre i.
    pose proof (lookup_lt_Some _ _ _ Hy) as Hlt.
    rewrite length_app in Hlt. simpl in Hlt.
    rewrite lookup_app_l in Hx, Hy by lia. by apply (Hok i Hi).
  - intros _ c Hc Hcp x y _ Hy. padre c.
    apply lookup_lt_Some in Hy. rewrite length_app in Hy. simpl in Hy. lia.
  - exists heap'. split; [done|]. split; [done|].
    rewrite Hperm. by rewrite Permutation_app_comm.
Qed.

(** [_siftup] picks the child with the smaller key. *)
Lemma smaller_child_min heap childpos :
  childpos < length heap ->
  exists c,
    smaller_child (lt_key key) heap (length heap) childpos = Ok c
    /\ (c = childpos \/ c = childpos + 1) /\ c < length heap
    /\ le_at key heap c childpos /\ le_at key heap c (childpos + 1).
Proof.
  intros Hc. unfold smaller_child.
  destruct (lookup_lt_is_Some_2 heap childpos Hc) as [a Ha].
  case_decide as Hr.
  - destruct (lookup_lt_is_Some_2 heap (childpos + 1) Hr) as [b Hb].
    rewrite (getitem_lookup _ _ _ Ha), (getitem_lookup _ _ _ Hb). simpl.
    unfold lt_key. case_bool_decide as Hlt; simpl.
    + exists childpos. split; [done|]. split; [by left|]. split; [done|].
      split; intros x y Hx Hy; simplify_eq; lia.
    + exists (childpos + 1). split; [done|]. split; [by right|].
      split; [done|]. split; intros x y Hx Hy; simplify_eq; lia.
  - exists childpos. split; [done|]. split; [by left|]. split; [done|].
    split; intros x y Hx Hy; simplify_eq; [lia|].
    apply lookup_lt_Some in Hy. lia.
Qed.

(** The [_siftup] loop ends at a leaf and leaves a heap in which only the
    content of the hole is to be set. *)
Lemma siftup_loop_heap fuel heap pos :
  pos < length heap -> length heap - pos <= fuel ->
  ok_bajo key heap pos ->
  exists heap' pos',
    siftup_loop (lt_key key) fuel (length heap) heap pos = Ok (heap', pos')
    /\ pos' < length heap /\ length heap' = length heap
    /\ length heap <= 2 * pos' + 1
    /\ ok_bajo key heap' pos'.
Proof.
  revert heap pos. induction fuel as [|fuel IH]; intros heap pos Hpos Hfuel Hok.
  { lia. }
  cbn [siftup_loop]. case_decide as Hchild.
  2:{ exists heap, pos. split; [done|]. repeat split; try done; lia. }
  destruct (smaller_child_min heap (2 * pos + 1) Hchild)
    as (c & -> & Hc & Hclen & Hle1 & Hle2).
  destruct (lookup_lt_is_Some_2 heap c Hclen) as [child Hchildv].
  simpl. rewrite (getitem_lookup _ _ _ Hchildv). simpl.
  destruct (IH (<[pos := child]> heap) c) as (heap' & pos' & Hrun & Hrest).
  - rewrite length_insert. lia.
  - rewrite length_insert. lia.
  - intros i Hi _ x y Hx Hy. padre i.
    destruct (decide (i = pos)) as [->|Hip].
    + (* the hole was not the root: its parent is below both children *)
      rewrite list_lookup_insert_eq in Hy by lia.
      rewrite list_lookup_insert_ne in Hx by lia. simplify_eq.
      padre c.
      assert (Hxc : forall z, heap !! c = Some z -> (key x <= key z)%Z).
      { intros z Hz.
        destruct (lookup_lt_is_Some_2 heap pos Hpos) as [w Hw].
        pose proof (Hok pos Hi ltac:(lia) x w Hx Hw).
        pose proof (Hok c ltac:(lia) ltac:(lia)) as Hpc.
        replace ((c - 1) / 2) with pos in Hpc by lia.
        pose proof (Hpc w z Hw Hz). lia. }
      by apply Hxc.
    + rewrite list_lookup_insert_ne in Hy by lia.
      destruct (decide ((i - 1) / 2 = pos)) as [Hq|Hq].
      * rewrite Hq in Hx. rewrite list_lookup_insert_eq in Hx by lia.
        injection Hx as <-.
        assert (i = 2 * pos + 1 \/ i = 2 * pos + 1 + 1) as [->| ->] by lia.
        -- by apply (Hle1 child y).
        -- by apply (Hle2 child y).
      * rewrite list_lookup_insert_ne in Hx by lia.
        apply (Hok i Hi); [lia|done..].
  - rewrite length_insert in Hrun, Hrest. rewrite Hrun.
    exists heap', pos'. split; [done|]. done.
Qed.

(** [_siftup] from the root restores the heap order when only the root is
    out of place. *)
Lemma siftup_heap heap :
  heap ≠ [] -> ok_bajo key heap 0 ->
  exists heap',
    siftup (lt_key key) heap 0 = Ok heap' /\ heap_ok key heap' /\ heap' ≡ₚ heap.
Proof.
  intros Hne Hok.
  assert (Hlen : 0 < length heap) by (destruct heap; simpl; [done|lia]).
  destruct (siftup_spec (lt_key key) heap 0 Hlen) as (heap1 & Hrun & Hperm).
  exists heap1. split; [done|]. split; [|done].
  unfold siftup in Hrun.
  destruct (lookup_lt_is_Some_2 heap 0 Hlen) as [newitem Hnew].
  rewrite (getitem_lookup _ _ _ Hnew) in Hrun. simpl in Hrun.
  destruct (siftup_loop_heap (length heap) heap 0 Hlen ltac:(lia) Hok)
    as (h & p & Hloop & Hp & Hhlen & Hleaf & Hbajo).
  rewrite Hloop in Hrun. simpl in Hrun.
  destruct (siftdown_heap (<[p := newitem]> h) p newitem)
    as (heap2 & Hdown & Hok2 & _).
  - apply list_lookup_insert_eq. lia.
  - intros i Hi Hip x y Hx Hy. padre i.
    rewrite list_lookup_insert_ne in Hy by lia.
    pose proof (lookup_lt_Some _ _ _ Hy).
    rewrite list_lookup_insert_ne in Hx by lia.
    apply (Hbajo i Hi); [lia|done..].
  - intros _ c Hc Hcp x y _ Hy. padre c.
    apply lookup_lt_Some in Hy. rewrite length_insert in Hy. lia.
  - rewrite Hdown in Hrun. by simplify_eq.
Qed.

(** [heappop] returns a least element and keeps the heap order. *)
Lemma heappop_heap heap :
  heap_ok key heap -> heap ≠ [] ->
  exists item heap',
    heappop (lt_key key) heap = Ok (item, heap')
    /\ item :: heap' ≡ₚ heap /\ heap_ok key heap'
    /\ Forall (fun y => (key item <= key y)%Z) heap'.
Proof.
  intros Hok Hne.
  destruct (heappop_spec (lt_key key) heap Hne) as (item & heap' & Hrun & Hperm).
  exists item, heap'. split; [done|]. split; [done|].
  assert (Hitem : heap !! 0 = Some item /\ heap_ok key heap').
  { unfold heappop in Hrun.
    destruct (last heap) as [lastelt|] eqn:Hlast; [|done].
    destruct (take (length heap - 1) heap) as [|returnitem rest] eqn:Htake.
    - simplify_eq. split; [|by intros i Hi x y Hx].
      destruct heap as [|a [|b heap]]; simpl in *; by simplify_eq.
    - destruct (siftup_heap (<[0 := lastelt]> (returnitem :: rest)))
        as (heap1 & Hup & Hok1 & _).
      + done.
      + intros i Hi Hq x y Hx Hy. padre i. specialize (Hq eq_refl).
        rewrite list_lookup_insert_ne in Hx, Hy by lia.
        rewrite <- Htake in Hx, Hy.
        by apply (heap_ok_take heap (length heap - 1) Hok i Hi).
      + rewrite Hup in Hrun. simpl in Hrun. simplify_eq. split; [|done].
        assert (take (length heap - 1) heap !! 0 = Some item) as Ht
          by by rewrite Htake.
        by apply lookup_take_Some in Ht as [Ht _]. }
  destruct Hitem as [Hroot Hok']. split; [done|].
  apply Forall_forall. intros y Hy.
  apply (heap_ok_root heap item Hok Hroot).
  rewrite <- Hperm. by right.
Qed.

End HeapqOrderProps.

End HeapqOrderProps.

(** ** More on dictionaries *)

Module DictMore.

Import Dict DictProps.

Section DictMore.
Context {K V : Type} `{EqDecision K}.
Implicit Types (d : dict K V) (k : K) (v : V).

Lemma get_set_ne d k k' v : k ≠ k' -> get k' (set k v d) = get k' d.
Proof.
  intros Hne. induction d as [|[k0 v0] d IH]; simpl.
  - by rewrite decide_False by done.
  - repeat (case_decide; simpl; simplify_eq); done.
Qed.

Lemma get_set d k k' v :
  get k' (set k v d) = if decide (k' = k) then Some v else get k' d.
Proof.
  case_decide as Hk; [subst; apply get_set_eq|]. by apply get_set_ne.
Qed.

End DictMore.

End DictMore.

(** ** Shape of the Huffman tree *)

Module HuffmanShapeProps.

Import Dict HuffmanCompressor HuffmanSpec HuffmanShape.
Import HeapqOrder HeapqOrderProps DictProps DictMore HuffmanProps.

Section HuffmanShapeProps.
Context {A : Type} `{EqDecision A}.
Implicit Types (heap : list (NodoHuffman A)) (texto : list A).

Lemma NodoHuffman_lt_key :
  @NodoHuffman_lt A = lt_key frecuencia.
Proof. reflexivity. Qed.

Lemma suma_perm (l1 l2 : list Z) : l1 ≡ₚ l2 -> suma l1 = suma l2.
Proof. unfold suma. induction 1; simpl; lia. Qed.

Lemma suma_app (l1 l2 : list Z) : suma (l1 ++ l2) = suma l1 + suma l2.
Proof. unfold suma. induction l1; simpl; lia. Qed.

(** *** [Counter] counts *)

Lemma suma_set (d : dict A Z) c v :
  suma (set c v d).*2 = suma d.*2 + v - default 0 (get c d).
Proof.
  unfold suma. induction d as [|[k w] d IH]; csimpl; [lia|].
  case_decide; csimpl; [lia|]. rewrite IH. lia.
Qed.

Lemma Counter_fold_suma texto (d : dict A Z) :
  suma (fold_left (fun d c => set c (default 0 (get c d) + 1) d) texto d).*2
  = suma d.*2 + Z.of_nat (length texto).
Proof.
  revert d. induction texto as [|c texto IH]; intros d; simpl; [lia|].
  rewrite IH, suma_set. lia.
Qed.

Lemma Counter_fold_get texto (d : dict A Z) s :
  default 0
    (get s (fold_left (fun d c => set c (default 0 (get c d) + 1) d) texto d))
  = default 0 (get s d) + apariciones s texto.
Proof.
  unfold apariciones.
  revert d. induction texto as [|c texto IH]; intros d; simpl; [lia|].
  rewrite IH. rewrite filter_cons. case_decide as Hc.
  - subst c. rewrite get_set_eq. simpl. lia.
  - by rewrite get_set_ne by done.
Qed.

(** [Counter(texto)] maps every symbol of the text to its number of
    occurrences, and the counts add up to the length of the text. *)
Lemma Counter_cuenta texto :
  (forall s f, (s, f) ∈ Counter texto -> f = apariciones s texto /\ s ∈ texto)
  /\ (forall s, s ∈ texto -> get s (Counter texto) = Some (apariciones s texto))
  /\ suma (Counter texto).*2 = Z.of_nat (length texto).
Proof.
  destruct (Counter_keys texto) as [Hnd Hkeys].
  assert (Hget : forall s f,
             get s (Counter texto) = Some f -> f = apariciones s texto).
  { intros s f Hs. pose proof (Counter_fold_get texto [] s) as Hc.
    fold (Counter texto) in Hc. rewrite Hs in Hc. simpl in Hc. lia. }
  split; [|split].
  - intros s f Hin. split.
    + apply Hget. by apply elem_of_get.
    + apply Hkeys. unfold keys. apply list_elem_of_fmap. by exists (s, f).
  - intros s Hs. apply Hkeys in Hs.
    destruct (get s (Counter texto)) as [f|] eqn:Hf.
    + by rewrite (Hget s f Hf).
    + by apply get_None in Hf.
  - unfold Counter. rewrite Counter_fold_suma. simpl. lia.
Qed.

(** *** The nodes of the heap *)

Lemma arbol_huffman_suma (nodo : NodoHuffman A) :
  arbol_huffman nodo -> frecuencia nodo = suma (hojas_frecuencia nodo).*2.
Proof.
  induction nodo as [s f izq der IHi IHd] using NodoHuffman_induction.
  destruct s as [s|], izq as [izq|], der as [der|]; simpl; try done.
  - intros _. unfold suma. simpl. lia.
  - intros (-> & _ & Hi & Hd). rewrite fmap_app, suma_app.
    rewrite <- (IHi izq), <- (IHd der) by done. done.
Qed.

Lemma hojas_frecuencia_hojas (nodo : NodoHuffman A) :
  (hojas_frecuencia nodo).*1 = (hojas nodo).*1.
Proof.
  induction nodo as [s f izq der IHi IHd] using NodoHuffman_induction.
  destruct s as [s|]; simpl; [done|].
  rewrite !fmap_app. f_equal.
  - destruct izq as [izq|]; [|done]. rewrite (IHi izq) by done.
    rewrite <- list_fmap_compose. by apply list_fmap_ext.
  - destruct der as [der|]; [|done]. rewrite (IHd der) by done.
    rewrite <- list_fmap_compose. by apply list_fmap_ext.
Qed.

Lemma crear_nodos_heap (items : list (A * Z)) heap :
  heap_ok frecuencia heap -> Forall arbol_huffman heap ->
  exists heap',
    crear_nodos items heap = Ok heap'
    /\ heap_ok frecuencia heap' /\ Forall arbol_huffman heap'
    /\ heap' ≫= hojas_frecuencia ≡ₚ items ++ (heap ≫= hojas_frecuencia).
Proof.
  revert heap. induction items as [|[s f] items IH]; intros heap Hok Hall.
  { exists heap. by repeat split. }
  cbn [crear_nodos]. rewrite NodoHuffman_lt_key.
  destruct (heappush_heap frecuencia heap (NodoHuffman_init (Some s) f) Hok)
    as (heap1 & -> & Hok1 & Hperm1).
  destruct (IH heap1 Hok1) as (heap' & Hrun & Hok' & Hall' & Hperm').
  { rewrite Hperm1. by constructor. }
  rewrite bind_Ok, Hrun.
  exists heap'. split; [done|]. split; [done|]. split; [done|].
  rewrite Hperm', Hperm1. simpl.
  by rewrite Permutation_middle.
Qed.

(** One turn of the loop takes the two least frequent nodes out of the
    heap, the less frequent one first, and puts their parent in. *)
Lemma unir_menores_heap heap :
  (1 < length heap)%nat -> heap_ok frecuencia heap ->
  exists nodo1 nodo2 resto heap',
    unir_menores heap = Ok heap'
    /\ heap ≡ₚ nodo1 :: nodo2 :: resto
    /\ frecuencia nodo1 <= frecuencia nodo2
    /\ Forall (fun nodo => frecuencia nodo2 <= frecuencia nodo) resto
    /\ heap' ≡ₚ Nodo None (frecuencia nodo1 + frecuencia nodo2)
                     (Some nodo1) (Some nodo2) :: resto
    /\ heap_ok frecuencia heap'.
Proof.
  intros Hlen Hok. unfold unir_menores. rewrite NodoHuffman_lt_key.
  destruct (heappop_heap frecuencia heap Hok)
    as (nodo1 & heap1 & -> & Hperm1 & Hok1 & Hmin1).
  { intros ->. simpl in Hlen. lia. }
  rewrite bind_Ok. cbv beta iota.
  destruct (heappop_heap frecuencia heap1 Hok1)
    as (nodo2 & heap2 & -> & Hperm2 & Hok2 & Hmin2).
  { intros ->. apply Permutation_length in Hperm1. simpl in Hperm1. lia. }
  rewrite bind_Ok. cbv beta iota.
  destruct (heappush_heap frecuencia heap2
              (Nodo None (frecuencia nodo1 + frecuencia nodo2)
                    (Some nodo1) (Some nodo2)) Hok2)
    as (heap' & -> & Hok' & Hperm').
  exists nodo1, nodo2, heap2, heap'. split; [done|].
  split; [by rewrite Hperm2|]. split; [|by split].
  rewrite <- Hperm2 in Hmin1. by apply Forall_cons in Hmin1 as [? _].
Qed.

(** [X4] One turn of the loop of [construir_arbol] on a heap of at least two
    nodes: the node taken first is a least frequent node of the heap, the
    node taken second is a least frequent one of the others, and the heap
    that results holds their parent in their place and is a heap again. *)
Theorem unir_menores_dos_menores heap :
  (1 < length heap)%nat -> heap_ok frecuencia heap ->
  exists nodo1 nodo2 resto heap',
    unir_menores heap = Ok heap'
    /\ heap ≡ₚ nodo1 :: nodo2 :: resto
    /\ (forall nodo, nodo ∈ heap -> frecuencia nodo1 <= frecuencia nodo)
    /\ (forall nodo, nodo ∈ resto -> frecuencia nodo2 <= frecuencia nodo)
    /\ heap' ≡ₚ Nodo None (frecuencia nodo1 + frecuencia nodo2)
                     (Some nodo1) (Some nodo2) :: resto
    /\ heap_ok frecuencia heap'.
Proof.
  intros Hlen Hok.
  destruct (unir_menores_heap heap Hlen Hok)
    as (nodo1 & nodo2 & resto & heap' & Hrun & Hperm & Hle & Hmin & Hperm'
        & Hok').
  exists nodo1, nodo2, resto, heap'. split; [done|]. split; [done|].
  rewrite Forall_forall in Hmin. split; [|by repeat split].
  intros nodo. rewrite Hperm, !elem_of_cons.
  intros [->|[->|Hin]]; [lia|done|]. specialize (Hmin nodo Hin). lia.
Qed.

Lemma construir_loop_heap fuel heap :
  heap ≠ [] -> (length heap <= S fuel)%nat ->
  heap_ok frecuencia heap -> Forall arbol_huffman heap ->
  exists raiz,
    construir_loop fuel heap = Ok [raiz]
    /\ arbol_huffman raiz
    /\ hojas_frecuencia raiz ≡ₚ heap ≫= hojas_frecuencia.
Proof.
  revert heap. induction fuel as [|fuel IH]; intros heap Hne Hlen Hok Hall.
  - destruct heap as [|raiz [|? ?]]; simpl in *; [done| |lia].
    exists raiz. split; [done|]. split; [exact (Forall_inv Hall)|].
    by rewrite app_nil_r.
  - cbn [construir_loop]. case_decide as Hgt.
    2:{ destruct heap as [|raiz [|? ?]]; simpl in *; [done| |lia].
        exists raiz. split; [done|].
        split; [exact (Forall_inv Hall)|]. by rewrite app_nil_r. }
    destruct (unir_menores_heap heap Hgt Hok)
      as (nodo1 & nodo2 & resto & heap' & -> & Hperm & Hle & _ & Hperm' & Hok').
    rewrite bind_Ok.
    rewrite Hperm in Hall.
    apply Forall_cons in Hall as [Hn1 Hall]. apply Forall_cons in Hall as [Hn2 Hall].
    destruct (IH heap') as (raiz & Hrun & Hraiz & Hhojas).
    + intros ->. by apply Permutation_nil_cons in Hperm'.
    + apply Permutation_length in Hperm, Hperm'. simpl in *. lia.
    + done.
    + rewrite Hperm'. constructor; [|done]. simpl. by repeat split.
    + exists raiz. split; [done|]. split; [done|].
      rewrite Hhojas, Hperm', Hperm. simpl. by rewrite app_assoc.
Qed.

Lemma construir_arbol_huffman (self : t A) texto :
  texto ≠ [] ->
  exists raiz,
    construir_arbol self texto
    = Ok (Some raiz, {| codigos := codigos self; arbol_raiz := Some raiz |})
    /\ arbol_huffman raiz
    /\ hojas_frecuencia raiz ≡ₚ Counter texto.
Proof.
  intros Hne. unfold construir_arbol.
  destruct texto as [|c texto']; [done|]. set (texto := c :: texto') in *.
  destruct (crear_nodos_heap (Counter texto) [])
    as (heap & Hcrear & Hok & Hall & Hperm).
  { by intros i Hi x y Hx. }
  { constructor. }
  rewrite Hcrear, bind_Ok. simpl in Hperm. rewrite app_nil_r in Hperm.
  destruct (construir_loop_heap (length heap) heap)
    as (raiz & Hloop & Hraiz & Hhojas); [|lia|done..|].
  { intros ->. apply Permutation_nil_l in Hperm.
    pose proof (proj2 (Counter_keys texto)) c as [_ Hc].
    rewrite <- Hperm in Hc. specialize (Hc ltac:(by left)).
    by apply elem_of_nil in Hc. }
  rewrite Hloop, bind_Ok. simpl.
  exists raiz. split; [done|]. split; [done|]. by rewrite Hhojas.
Qed.

(** [X5] The tree of a non-empty text: every internal node has two children,
    the left one not more frequent than the right one, and carries the
    sum of their frequencies; the leaves are the distinct symbols of the
    text with their numbers of occurrences; the root carries the length
    of the text. *)
Theorem construir_arbol_forma (self : t A) texto :
  texto ≠ [] ->
  exists raiz,
    construir_arbol self texto
    = Ok (Some raiz, {| codigos := codigos self; arbol_raiz := Some raiz |})
    /\ arbol_huffman raiz
    /\ hojas_frecuencia raiz ≡ₚ Counter texto
    /\ (forall s f, (s, f) ∈ hojas_frecuencia raiz ->
                    f = apariciones s texto /\ s ∈ texto)
    /\ frecuencia raiz = Z.of_nat (length texto).
Proof.
  intros Hne.
  destruct (construir_arbol_huffman self texto Hne)
    as (raiz & Hrun & Hraiz & Hhojas).
  exists raiz. split; [done|]. split; [done|]. split; [done|].
  destruct (Counter_cuenta texto) as (Hcount & _ & Hsuma).
  split.
  - intros s f Hin. apply Hcount. by rewrite <- Hhojas.
  - rewrite (arbol_huffman_suma raiz Hraiz).
    rewrite (suma_perm _ (Counter texto).*2) by by rewrite Hhojas.
    done.
Qed.

(** *** The length of the codes *)

Lemma arbol_huffman_hojas (nodo : NodoHuffman A) :
  arbol_huffman nodo -> (0 < length (hojas nodo))%nat.
Proof.
  induction nodo as [s f izq der IHi IHd] using NodoHuffman_induction.
  destruct s as [s|], izq as [izq|], der as [der|]; simpl; try done; [lia|].
  intros (_ & _ & Hi & _). rewrite length_app, !length_fmap.
  pose proof (IHi izq eq_refl Hi). lia.
Qed.

Lemma arbol_huffman_profundidad (nodo : NodoHuffman A) :
  arbol_huffman nodo ->
  forall s c, (s, c) ∈ hojas nodo -> (length c < length (hojas nodo))%nat.
Proof.
  induction nodo as [s f izq der IHi IHd] using NodoHuffman_induction.
  destruct s as [s|], izq as [izq|], der as [der|]; simpl; try done.
  - intros _ s' c [= _ ->]%list_elem_of_singleton. simpl. lia.
  - intros (_ & _ & Hi & Hd) s' c.
    pose proof (arbol_huffman_hojas izq Hi).
    pose proof (arbol_huffman_hojas der Hd).
    rewrite elem_of_app, length_app, !length_fmap.
    intros [Hin|Hin]; apply list_elem_of_fmap in Hin as ([s0 c0] & Heq & Hin);
      injection Heq as -> ->; simpl.
    + pose proof (IHi izq eq_refl Hi s0 c0 Hin). lia.
    + pose proof (IHd der eq_refl Hd s0 c0 Hin). lia.
Qed.

(** [X6] No code is as long as the table: with [k] distinct symbols a code has
    at most [k - 1] bits, and the text is encoded in at most
    [len(texto) * (k - 1)] bits. *)
Theorem codigos_acotados (self : t A) texto :
  texto ≠ [] ->
  exists blob tabla est,
    comprimir self texto = Ok (blob, tabla, est)
    /\ (forall s c, (s, c) ∈ tabla -> (length c < length tabla)%nat)
    /\ (length (bits_de tabla texto)
        <= length texto * (length tabla - 1))%nat.
Proof.
  intros Hne.
  destruct (comprimir_spec self texto Hne)
    as (raiz & payload & Hc & Ha & _).
  cbv zeta in Hc.
  destruct (construir_arbol_huffman self texto Hne)
    as (raiz' & Ha' & Hraiz & _).
  rewrite Ha in Ha'. injection Ha' as <-.
  eexists _, _, _. split; [exact Hc|].
  pose proof (arbol_huffman_profundidad raiz Hraiz) as Hprof.
  split; [exact Hprof|].
  unfold bits_de. generalize (hojas raiz) Hprof. clear.
  intros tabla Hprof. induction texto as [|s texto IH]; csimpl; [lia|].
  rewrite length_app.
  assert (length (default [] (get s tabla)) <= length tabla - 1)%nat.
  { destruct (get s tabla) as [c|] eqn:Hg; simpl; [|lia].
    apply get_Some_elem_of in Hg. specialize (Hprof s c Hg). lia. }
  lia.
Qed.

(** *** The size of the encoded text *)

Lemma suma_indicador (tabla : dict A (list ascii)) x c :
  NoDup (keys tabla) -> get x tabla = Some c ->
  suma ((fun '(s, c) => (if decide (s = x) then 1 else 0)
                         * Z.of_nat (length c)) <$> tabla)
  = Z.of_nat (length c).
Proof.
  unfold keys, suma. induction tabla as [|[k v] tabla IH]; csimpl; [done|].
  rewrite NoDup_cons. intros [Hk Hnd].
  destruct (decide (x = k)) as [->|Hne].
  - intros [= ->]. rewrite decide_True by done.
    assert (Hcero : foldr Z.add 0
              ((fun '(s, c) => (if decide (s = k) then 1 else 0)
                                * Z.of_nat (length c)) <$> tabla) = 0).
    { clear IH Hnd. induction tabla as [|[k' v'] tabla IH]; csimpl; [done|].
      csimpl in Hk. apply not_elem_of_cons in Hk as [Hne Hk].
      rewrite decide_False by done. rewrite IH by done. lia. }
    rewrite Hcero. lia.
  - intros Hg. rewrite decide_False by done. rewrite IH by done. lia.
Qed.

Lemma bits_de_cuenta (tabla : dict A (list ascii)) texto :
  NoDup (keys tabla) -> (forall s, s ∈ texto -> s ∈ keys tabla) ->
  Z.of_nat (length (bits_de tabla texto))
  = suma ((fun '(s, c) => apariciones s texto * Z.of_nat (length c))
            <$> tabla).
Proof.
  intros Hnd. unfold bits_de.
  induction texto as [|x texto IH]; intros Hin; csimpl.
  - unfold suma. clear. induction tabla as [|[k v] tabla IH]; csimpl; [done|].
    rewrite IH. unfold apariciones. simpl. lia.
  - rewrite length_app, Nat2Z.inj_add, IH
      by (intros s Hs; apply Hin; by right).
    destruct (get x tabla) as [c|] eqn:Hg.
    2:{ apply get_None in Hg. destruct Hg. apply Hin. by left. }
    cbn [from_option id]. unfold id.
    rewrite <- (suma_indicador tabla x c Hnd Hg).
    unfold suma. clear. induction tabla as [|[k v] tabla IH]; csimpl; [done|].
    rewrite <- IH. unfold apariciones. rewrite filter_cons.
    destruct (decide (k = x)); simpl; lia.
Qed.

(** [X22] The number of code bits of a non-empty text is the sum, over the
    entries of the table, of the number of occurrences of the symbol times
    the length of its code. *)
Theorem bits_por_frecuencia (self : t A) texto :
  texto ≠ [] ->
  exists blob tabla est,
    comprimir self texto = Ok (blob, tabla, est)
    /\ Z.of_nat (length (bits_de tabla texto))
       = suma ((fun '(s, c) => apariciones s texto * Z.of_nat (length c))
                 <$> tabla).
Proof.
  intros Hne.
  destruct (comprimir_spec self texto Hne)
    as (raiz & payload & Hc & _ & Hnd & Hin & _).
  cbv zeta in Hc. eexists _, _, _. split; [exact Hc|].
  apply bits_de_cuenta; [done|]. intros s Hs. by apply Hin.
Qed.

End HuffmanShapeProps.

Lemma unir_menores_dos_menores_witness :
  (1 < length [hoja_B; hoja_A])%nat
  /\ heap_ok frecuencia [hoja_B; hoja_A]
  /\ exists nodo1 nodo2 resto heap',
       unir_menores [hoja_B; hoja_A] = Ok heap'
       /\ [hoja_B; hoja_A] ≡ₚ nodo1 :: nodo2 :: resto
       /\ (forall nodo, nodo ∈ [hoja_B; hoja_A] ->
                        frecuencia nodo1 <= frecuencia nodo)
       /\ (forall nodo, nodo ∈ resto -> frecuencia nodo2 <= frecuencia nodo)
       /\ heap' ≡ₚ Nodo None (frecuencia nodo1 + frecuencia nodo2)
                        (Some nodo1) (Some nodo2) :: resto
       /\ heap_ok frecuencia heap'.
Proof.
  assert (Hlen : (1 < length [hoja_B; hoja_A])%nat) by (simpl; lia).
  assert (Hok : heap_ok frecuencia [hoja_B; hoja_A]).
  { intros i Hi x y Hx Hy.
    destruct i as [|[|i]]; [lia| |by simpl in Hy].
    simpl in Hx, Hy. simplify_eq. simpl. lia. }
  split; [exact Hlen|]. split; [exact Hok|].
  exact (unir_menores_dos_menores [hoja_B; hoja_A] Hlen Hok).
Defined.

Lemma codigos_acotados_witness :
  str "AAAB" ≠ []
  /\ exists blob tabla est,
       comprimir HuffmanCompressor.init (str "AAAB") = Ok (blob, tabla, est)
       /\ (forall s c, (s, c) ∈ tabla -> (length c < length tabla)%nat)
       /\ (length (bits_de tabla (str "AAAB"))
           <= length (str "AAAB") * (length tabla - 1))%nat.
Proof.
  assert (Hne : str "AAAB" ≠ []) by done.
  split; [exact Hne|].
  exact (codigos_acotados HuffmanCompressor.init (str "AAAB") Hne).
Defined.

Lemma bits_por_frecuencia_witness :
  str "AAAB" ≠ []
  /\ exists blob tabla est,
       comprimir HuffmanCompressor.init (str "AAAB") = Ok (blob, tabla, est)
       /\ Z.of_nat (length (bits_de tabla (str "AAAB")))
          = suma ((fun '(s, c) =>
                     apariciones s (str "AAAB") * Z.of_nat (length c))
                    <$> tabla).
Proof.
  assert (Hne : str "AAAB" ≠ []) by done.
  split; [exact Hne|].
  exact (bits_por_frecuencia HuffmanCompressor.init (str "AAAB") Hne).
Defined.

Lemma construir_arbol_forma_witness :
  str "AAAB" ≠ []
  /\ exists raiz,
       construir_arbol HuffmanCompressor.init (str "AAAB")
       = Ok (Some raiz, {| codigos := []; arbol_raiz := Some raiz |})
       /\ arbol_huffman raiz
       /\ hojas_frecuencia raiz ≡ₚ Counter (str "AAAB")
       /\ (forall s f, (s, f) ∈ hojas_frecuencia raiz ->
                       f = apariciones s (str "AAAB") /\ s ∈ str "AAAB")
       /\ frecuencia raiz = Z.of_nat (length (str "AAAB")).
Proof.
  assert (Hne : str "AAAB" ≠ []) by done.
  split; [exact Hne|].
  exact (construir_arbol_forma HuffmanCompressor.init (str "AAAB") Hne).
Defined.

End HuffmanShapeProps.

(** ** The codec as a whole *)

Module HuffmanMore.

Import Dict HuffmanCompressor HuffmanSpec DictProps DictMore HuffmanProps.

Section HuffmanMore.
Context {A : Type} `{EqDecision A}.
Implicit Types (texto : list A) (tabla : dict A (list ascii)).

(** The root that [construir_arbol] returns does not depend on the object
    it is called on. *)
Lemma construir_arbol_estado (self self' : t A) texto raiz est :
  construir_arbol self texto = Ok (raiz, est) ->
  texto ≠ [] ->
  est = {| codigos := codigos self; arbol_raiz := raiz |}
  /\ construir_arbol self' texto
     = Ok (raiz, {| codigos := codigos self'; arbol_raiz := raiz |}).
Proof.
  unfold construir_arbol. destruct texto as [|c texto]; [done|].
  destruct (crear_nodos _ _) as [heap| |]; simpl; [|done..].
  destruct (construir_loop _ _) as [heap'| |]; simpl; [|done..].
  intros [= <- <-] _. done.
Qed.

(** [X7] [comprimir] never fails, and what it returns does not depend on the
    state that earlier calls left in the object: for a non-empty text the
    blob, the table and the new state are functions of the text alone, the
    new state holding the returned table; for the empty text the object is
    left as it was. *)
Theorem comprimir_sin_estado (self self' : t A) texto :
  exists blob tabla est est',
    comprimir self texto = Ok (blob, tabla, est)
    /\ comprimir self' texto = Ok (blob, tabla, est')
    /\ (texto ≠ [] ->
        est' = est /\ codigos est = tabla /\ arbol_raiz est ≠ None
        /\ blob ≠ [])
    /\ (texto = [] -> blob = [] /\ tabla = [] /\ est = self /\ est' = self').
Proof.
  destruct (decide (texto = [])) as [->|Hne].
  { exists [], [], self, self'. by repeat split. }
  destruct (comprimir_spec self texto Hne)
    as (raiz & payload & Hc & Ha & _).
  destruct (comprimir_spec self' texto Hne)
    as (raiz' & payload' & Hc' & Ha' & _).
  destruct (construir_arbol_estado self self' texto _ _ Ha Hne) as [_ Ha2].
  rewrite Ha' in Ha2. injection Ha2 as ->.
  cbv zeta in Hc, Hc'.
  assert (payload' = payload) as ->.
  { unfold comprimir in Hc, Hc'. destruct texto as [|c texto]; [done|].
    rewrite Ha, bind_Ok in Hc. rewrite Ha', bind_Ok in Hc'.
    cbv beta iota in Hc, Hc'.
    unfold generar_codigos in Hc, Hc'. cbn [arbol_raiz codigos] in Hc, Hc'.
    rewrite Hc in Hc'. by injection Hc'. }
  eexists _, _, _, _. split; [exact Hc|]. split; [exact Hc'|].
  split; [|done]. intros _. by repeat split.
Qed.

(** *** Decoding *)

Lemma invertir_get_elem tabla c s :
  get c (invertir tabla) = Some s -> (s, c) ∈ tabla.
Proof.
  unfold invertir.
  assert (Hgen : forall inv : dict (list ascii) A,
             get c (fold_left (fun inv '(k, v) => set v k inv) tabla inv)
             = Some s ->
             (s, c) ∈ tabla \/ get c inv = Some s).
  { induction tabla as [|[k v] tabla IH]; intros inv; simpl; [by right|].
    intros Hg. destruct (IH _ Hg) as [Hin|Hset].
    - left. by right.
    - rewrite get_set in Hset. case_decide; simplify_eq; [left; by left|].
      by right. }
  intros Hg. by destruct (Hgen [] Hg).
Qed.

Lemma decodificar_fold (inv : dict (list ascii) A) bits :
  forall out cur,
  exists nuevos,
    (fold_left (decodificar_bit inv) bits (out, cur)).1 = out ++ nuevos
    /\ Forall (fun s => exists c, get c inv = Some s) nuevos
    /\ (length nuevos <= length bits)%nat.
Proof.
  induction bits as [|bit bits IH]; intros out cur; simpl.
  { exists []. rewrite app_nil_r. split; [done|]. split; [constructor|done]. }
  destruct (get (cur ++ [bit]) inv) as [s|] eqn:Hs.
  - destruct (IH (out ++ [s]) []) as (nuevos & -> & Hall & Hlen).
    exists (s :: nuevos). rewrite <- app_assoc. split; [done|].
    split; [|simpl; lia]. constructor; [by eexists|done].
  - destruct (IH out (cur ++ [bit])) as (nuevos & -> & Hall & Hlen).
    exists nuevos. split; [done|]. split; [done|lia].
Qed.

Lemma bin_digits_length p (k : nat) :
  Z.pos p < 2 ^ Z.of_nat k -> (length (bin_digits p) <= k)%nat.
Proof.
  revert k. induction p as [p IH|p IH|]; intros k Hk.
  - destruct k as [|k]; [simpl in Hk; lia|].
    rewrite Nat2Z.inj_succ, Z.pow_succ_r in Hk by lia.
    simpl. rewrite length_app. simpl. specialize (IH k ltac:(lia)). lia.
  - destruct k as [|k]; [simpl in Hk; lia|].
    rewrite Nat2Z.inj_succ, Z.pow_succ_r in Hk by lia.
    simpl. rewrite length_app. simpl. specialize (IH k ltac:(lia)). lia.
  - destruct k as [|k]; [simpl in Hk; lia|]. simpl. lia.
Qed.

Lemma format_08b_length n :
  0 <= n < 256 -> length (format_08b n) = 8%nat.
Proof.
  intros Hn. destruct n as [|p|p]; [done| |lia].
  pose proof (bin_digits_length p 8 ltac:(simpl; lia)).
  simpl. rewrite length_app, length_replicate. lia.
Qed.

(** [X8] Every symbol that [descomprimir] returns is a symbol of the table it
    was given, whatever the blob. *)
Theorem descomprimir_simbolos (datos : list Z) tabla :
  Forall (fun s => s ∈ keys tabla) (descomprimir datos tabla).
Proof.
  unfold descomprimir.
  destruct datos as [|padding datos_bits]; [constructor|].
  destruct tabla as [|par tabla]; [constructor|].
  set (tabla' := par :: tabla). set (bits := if decide _ then _ else _).
  destruct (decodificar_fold (invertir tabla') bits [] [])
    as (nuevos & -> & Hall & _).
  simpl. eapply Forall_impl; [exact Hall|].
  intros s [c Hc]. apply invertir_get_elem in Hc.
  change (s ∈ tabla'.*1). apply list_elem_of_fmap. by exists (s, c).
Qed.

(** [X9] On a blob of bytes, [descomprimir] returns at most one symbol for each
    bit that follows the header byte. *)
Theorem descomprimir_longitud (datos : list Z) tabla :
  Forall (fun b => 0 <= b < 256) datos ->
  (length (descomprimir datos tabla) <= 8 * (length datos - 1))%nat.
Proof.
  intros Hbytes. unfold descomprimir.
  destruct datos as [|padding datos_bits]; [simpl; lia|].
  destruct tabla as [|par tabla]; [simpl; lia|].
  set (tabla' := par :: tabla).
  apply Forall_cons in Hbytes as [_ Hbytes].
  assert (Hlen : length (concat (format_08b <$> datos_bits))
                 = (8 * length datos_bits)%nat).
  { induction Hbytes as [|b bs Hb _ IH]; [done|].
    cbn [fmap list_fmap concat length]. rewrite length_app.
    change (list_fmap Z (list ascii) format_08b bs) with (format_08b <$> bs).
    rewrite IH, format_08b_length by done. lia. }
  set (bits := if decide _ then _ else _).
  assert (Hbits : (length bits <= 8 * length datos_bits)%nat).
  { unfold bits. case_decide; [rewrite length_take|]; lia. }
  destruct (decodificar_fold (invertir tabla') bits [] [])
    as (nuevos & -> & _ & Hn).
  cbn [length app]. lia.
Qed.

End HuffmanMore.

Lemma descomprimir_longitud_witness :
  Forall (fun b => 0 <= b < 256) [4; 224]
  /\ (length (descomprimir [4%Z; 224%Z]
                [("B"%char, str "0"); ("A"%char, str "1")])
      <= 8 * (length [4%Z; 224%Z] - 1))%nat.
Proof.
  assert (Hb : Forall (fun b => 0 <= b < 256) [4; 224]).
  { repeat constructor; lia. }
  split; [exact Hb|].
  exact (descomprimir_longitud [4; 224]
           [("B"%char, str "0"); ("A"%char, str "1")] Hb).
Defined.

End HuffmanMore.

(** ** The hexadecimal form of a hash *)

Module HexMore.

Import FNV1Hash RSA.

Lemma int_hex_digits_loop_uint d acc :
  int_hex_digits_loop acc
    (list_ascii_of_string (NilEmpty.string_of_uint d))
  = Some (acc * 16 ^ Z.of_N (HexadecimalPos.Unsigned.usize d)
          + Z.of_N (Pos.of_hex_uint d)).
Proof.
  revert acc.
  induction d as [|d IH|d IH|d IH|d IH|d IH|d IH|d IH|d IH|d IH|d IH|d IH
                  |d IH|d IH|d IH|d IH|d IH]; intros acc;
    [simpl; f_equal; lia|..];
    cbn [NilEmpty.string_of_uint list_ascii_of_string int_hex_digits_loop];
    match goal with
    | |- context [hex_digit ?c] =>
        let v := eval vm_compute in (hex_digit c) in
        change (hex_digit c) with v
    end;
    cbv beta iota; rewrite IH; f_equal;
    cbn [HexadecimalPos.Unsigned.usize Pos.of_hex_uint];
    rewrite ?HexadecimalPos.Unsigned.of_uint_acc_rev,
      ?HexadecimalPos.Unsigned.of_uint_alt;
    rewrite ?N2Z.inj_add, ?N2Z.inj_mul, ?N2Z.inj_pow, N2Z.inj_succ;
    rewrite Z.pow_succ_r by lia; simpl Z.of_N; lia.
Qed.

(** Parsing the hexadecimal form of a nonnegative number gives the number
    back: [int(format(h, 'x'), 16) == h]. *)
Lemma int_hex_digits_format_x h :
  0 <= h -> int_hex_digits (format_x h) = Some h.
Proof.
  intros Hh. unfold format_x, int_hex_digits.
  destruct h as [|p|p]; [done| |lia].
  cbn [Z.to_hex_int NilZero.string_of_int].
  pose proof (HexadecimalPos.Unsigned.to_uint_nonnil p) as Hnil.
  pose proof (HexadecimalPos.Unsigned.of_to p) as Hof.
  pose proof (int_hex_digits_loop_uint (Pos.to_hex_uint p) 0) as Hloop.
  destruct (Pos.to_hex_uint p) eqn:Hd; [done|..];
    (cbn [NilZero.string_of_uint];
     destruct (list_ascii_of_string (NilEmpty.string_of_uint _)) eqn:Hs;
     [discriminate Hs|];
     rewrite Hloop, Hof; f_equal; lia).
Qed.

End HexMore.

(** ** More on the toy RSA: Euclid, inverses, key generation *)

Module RSAMore.

Import RSA RSAProps.

(** [X10] [calcular_mcd] on arbitrary integers: with [b = 0] the loop is not
    entered and [a] is returned as it is; otherwise the result is the
    greatest common divisor carrying the sign of [b]. *)
Theorem calcular_mcd_signo a b :
  calcular_mcd a b = if decide (b = 0) then a else Z.sgn b * Z.gcd a b.
Proof.
  funelim (calcular_mcd a b).
  - by rewrite decide_True.
  - rewrite decide_False by done. rewrite H.
    destruct (decide (a mod b = 0)) as [Hmod|Hmod].
    + apply Z.mod_divide in Hmod; [|done].
      apply Z.divide_abs_l, Z.divide_gcd_iff in Hmod; [|lia].
      rewrite Z.gcd_abs_l in Hmod. rewrite Z.gcd_comm, Hmod.
      destruct (Z.lt_trichotomy b 0) as [?|[?|?]]; [|done|].
      * rewrite Z.sgn_neg, Z.abs_neq by lia. lia.
      * rewrite Z.sgn_pos, Z.abs_eq by lia. lia.
    + rewrite (Z.gcd_comm b), Z.gcd_mod, (Z.gcd_comm b) by done. f_equal.
      destruct (Z.lt_trichotomy b 0) as [?|[?|?]]; [|done|].
      * pose proof (Z.mod_neg_bound a b ltac:(lia)).
        rewrite !Z.sgn_neg by lia. done.
      * pose proof (Z.mod_pos_bound a b ltac:(lia)).
        rewrite !Z.sgn_pos by lia. done.
Qed.

(** [son_coprimos] on a candidate exponent [e >= 17]: it holds exactly
    when the second argument is positive and coprime with [e]. *)
Lemma son_coprimos_positivo e phi :
  2 <= e -> son_coprimos e phi = true <-> 0 < phi /\ Z.gcd e phi = 1.
Proof.
  intros He. unfold son_coprimos. rewrite bool_decide_eq_true, calcular_mcd_signo.
  case_decide as Hphi; [lia|].
  pose proof (Z.gcd_nonneg e phi).
  destruct (Z.lt_trichotomy phi 0) as [?|[?|?]]; [|done|].
  - rewrite Z.sgn_neg by done. lia.
  - rewrite Z.sgn_pos by done. lia.
Qed.



(** *** The search for [e] *)

Lemma buscar_e_minimo fuel e phi e' :
  buscar_e fuel e phi = Ok e' ->
  forall k, 0 <= k -> e + 2 * k < e' -> son_coprimos (e + 2 * k) phi = false.
Proof.
  revert e. induction fuel as [|fuel IH]; intros e; simpl;
    destruct (son_coprimos e phi) eqn:Hco; intros Hres k Hk Hlt; simplify_eq;
    [lia..|].
  destruct (decide (k = 0)) as [->|Hk0].
  - by rewrite Z.mul_0_r, Z.add_0_r.
  - replace (e + 2 * k) with (e + 2 + 2 * (k - 1)) by lia.
    apply (IH _ Hres); lia.
Qed.

Lemma buscar_e_no_raise fuel e phi err : buscar_e fuel e phi ≠ Raise err.
Proof.
  revert e. induction fuel as [|fuel IH]; intros e; simpl;
    destruct (son_coprimos e phi); try done.
Qed.

Lemma buscar_e_sin_candidato fuel e phi :
  2 <= e -> phi <= 0 -> buscar_e fuel e phi = OutOfFuel.
Proof.
  revert e. induction fuel as [|fuel IH]; intros e He Hphi; simpl;
    destruct (son_coprimos e phi) eqn:Hco;
    try (apply son_coprimos_positivo in Hco; lia); [done|].
  apply IH; lia.
Qed.

(** [X12] What [generar_claves] returns, for any two integers on which it
    returns: both keys carry [n = p * q]; the object holds the two keys and
    [n]; [(p - 1) * (q - 1)] is positive; [e] is the least odd number from
    17 on that is coprime with it; and [d] is the inverse of [e] in
    [0, phi). *)
Theorem generar_claves_invariante fuel self p q pub priv st :
  generar_claves fuel self p q = Ok (pub, priv, st) ->
  exists e d,
    pub = (e, p * q) /\ priv = (d, p * q)
    /\ clave_publica st = Some pub /\ clave_privada st = Some priv
    /\ n st = Some (p * q)
    /\ 0 < funcion_totiente_euler p q
    /\ 17 <= e /\ Z.odd e = true /\ Z.gcd e (funcion_totiente_euler p q) = 1
    /\ (forall e', 17 <= e' < e -> Z.odd e' = true ->
                   Z.gcd e' (funcion_totiente_euler p q) ≠ 1)
    /\ 0 <= d < funcion_totiente_euler p q
    /\ (e * d) mod funcion_totiente_euler p q
       = 1 mod funcion_totiente_euler p q.
Proof.
  unfold generar_claves. set (phi := funcion_totiente_euler p q).
  destruct (buscar_e fuel 17 phi) as [e| |] eqn:He; [|done..].
  destruct (buscar_e_spec _ _ _ _ He) as (Hco & k & Hk & ->).
  pose proof (buscar_e_minimo _ _ _ _ He) as Hmin.
  apply son_coprimos_positivo in Hco as [Hphi Hgcd]; [|lia].
  destruct (modular_inverse_spec (17 + 2 * k) phi) as (d & Hd & Hrange & Hinv);
    [lia|done|done|].
  simpl. rewrite Hd. simpl. intros [= <- <- <-].
  exists (17 + 2 * k), d. simpl. split_and!; try done; try lia.
  - by rewrite Z.odd_add_mul_2.
  - intros e' He' Hodd Hgcd'.
    assert (Hk' : exists k', 0 <= k' /\ e' = 17 + 2 * k').
    { exists ((e' - 17) / 2). rewrite Zodd_mod in Hodd.
      apply Z.eqb_eq in Hodd.
      pose proof (Z.div_mod e' 2 ltac:(lia)) as Hdm.
      pose proof (Z.div_mod (e' - 17) 2 ltac:(lia)) as Hdm'.
      pose proof (Z.mod_pos_bound (e' - 17) 2 ltac:(lia)).
      assert ((e' - 17) mod 2 = 0).
      { replace (e' - 17) with (2 * (e' / 2 - 8)) by lia.
        by rewrite Z.mul_comm, Z.mod_mul. }
      split; [apply Z.div_pos; lia|lia]. }
    destruct Hk' as (k' & Hk' & ->).
    specialize (Hmin k' Hk' ltac:(lia)).
    assert (son_coprimos (17 + 2 * k') phi = true); [|congruence].
    apply son_coprimos_positivo; [lia|done].
Qed.

Lemma generar_claves_invariante_witness :
  generar_claves 0 init 61 53 = Ok ((17, 3233), (2753, 3233), claves_61_53)
  /\ exists e d,
      (17, 3233) = (e, 61 * 53) /\ (2753, 3233) = (d, 61 * 53)
      /\ Z.gcd e (funcion_totiente_euler 61 53) = 1
      /\ (e * d) mod funcion_totiente_euler 61 53
         = 1 mod funcion_totiente_euler 61 53.
Proof.
  split; [exact generar_claves_61_53|].
  destruct (generar_claves_invariante 0 init 61 53 _ _ _ generar_claves_61_53)
    as (e & d & Hpub & Hpriv & _ & _ & _ & _ & _ & _ & Hgcd & _ & _ & Hinv).
  by exists e, d.
Defined.

(** [X13] [generar_claves] never raises. Its search for [e] ends exactly when
    [(p - 1) * (q - 1)] is positive: then [4 * phi] turns are enough, and
    otherwise no number of turns is. *)
Theorem generar_claves_termina self p q :
  (0 < funcion_totiente_euler p q ->
   forall fuel,
     (Z.to_nat (4 * funcion_totiente_euler p q) <= fuel)%nat ->
     exists pub priv st, generar_claves fuel self p q = Ok (pub, priv, st))
  /\ (funcion_totiente_euler p q <= 0 ->
      forall fuel, generar_claves fuel self p q = OutOfFuel)
  /\ (forall fuel err, generar_claves fuel self p q ≠ Raise err).
Proof.
  unfold generar_claves. set (phi := funcion_totiente_euler p q).
  split; [|split].
  - intros Hphi fuel Hfuel.
    destruct (buscar_e_total fuel 17 phi (Z.to_nat (4 * phi - 8))) as [e He].
    { lia. }
    { apply son_coprimos_positivo; [lia|]. split; [done|].
      destruct (decide (phi = 1)) as [->|Hne]; [done|].
      replace (17 + 2 * Z.of_nat (Z.to_nat (4 * phi - 8))) with (1 + 8 * phi)
        by lia.
      rewrite Z.gcd_comm, Z.gcd_add_mult_diag_r. apply Z.gcd_1_r. }
    rewrite He. simpl.
    destruct (buscar_e_spec _ _ _ _ He) as (Hco & k & Hk & ->).
    apply son_coprimos_positivo in Hco as [_ Hgcd]; [|lia].
    destruct (modular_inverse_spec (17 + 2 * k) phi) as (d & -> & _);
      [lia|done|done|].
    simpl. eauto.
  - intros Hphi fuel. by rewrite buscar_e_sin_candidato by lia.
  - intros fuel err.
    destruct (buscar_e fuel 17 phi) as [e| |] eqn:He; simpl; [| |done].
    + destruct (buscar_e_spec _ _ _ _ He) as (Hco & k & Hk & ->).
      apply son_coprimos_positivo in Hco as [Hphi Hgcd]; [|lia].
      destruct (modular_inverse_spec (17 + 2 * k) phi) as (d & -> & _);
        [lia|done|done|].
      done.
    + by destruct (buscar_e_no_raise _ _ _ _ He).
Qed.

Lemma generar_claves_termina_witness :
  0 < funcion_totiente_euler 3 5
  /\ (Z.to_nat (4 * funcion_totiente_euler 3 5) <= 32)%nat
  /\ (exists pub priv st, generar_claves 32 init 3 5 = Ok (pub, priv, st))
  /\ funcion_totiente_euler 1 5 <= 0
  /\ generar_claves 32 init 1 5 = OutOfFuel.
Proof.
  destruct (generar_claves_termina init 3 5) as [Hok _].
  destruct (generar_claves_termina init 1 5) as (_ & Hdiv & _).
  split; [done|]. split; [by vm_compute|].
  split; [apply Hok; [done|by vm_compute]|].
  split; [done|]. by apply Hdiv.
Defined.

(** *** Signatures *)

Section FirmaMore.
Variable int_base16 : list ascii -> option Z.

(** [X14] With the keys of two distinct primes, a signature lies in [0, n), and
    a hash verifies against its own signature exactly when it lies in
    [0, n): a hash of [n] or more is always rejected. *)
Theorem verificar_propia_firma fuel self p q pub priv st hash_value h :
  Z.prime p -> Z.prime q -> p ≠ q ->
  generar_claves fuel self p q = Ok (pub, priv, st) ->
  hash_num int_base16 hash_value = Ok h ->
  exists firma,
    firmar_hash int_base16 st hash_value = Ok firma
    /\ 0 <= firma < p * q
    /\ verificar_firma int_base16 st hash_value firma
       = Ok (bool_decide (0 <= h < p * q)).
Proof.
  intros Hp Hq Hne Hgen Hh.
  destruct (verificar_firmar int_base16 fuel self p q pub priv st
              hash_value hash_value h h Hp Hq Hne Hgen Hh Hh)
    as (firma & Hf & Hrange & Hv).
  exists firma. split_and!; [done|lia|lia|]. rewrite Hv. f_equal.
  pose proof (Z.prime_ge_2 _ Hp). pose proof (Z.prime_ge_2 _ Hq).
  pose proof (Z.mod_pos_bound h (p * q) ltac:(nia)).
  apply bool_decide_ext. split.
  - intros ->. done.
  - intros ?. by rewrite Z.mod_small.
Qed.

(** [X15] The two primes must be distinct: with [q = p], the hash [p] does not
    verify against its own signature. *)
Theorem primos_iguales_falla fuel self p pub priv st :
  Z.prime p ->
  generar_claves fuel self p p = Ok (pub, priv, st) ->
  exists firma,
    firmar_hash int_base16 st (HashInt p) = Ok firma
    /\ verificar_firma int_base16 st (HashInt p) firma = Ok false.
Proof.
  intros Hp Hgen. pose proof (Z.prime_ge_2 _ Hp) as Hp2.
  destruct (generar_claves_invariante _ _ _ _ _ _ _ Hgen)
    as (e & d & -> & -> & Hpub & Hpriv & _ & _ & He & _ & _ & _ & Hd & _).
  unfold firmar_hash, verificar_firma. rewrite Hpub, Hpriv. simpl.
  assert (Hn : p * p ≠ 0) by nia.
  rewrite pow3_nonneg by lia. simpl.
  eexists. split; [done|].
  rewrite pow3_nonneg by lia. simpl. f_equal.
  apply bool_decide_eq_false.
  rewrite Z.mod_pow_l, <- Z.pow_mul_r by lia.
  destruct (decide (d = 0)) as [->|Hd0].
  - rewrite Z.mul_0_l, Z.pow_0_r, Z.mod_1_l by nia. lia.
  - replace (d * e) with (2 + (d * e - 2)) by lia.
    rewrite Z.pow_add_r by nia.
    replace (p ^ 2) with (p * p) by lia.
    rewrite Z.mul_comm, Z.mod_mul by done. lia.
Qed.

End FirmaMore.

Lemma verificar_propia_firma_witness :
  Z.prime 61 /\ Z.prime 53 /\ 61 ≠ 53
  /\ generar_claves 0 init 61 53 = Ok ((17, 3233), (2753, 3233), claves_61_53)
  /\ hash_num int_hex_digits (HashInt 4000) = Ok 4000
  /\ exists firma,
       firmar_hash int_hex_digits claves_61_53 (HashInt 4000) = Ok firma
       /\ 0 <= firma < 61 * 53
       /\ verificar_firma int_hex_digits claves_61_53 (HashInt 4000) firma
          = Ok (bool_decide (0 <= 4000 < 61 * 53)).
Proof.
  split; [exact primo_61|]. split; [exact primo_53|]. split; [done|].
  split; [exact generar_claves_61_53|]. split; [done|].
  exact (verificar_propia_firma int_hex_digits 0 init 61 53 _ _ _
           (HashInt 4000) 4000 primo_61 primo_53 ltac:(done)
           generar_claves_61_53 eq_refl).
Defined.

Lemma primos_iguales_falla_witness :
  Z.prime 3
  /\ generar_claves 0 init 3 3
     = Ok ((17, 9), (1, 9),
           {| clave_publica := Some (17, 9); clave_privada := Some (1, 9);
              n := Some 9 |})
  /\ exists firma,
       firmar_hash int_hex_digits
         {| clave_publica := Some (17, 9); clave_privada := Some (1, 9);
            n := Some 9 |} (HashInt 3) = Ok firma
       /\ verificar_firma int_hex_digits
            {| clave_publica := Some (17, 9); clave_privada := Some (1, 9);
               n := Some 9 |} (HashInt 3) firma = Ok false.
Proof.
  split; [exact Z.prime_3|].
  assert (Hgen : generar_claves 0 init 3 3
                 = Ok ((17, 9), (1, 9),
                       {| clave_publica := Some (17, 9);
                          clave_privada := Some (1, 9); n := Some 9 |}))
    by by vm_compute.
  split; [exact Hgen|].
  exact (primos_iguales_falla int_hex_digits 0 init 3 _ _ _ Z.prime_3 Hgen).
Defined.

End RSAMore.

(** ** Signing the hexadecimal hash *)

Module HashFirma.

Import FNV1Hash RSA FNV1HashMore HexMore.

Section HashFirma.
Variable int_base16 : list ascii -> option Z.

(** [int(s, 16)] reads back what [format(h, 'x')] writes. *)
Hypothesis int_base16_format_x :
  forall h, 0 <= h -> int_base16 (format_x h) = Some h.

(** [X16] The string that [hash_hex] returns stands for the number that [hash]
    returns: signing or verifying the one is signing or verifying the
    other. *)
Theorem firmar_hash_hex bits self d (st : RSA.t) firma :
  FNV1Hash.init bits = Ok self ->
  match d with
  | Bytes b => Forall (fun x => 0 <= x < 256) b
  | Str s => Forall (fun c => 0 <= c < 0x110000 /\ ¬ 0xD800 <= c <= 0xDFFF) s
  end ->
  exists h s,
    hash self d = Ok h /\ hash_hex self d = Ok s
    /\ firmar_hash int_base16 st (HashStr s)
       = firmar_hash int_base16 st (HashInt h)
    /\ verificar_firma int_base16 st (HashStr s) firma
       = verificar_firma int_base16 st (HashInt h) firma.
Proof.
  intros Hinit Hd.
  assert (Hh : exists h, hash self d = Ok h /\ 0 <= h).
  { unfold hash. destruct d as [b|s].
    - simpl. eexists. split; [done|].
      by apply (hash_bytes_en_rango bits).
    - destruct (encode_utf8_bytes s Hd) as (bytes & -> & Hbytes). simpl.
      eexists. split; [done|]. by apply (hash_bytes_en_rango bits). }
  destruct Hh as (h & Hh & Hpos). exists h, (format_x h).
  split; [done|]. split; [unfold hash_hex; by rewrite Hh|].
  unfold firmar_hash, verificar_firma, hash_num.
  by rewrite int_base16_format_x.
Qed.

End HashFirma.

Lemma firmar_hash_hex_witness :
  (forall h, 0 <= h -> int_hex_digits (format_x h) = Some h)
  /\ FNV1Hash.init 32 = Ok {| FNV_prime := 16777619;
                              FNV_offset_basis := 2166136261;
                              mask := 0xFFFFFFFF |}
  /\ Forall (fun c => 0 <= c < 0x110000 /\ ¬ 0xD800 <= c <= 0xDFFF) [72; 105]
  /\ exists h s,
       hash {| FNV_prime := 16777619; FNV_offset_basis := 2166136261;
               mask := 0xFFFFFFFF |} (Str [72; 105]) = Ok h
       /\ hash_hex {| FNV_prime := 16777619; FNV_offset_basis := 2166136261;
                      mask := 0xFFFFFFFF |} (Str [72; 105]) = Ok s
       /\ firmar_hash int_hex_digits claves_61_53 (HashStr s)
          = firmar_hash int_hex_digits claves_61_53 (HashInt h)
       /\ verificar_firma int_hex_digits claves_61_53 (HashStr s) 5
          = verificar_firma int_hex_digits claves_61_53 (HashInt h) 5.
Proof.
  assert (Hs : Forall (fun c => 0 <= c < 0x110000 /\ ¬ 0xD800 <= c <= 0xDFFF)
                      [72; 105]).
  { repeat constructor; lia. }
  split; [exact int_hex_digits_format_x|]. split; [exact init_32|].
  split; [exact Hs|].
  exact (firmar_hash_hex int_hex_digits int_hex_digits_format_x 32 _
           (Str [72; 105]) claves_61_53 5 init_32 Hs).
Defined.

End HashFirma.

(** ** The menu-driven system *)

Module SistemaProps.

Import FNV1Hash HuffmanCompressor HuffmanSpec RSA SistemaMensajesSeguros.
Import FNV1HashMore HuffmanProps RSAProps.

Lemma init_inicial : SistemaMensajesSeguros.init = Ok inicial.
Proof. reflexivity. Qed.

Lemma fnv_inicial : FNV1Hash.init 32 = Ok (fnv inicial).
Proof. reflexivity. Qed.

(** A message without lone surrogates has a 32-bit hash. *)
Lemma hash_mensaje_valido m :
  Forall (fun c => 0 <= c < 0x110000 /\ ¬ 0xD800 <= c <= 0xDFFF) m ->
  exists h,
    hash (fnv inicial) (Str m) = Ok h /\ 0 <= h < 2 ^ 32
    /\ hash_hex (fnv inicial) (Str m) = Ok (format_x h).
Proof.
  intros Hm. unfold hash_hex, hash.
  destruct (encode_utf8_bytes m Hm) as (bytes & -> & Hbytes). simpl.
  eexists. split; [done|]. split; [|done].
  by apply (hash_bytes_en_rango 32).
Qed.

Lemma format_x_no_vacio h : format_x h ≠ [].
Proof.
  unfold format_x. destruct h as [|p|p]; [done| |done].
  cbn [Z.to_hex_int NilZero.string_of_int].
  by destruct (Pos.to_hex_uint p).
Qed.

(** With the default primes the keys are always the same. *)
Lemma generar_claves_defecto fuel self :
  generar_claves fuel self 61 53
  = Ok ((17, 3233), (2753, 3233), claves_61_53).
Proof. destruct fuel; by vm_compute. Qed.

(** Raising a signature to the public exponent gives the hash back,
    modulo [n]. *)
Lemma firma_defecto h : (h ^ 2753 mod 3233) ^ 17 mod 3233 = h mod 3233.
Proof.
  rewrite <- Zpower_mod by lia. rewrite <- Z.pow_mul_r by lia.
  apply (rsa_identidad 61 53 17 2753 h primo_61 primo_53); done.
Qed.

Lemma firma_nula h : 0 <= h -> h ^ 2753 mod 3233 = 0 <-> h mod 3233 = 0.
Proof.
  intros Hh. split; intros Hz.
  - rewrite <- firma_defecto, Hz. done.
  - rewrite Zpower_mod by lia. rewrite Hz. done.
Qed.

Section SistemaProps.
Variable int_base16 : list ascii -> option Z.
Variable fuel : nat.

(** [int(s, 16)] reads back what [format(h, 'x')] writes. *)
Hypothesis int_base16_format_x :
  forall h, 0 <= h -> int_base16 (format_x h) = Some h.

(** *** The steps one by one *)

Lemma calcular_hash_ok self m hx :
  mensaje_original self = m -> m ≠ [] ->
  hash_hex (fnv self) (Str m) = Ok hx ->
  calcular_hash self = (set_hash_mensaje (Some hx) self, Ok tt).
Proof.
  intros Hm Hne Hh. unfold calcular_hash. rewrite Hm, Hh.
  by destruct m.
Qed.

Lemma comprimir_mensaje_ok self m blob tabla hf :
  mensaje_original self = m -> m ≠ [] ->
  comprimir (huffman self) m = Ok (blob, tabla, hf) ->
  comprimir_mensaje self
  = (set_codigos_huffman (Some tabla)
       (set_mensaje_comprimido (Some blob) (set_huffman hf self)), Ok tt).
Proof.
  intros Hm Hne Hc. unfold comprimir_mensaje. rewrite Hm, Hc.
  by destruct m.
Qed.

Lemma firmar_hash_ok self h :
  hash_mensaje self = Some (format_x h) -> 0 <= h ->
  SistemaMensajesSeguros.firmar_hash int_base16 fuel self
  = (set_firma_digital (Some (h ^ 2753 mod 3233))
       (set_clave_publica (Some (17, 3233)) (set_rsa claves_61_53 self)),
     Ok tt).
Proof.
  intros Hh Hpos. unfold SistemaMensajesSeguros.firmar_hash. rewrite Hh.
  assert (vacio (Some (format_x h)) = false) as ->.
  { pose proof (format_x_no_vacio h). by destruct (format_x h). }
  rewrite generar_claves_defecto. cbn [llamar].
  cbn [hash_mensaje set_clave_publica set_rsa rsa]. rewrite Hh. cbn [default].
  unfold RSA.firmar_hash, claves_61_53. cbn [RSA.clave_privada hash_num].
  unfold id. rewrite int_base16_format_x by done.
  rewrite bind_Ok, pow3_nonneg by done. done.
Qed.

Lemma simular_envio_ok self blob f k :
  mensaje_comprimido self = Some blob -> blob ≠ [] ->
  firma_digital self = Some f -> f ≠ 0 ->
  clave_publica self = Some k ->
  simular_envio self
  = (set_codigos_huffman_recibidos (Some (codigos_huffman self))
       (set_clave_publica_recibida (Some k)
          (set_firma_recibida (Some f)
             (set_mensaje_recibido (Some blob) self))), Ok tt).
Proof.
  intros Hb Hne Hf Hf0 Hk. unfold simular_envio. rewrite Hb, Hf, Hk.
  destruct blob; [done|]. cbn [vacio nulo ausente].
  rewrite bool_decide_eq_false_2 by done. simpl. by rewrite ?Hf, ?Hk.
Qed.

Lemma simular_envio_firma_nula self :
  firma_digital self = Some 0 -> simular_envio self = (self, Ok tt).
Proof.
  intros Hf. unfold simular_envio. rewrite Hf. cbn [nulo].
  rewrite bool_decide_eq_true_2 by done. by rewrite orb_true_r.
Qed.

Lemma descomprimir_verificar_sin_envio self :
  mensaje_recibido self = None ->
  descomprimir_verificar int_base16 self = (self, Ok tt).
Proof.
  intros Hm. unfold SistemaMensajesSeguros.descomprimir_verificar.
  by rewrite Hm.
Qed.

Lemma descomprimir_verificar_ok self blob f e n tabla h' :
  mensaje_recibido self = Some blob -> blob ≠ [] ->
  firma_recibida self = Some f -> f ≠ 0 ->
  clave_publica_recibida self = Some (e, n) -> n ≠ 0 -> 0 <= e ->
  codigos_huffman_recibidos self = Some (Some tabla) ->
  hash (fnv self) (Str (descomprimir blob tabla)) = Ok h' -> 0 <= h' ->
  descomprimir_verificar int_base16 self
  = (set_mensaje_verificado (Some (descomprimir blob tabla))
       (set_verificacion_final (Some (bool_decide (h' = f ^ e mod n)))
          (set_rsa {| RSA.clave_publica := Some (e, n);
                      RSA.clave_privada := RSA.clave_privada (rsa self);
                      RSA.n := RSA.n (rsa self) |} self)), Ok tt).
Proof.
  intros Hb Hne Hf Hf0 Hk Hn He Ht Hh Hh'.
  unfold SistemaMensajesSeguros.descomprimir_verificar.
  rewrite Hb, Hf, Hk, Ht. destruct blob as [|b blob]; [done|].
  cbn [vacio nulo ausente]. rewrite bool_decide_eq_false_2 by done.
  cbn [orb from_option id]. unfold hash_hex. rewrite Hh, bind_Ok. cbn [llamar].
  cbn [set_rsa rsa firma_recibida]. rewrite Hf. cbn [from_option id].
  unfold RSA.verificar_firma. cbn [RSA.clave_publica hash_num].
  rewrite int_base16_format_x by done.
  rewrite bind_Ok, pow3_nonneg by done. done.
Qed.

(** *** The dispatch of [ejecutar] *)

Lemma ejecutar_1 entrada entradas self :
  ejecutar int_base16 fuel ([49] :: entrada :: entradas) self
  = ejecutar int_base16 fuel entradas (set_mensaje_original entrada self).
Proof. reflexivity. Qed.

Lemma ejecutar_2 entradas self :
  ejecutar int_base16 fuel ([50] :: entradas) self
  = ejecutar int_base16 fuel entradas (calcular_hash self).1.
Proof. reflexivity. Qed.

Lemma ejecutar_3 entradas self :
  ejecutar int_base16 fuel ([51] :: entradas) self
  = ejecutar int_base16 fuel entradas (comprimir_mensaje self).1.
Proof. reflexivity. Qed.

Lemma ejecutar_4 entradas self :
  ejecutar int_base16 fuel ([52] :: entradas) self
  = ejecutar int_base16 fuel entradas
      (SistemaMensajesSeguros.firmar_hash int_base16 fuel self).1.
Proof. reflexivity. Qed.

Lemma ejecutar_5 entradas self :
  ejecutar int_base16 fuel ([53] :: entradas) self
  = ejecutar int_base16 fuel entradas (simular_envio self).1.
Proof. reflexivity. Qed.

Lemma ejecutar_6 entradas self :
  ejecutar int_base16 fuel ([54] :: entradas) self
  = ejecutar int_base16 fuel entradas
      (descomprimir_verificar int_base16 self).1.
Proof. reflexivity. Qed.

Lemma ejecutar_8 entradas self :
  ejecutar int_base16 fuel ([56] :: entradas) self = (self, Salida).
Proof. reflexivity. Qed.

(** *** Compress, sign, send, verify *)

(** The steps 3 to 6 on an object that holds a message of at least two
    distinct symbols and the hexadecimal form of a hash [h1]: when the
    signature of [h1] is not zero, the message comes back, and the verdict
    is whether its own hash is [h1] reduced modulo [n = 3233]. *)
Lemma pasos_3_a_6 self m h1 entradas :
  mensaje_original self = m -> fnv self = fnv inicial ->
  hash_mensaje self = Some (format_x h1) -> 0 <= h1 ->
  h1 mod 3233 ≠ 0 ->
  Forall (fun c => 0 <= c < 0x110000 /\ ¬ 0xD800 <= c <= 0xDFFF) m ->
  dos_simbolos m ->
  exists h2 final,
    hash (fnv inicial) (Str m) = Ok h2
    /\ ejecutar int_base16 fuel ([51] :: [52] :: [53] :: [54] :: entradas) self
       = ejecutar int_base16 fuel entradas final
    /\ mensaje_original final = m
    /\ hash_mensaje final = Some (format_x h1)
    /\ firma_digital final = Some (h1 ^ 2753 mod 3233)
    /\ mensaje_verificado final = Some m
    /\ verificacion_final final = Some (bool_decide (h2 = h1 mod 3233)).
Proof.
  intros Hm Hfnv Hh1 Hpos Hnz Hval Hdos.
  assert (Hne : m ≠ []).
  { destruct Hdos as (a & _ & Ha & _). intros ->. by apply elem_of_nil in Ha. }
  destruct (hash_mensaje_valido m Hval) as (h2 & Hh2 & Hr2 & _).
  destruct (comprimir_spec (huffman self) m Hne)
    as (raiz & payload & Hc & _).
  cbv zeta in Hc.
  destruct (comprimir_descomprimir_dos_simbolos (huffman self) m Hdos)
    as (blob & tabla & hf & Hc' & Hd).
  rewrite Hc in Hc'. injection Hc' as <- <- <-.
  set (blob := _ :: payload) in *. set (tabla := hojas raiz) in *.
  assert (Hf0 : h1 ^ 2753 mod 3233 ≠ 0) by by rewrite firma_nula.
  exists h2. eexists. split; [done|].
  rewrite ejecutar_3, (comprimir_mensaje_ok self m _ _ _ Hm Hne Hc).
  cbn [fst]. set (s3 := set_codigos_huffman _ _).
  rewrite ejecutar_4, (firmar_hash_ok s3 h1) by done.
  cbn [fst]. set (s4 := set_firma_digital _ _).
  rewrite ejecutar_5,
    (simular_envio_ok s4 blob (h1 ^ 2753 mod 3233) (17, 3233)) by done.
  cbn [fst]. set (s5 := set_codigos_huffman_recibidos _ _).
  rewrite ejecutar_6,
    (descomprimir_verificar_ok s5 blob (h1 ^ 2753 mod 3233) 17 3233 tabla h2);
    [|done|done|done|done|done|done|done|done| |lia].
  2:{ rewrite Hd. change (fnv s5) with (fnv self). by rewrite Hfnv. }
  cbn [fst]. split; [reflexivity|].
  rewrite Hd, firma_defecto. by repeat split.
Qed.

(** [X17] A whole session on a message of at least two distinct symbols: the
    options 1 to 6, then 8. The decompressed message is the message, and
    the signature is reported valid exactly when the 32-bit hash is below
    [n = 3233]; for a hash that is a multiple of [n] the signature is 0,
    which option 5 takes for a missing one, and nothing is sent. *)
Theorem sesion_dos_simbolos m :
  Forall (fun c => 0 <= c < 0x110000 /\ ¬ 0xD800 <= c <= 0xDFFF) m ->
  dos_simbolos m ->
  exists h final,
    hash (fnv inicial) (Str m) = Ok h /\ 0 <= h < 2 ^ 32
    /\ ejecutar int_base16 fuel
         [[49]; m; [50]; [51]; [52]; [53]; [54]; [56]] inicial
       = (final, Salida)
    /\ hash_mensaje final = Some (format_x h)
    /\ firma_digital final = Some (h ^ 2753 mod 3233)
    /\ if decide (h mod 3233 = 0)
       then mensaje_recibido final = None
            /\ mostrar_autenticidad final = PrimeroVerifique
       else mensaje_verificado final = Some m
            /\ verificacion_final final = Some (bool_decide (h < 3233))
            /\ mostrar_autenticidad final
               = if bool_decide (h < 3233) then Autentico (Some m)
                 else Alterado.
Proof.
  intros Hval Hdos.
  assert (Hne : m ≠ []).
  { destruct Hdos as (a & _ & Ha & _). intros ->. by apply elem_of_nil in Ha. }
  destruct (hash_mensaje_valido m Hval) as (h & Hh & Hr & Hhex).
  exists h. rewrite ejecutar_1. set (s1 := set_mensaje_original m inicial).
  rewrite ejecutar_2, (calcular_hash_ok s1 m (format_x h)) by done.
  cbn [fst]. set (s2 := set_hash_mensaje _ s1).
  destruct (decide (h mod 3233 = 0)) as [Hz|Hnz].
  - destruct (comprimir_spec (huffman s2) m Hne)
      as (raiz & payload & Hc & _).
    cbv zeta in Hc.
    rewrite ejecutar_3, (comprimir_mensaje_ok s2 m _ _ _ eq_refl Hne Hc).
    cbn [fst]. set (s3 := set_codigos_huffman _ _).
    rewrite ejecutar_4, (firmar_hash_ok s3 h) by (done || lia).
    cbn [fst]. set (s4 := set_firma_digital _ _).
    assert (Hf0 : h ^ 2753 mod 3233 = 0) by (apply firma_nula; [lia|done]).
    rewrite ejecutar_5, (simular_envio_firma_nula s4)
      by (cbn; by rewrite Hf0).
    cbn [fst].
    rewrite ejecutar_6, (descomprimir_verificar_sin_envio s4) by done.
    cbn [fst]. rewrite ejecutar_8.
    eexists. split; [done|]. split; [done|]. split; [done|].
    by repeat split.
  - destruct (pasos_3_a_6 s2 m h [[56]] eq_refl eq_refl eq_refl
                ltac:(lia) Hnz Hval Hdos)
      as (h2 & final & Hh2 & Hrun & _ & Hhash & Hfirma & Hmv & Hvf).
    rewrite Hh in Hh2. injection Hh2 as <-.
    exists final. split; [done|]. split; [done|].
    rewrite Hrun, ejecutar_8. split; [done|]. split; [done|].
    split; [done|]. split; [done|].
    assert (Hbd : bool_decide (h = h mod 3233) = bool_decide (h < 3233)).
    { apply bool_decide_ext. split.
      - intros ->. apply Z.mod_pos_bound. lia.
      - intros ?. by rewrite Z.mod_small by lia. }
    rewrite Hbd in Hvf. split; [done|].
    unfold mostrar_autenticidad. rewrite Hvf, Hmv.
    by destruct (bool_decide (h < 3233)).
Qed.


(** [X19] A whole session on a message that repeats one symbol: nothing comes
    back but the empty message, and the signature is never reported
    valid. *)
Theorem sesion_un_simbolo m a :
  Forall (fun c => 0 <= c < 0x110000 /\ ¬ 0xD800 <= c <= 0xDFFF) m ->
  un_simbolo m a ->
  exists h final,
    hash (fnv inicial) (Str m) = Ok h
    /\ ejecutar int_base16 fuel
         [[49]; m; [50]; [51]; [52]; [53]; [54]; [56]] inicial
       = (final, Salida)
    /\ mensaje_comprimido final = Some [0]
    /\ mostrar_autenticidad final ≠ Autentico (Some m)
    /\ if decide (h mod 3233 = 0)
       then mostrar_autenticidad final = PrimeroVerifique
       else mensaje_verificado final = Some []
            /\ verificacion_final final = Some false
            /\ mostrar_autenticidad final = Alterado.
Proof.
  intros Hval Hun. pose proof (proj1 Hun) as Hne.
  destruct (hash_mensaje_valido m Hval) as (h & Hh & Hr & Hhex).
  exists h. rewrite ejecutar_1. set (s1 := set_mensaje_original m inicial).
  rewrite ejecutar_2, (calcular_hash_ok s1 m (format_x h)) by done.
  cbn [fst]. set (s2 := set_hash_mensaje _ s1).
  destruct (comprimir_un_simbolo (huffman s2) m a Hun)
    as (_ & _ & _ & Hc & Hd).
  rewrite ejecutar_3, (comprimir_mensaje_ok s2 m _ _ _ eq_refl Hne Hc).
  cbn [fst]. set (s3 := set_codigos_huffman _ _).
  rewrite ejecutar_4, (firmar_hash_ok s3 h) by (done || lia).
  cbn [fst]. set (s4 := set_firma_digital _ _).
  destruct (decide (h mod 3233 = 0)) as [Hz|Hnz].
  - assert (Hf0 : h ^ 2753 mod 3233 = 0) by (apply firma_nula; [lia|done]).
    rewrite ejecutar_5, (simular_envio_firma_nula s4)
      by (cbn; by rewrite Hf0).
    cbn [fst].
    rewrite ejecutar_6, (descomprimir_verificar_sin_envio s4) by done.
    cbn [fst]. rewrite ejecutar_8.
    eexists. split; [done|]. split; [done|]. by repeat split.
  - assert (Hf0 : h ^ 2753 mod 3233 ≠ 0) by (rewrite firma_nula; [done|lia]).
    rewrite ejecutar_5,
      (simular_envio_ok s4 [0] (h ^ 2753 mod 3233) (17, 3233)) by done.
    cbn [fst]. set (s5 := set_codigos_huffman_recibidos _ _).
    rewrite ejecutar_6,
      (descomprimir_verificar_ok s5 [0] (h ^ 2753 mod 3233) 17 3233
         [(a, [])] 2166136261);
      [|done|done|done|done|done|done|done|done|by rewrite Hd|done].
    cbn [fst]. rewrite ejecutar_8, Hd.
    assert (Hbd : bool_decide
                    (2166136261 = (h ^ 2753 mod 3233) ^ 17 mod 3233) = false).
    { apply bool_decide_eq_false_2.
      pose proof (Z.mod_pos_bound ((h ^ 2753 mod 3233) ^ 17) 3233). lia. }
    rewrite Hbd.
    eexists. split; [done|]. split; [done|]. by repeat split.
Qed.

(** [X20] As long as no message is entered, no option changes the object. *)
Theorem sin_mensaje_sin_efecto entradas :
  [49] ∉ entradas ->
  (ejecutar int_base16 fuel entradas inicial).1 = inicial.
Proof.
  induction entradas as [|opcion entradas IH]; [done|].
  rewrite not_elem_of_cons. intros [Hne Hnin]. specialize (IH Hnin).
  cbn [ejecutar]. rewrite decide_False by done.
  repeat case_decide; done.
Qed.

(** [X21] A message with a lone surrogate cannot be hashed: option 2 raises
    and sets nothing, so nothing is signed, sent or verified, although the
    message is compressed. *)
Theorem sesion_surrogate m :
  Exists (fun c => 0xD800 <= c <= 0xDFFF) m ->
  exists final,
    calcular_hash (set_mensaje_original m inicial)
    = (set_mensaje_original m inicial, Raise UnicodeEncodeError)
    /\ ejecutar int_base16 fuel
         [[49]; m; [50]; [51]; [52]; [53]; [54]; [56]] inicial
       = (final, Salida)
    /\ hash_mensaje final = None /\ firma_digital final = None
    /\ mensaje_comprimido final ≠ None /\ mensaje_recibido final = None
    /\ mostrar_autenticidad final = PrimeroVerifique.
Proof.
  intros Hsur.
  assert (Hne : m ≠ []) by (intros ->; by apply Exists_nil in Hsur).
  set (s1 := set_mensaje_original m inicial).
  assert (Hcalc : calcular_hash s1 = (s1, Raise UnicodeEncodeError)).
  { unfold calcular_hash, hash_hex, hash. cbn [mensaje_original s1
      set_mensaje_original]. rewrite (encode_utf8_surrogate m Hsur).
    by destruct m. }
  rewrite ejecutar_1. fold s1. rewrite ejecutar_2, Hcalc. cbn [fst].
  destruct (comprimir_spec (huffman s1) m Hne)
    as (raiz & payload & Hc & _).
  cbv zeta in Hc.
  rewrite ejecutar_3, (comprimir_mensaje_ok s1 m _ _ _ eq_refl Hne Hc).
  cbn [fst]. eexists. split; [done|]. split; [reflexivity|].
  by repeat split.
Qed.

End SistemaProps.

Lemma sesion_dos_simbolos_witness :
  (forall h, 0 <= h -> int_hex_digits (format_x h) = Some h)
  /\ Forall (fun c => 0 <= c < 0x110000 /\ ¬ 0xD800 <= c <= 0xDFFF) [72; 105]
  /\ dos_simbolos [72; 105]
  /\ exists h final,
       hash (fnv inicial) (Str [72; 105]) = Ok h /\ 0 <= h < 2 ^ 32
       /\ ejecutar int_hex_digits 0
            [[49]; [72; 105]; [50]; [51]; [52]; [53]; [54]; [56]] inicial
          = (final, Salida)
       /\ hash_mensaje final = Some (format_x h)
       /\ firma_digital final = Some (h ^ 2753 mod 3233)
       /\ if decide (h mod 3233 = 0)
          then mensaje_recibido final = None
               /\ mostrar_autenticidad final = PrimeroVerifique
          else mensaje_verificado final = Some [72; 105]
               /\ verificacion_final final = Some (bool_decide (h < 3233))
               /\ mostrar_autenticidad final
                  = if bool_decide (h < 3233) then Autentico (Some [72; 105])
                    else Alterado.
Proof.
  assert (Hs : Forall (fun c => 0 <= c < 0x110000 /\ ¬ 0xD800 <= c <= 0xDFFF)
                      [72; 105]).
  { repeat constructor; lia. }
  assert (Hdos : dos_simbolos [72; 105]).
  { exists 72, 105. split; [by left|]. split; [right; by left|done]. }
  split; [exact HexMore.int_hex_digits_format_x|]. split; [exact Hs|].
  split; [exact Hdos|].
  exact (sesion_dos_simbolos int_hex_digits 0
           HexMore.int_hex_digits_format_x [72; 105] Hs Hdos).
Defined.


Lemma sesion_un_simbolo_witness :
  (forall h, 0 <= h -> int_hex_digits (format_x h) = Some h)
  /\ Forall (fun c => 0 <= c < 0x110000 /\ ¬ 0xD800 <= c <= 0xDFFF)
            [97; 97; 97]
  /\ un_simbolo [97; 97; 97] 97
  /\ exists h final,
       hash (fnv inicial) (Str [97; 97; 97]) = Ok h
       /\ ejecutar int_hex_digits 0
            [[49]; [97; 97; 97]; [50]; [51]; [52]; [53]; [54]; [56]] inicial
          = (final, Salida)
       /\ mensaje_comprimido final = Some [0]
       /\ mostrar_autenticidad final ≠ Autentico (Some [97; 97; 97])
       /\ if decide (h mod 3233 = 0)
          then mostrar_autenticidad final = PrimeroVerifique
          else mensaje_verificado final = Some []
               /\ verificacion_final final = Some false
               /\ mostrar_autenticidad final = Alterado.
Proof.
  assert (Hs : Forall (fun c => 0 <= c < 0x110000 /\ ¬ 0xD800 <= c <= 0xDFFF)
                      [97; 97; 97]).
  { repeat constructor; lia. }
  assert (Hun : un_simbolo [97; 97; 97] 97).
  { split; [done|]. intros s Hin.
    repeat (apply elem_of_cons in Hin as [Hin|Hin]; [done|]).
    by apply elem_of_nil in Hin. }
  split; [exact HexMore.int_hex_digits_format_x|]. split; [exact Hs|].
  split; [exact Hun|].
  exact (sesion_un_simbolo int_hex_digits 0
           HexMore.int_hex_digits_format_x [97; 97; 97] 97 Hs Hun).
Defined.

Lemma sin_mensaje_sin_efecto_witness :
  ([49] ∉ [[50]; [51]; [52]; [53]; [54]; [55]; [57]; [56]])
  /\ (ejecutar int_hex_digits 0
        [[50]; [51]; [52]; [53]; [54]; [55]; [57]; [56]] inicial).1
     = inicial.
Proof.
  assert (Hnin : [49] ∉ [[50]; [51]; [52]; [53]; [54]; [55]; [57]; [56]]).
  { intros Hin.
    repeat (apply elem_of_cons in Hin as [Hin|Hin]; [done|]).
    by apply elem_of_nil in Hin. }
  split; [exact Hnin|].
  exact (sin_mensaje_sin_efecto int_hex_digits 0 _ Hnin).
Defined.

Lemma sesion_surrogate_witness :
  Exists (fun c => 0xD800 <= c <= 0xDFFF) [97; 0xDC80]
  /\ exists final,
       calcular_hash (set_mensaje_original [97; 0xDC80] inicial)
       = (set_mensaje_original [97; 0xDC80] inicial, Raise UnicodeEncodeError)
       /\ ejecutar int_hex_digits 0
            [[49]; [97; 0xDC80]; [50]; [51]; [52]; [53]; [54]; [56]] inicial
          = (final, Salida)
       /\ hash_mensaje final = None /\ firma_digital final = None
       /\ mensaje_comprimido final ≠ None /\ mensaje_recibido final = None
       /\ mostrar_autenticidad final = PrimeroVerifique.
Proof.
  assert (Hs : Exists (fun c => 0xD800 <= c <= 0xDFFF) [97; 0xDC80]).
  { apply Exists_cons_tl, Exists_cons_hd. lia. }
  split; [exact Hs|].
  exact (sesion_surrogate int_hex_digits 0 [97; 0xDC80] Hs).
Defined.

End SistemaProps.
